(** * Cflat front end: lexer and recursive-descent parser

    A shallow embedding of the lexer ([lexer.cpp], in its two copies), of the
    token printer of [lex_main.cpp], of the token reader of [parse_main.cpp]
    and of the parser ([parser.cpp] over [ast.hpp]), followed by the
    properties of these functions.

    Conventions.
    - A source buffer is a [list ascii]; a [const char*] into it is a [nat]
      offset.  Reading one past the end of the buffer yields the NUL byte,
      as for the [c_str()] buffer the driver passes to [lex].
    - A loop that walks a pointer [it] up to [last] is a [Fixpoint] on the
      number [n] of bytes left ([n = last - it]).
    - Loops whose progress is not syntactically evident (the skipper's
      [for(;;)], the main loop of [lex], the parser's recursion) take an
      explicit fuel, and running out of fuel is a separate outcome.  The
      lexer's entry points supply a fuel that is proved sufficient; the
      parser's fuel is a parameter, and more fuel never changes what a
      parser method returns or throws; eight per token and nine more are
      enough for [parse]. *)

From Stdlib Require Import List String Ascii Arith PeanoNat Bool Lia ZArith NArith.
From Stdlib Require Import DecimalString Sorted.
Import ListNotations.

Set Warnings "-register-all".
Set Warnings "-notation-overridden".


Local Open Scope char_scope.
Local Open Scope nat_scope.
Local Open Scope list_scope.

(** Equality of two bytes. *)
Definition is_char (c d : ascii) : bool := Ascii.eqb c d.

(* ===================================================================== *)
(** ** <cctype> in the "C" locale *)
(* ===================================================================== *)

Module CType.

Definition in_range (lo hi : nat) (c : ascii) : bool :=
  let n := nat_of_ascii c in (lo <=? n) && (n <=? hi).

Definition isdigit (c : ascii) : bool := in_range 48 57 c.
Definition isupper (c : ascii) : bool := in_range 65 90 c.
Definition islower (c : ascii) : bool := in_range 97 122 c.
Definition isalpha (c : ascii) : bool := isupper c || islower c.
Definition isalnum (c : ascii) : bool := isalpha c || isdigit c.
(** space, and the control characters \t \n \v \f \r *)
Definition isspace (c : ascii) : bool := is_char c " " || in_range 9 13 c.

End CType.

(* ===================================================================== *)
(** ** lexer.hpp *)
(* ===================================================================== *)

(** [enum class TokenType]: the enumerators are written [TokenType.Error],
    [TokenType.Num], ... as in the source. *)
Module TokenType.
Inductive t : Type :=
| Error | Num | Id | Int | Struct | Nil | Break | Continue | Return | If
| Else | While | New | Let | Extern | Fn | And | Or | Not | Colon
| Semicolon | Comma | Arrow | Ampersand | Plus | Dash | Star | Slash
| Equal | NotEq | Lt | Lte | Gt | Gte | Dot | Gets | OpenParen | CloseParen
| OpenBracket | CloseBracket | OpenBrace | CloseBrace | QuestionMark.

Definition eq_dec (a b : t) : {a = b} + {a <> b}.
Proof. decide equality. Defined.
End TokenType.

Module Tok.
(** [first] is the offset of the first character of the token, [last] is
    one past its last character. *)
Record Token : Type := mk { token_type : TokenType.t; first : nat; last : nat }.
End Tok.
Abbreviation Token := Tok.Token.

(** The byte a pointer designates. *)
Definition byte_at (buf : list ascii) (p : nat) : ascii := nth p buf zero.

Definition NL : ascii := ascii_of_nat 10.

(** The characters of the range [first, last) of the buffer. *)
Definition lexeme (buf : list ascii) (first last : nat) : list ascii :=
  firstn (last - first) (skipn first buf).

(* ===================================================================== *)
(** ** lexer.cpp, revised copy *)
(* ===================================================================== *)

(** The repository holds two copies of [lexer.cpp].  This is the revised
    one, with the helpers [starts_token], [starts_one_char_token] and
    [starts_two_char_token]; the earlier one follows in [LexerV1]. *)

Module Lexer.
Import CType.

Definition starts_two_char_token (buf : list ascii) (p last : nat) : bool :=
  if last <=? p + 1 then false
  else
    let p0 := byte_at buf p in
    let p1 := byte_at buf (p + 1) in
    (is_char p0 "!" && is_char p1 "=") ||
    (is_char p0 "<" && is_char p1 "=") ||
    (is_char p0 ">" && is_char p1 "=") ||
    (is_char p0 "-" && is_char p1 ">") ||
    (is_char p0 "=" && is_char p1 "=") ||
    (is_char p0 "/" && (is_char p1 "/" || is_char p1 "*")).

Definition starts_one_char_token (c : ascii) : bool :=
  match c with
  | ":" | ";" | "," | "&" | "+" | "-"
  | "*" | "/" | "<" | ">" | "." | "="
  | "(" | ")" | "[" | "]" | "{" | "}"
  | "?" => true
  | _ => false
  end.

Definition starts_token (buf : list ascii) (p last : nat) : bool :=
  if last <=? p then false
  else if isalpha (byte_at buf p) then true
  else if isdigit (byte_at buf p) then true
  else if starts_two_char_token buf p last then true
  else if starts_one_char_token (byte_at buf p) then true
  else false.

(** [substr_eq]: [n] bytes are left in the range, [it] walks it, [pattern]
    is what is left of the NUL-terminated pattern. *)
Fixpoint substr_eq_from (buf : list ascii) (n it : nat) (pattern : list ascii) : bool :=
  match n with
  | 0 => match pattern with [] => true | _ :: _ => false end
  | S n' =>
      match pattern with
      | [] => false
      | c :: pattern' =>
          if negb (is_char (byte_at buf it) c) then false
          else substr_eq_from buf n' (S it) pattern'
      end
  end.

Definition substr_eq (buf : list ascii) (first last : nat) (pattern : string) : bool :=
  substr_eq_from buf (last - first) first (list_ascii_of_string pattern).

Fixpoint identifier_scan (buf : list ascii) (n it : nat) : nat :=
  match n with
  | 0 => it
  | S n' =>
      if negb (isalnum (byte_at buf it) || (is_char (byte_at buf it) "_")) then it
      else identifier_scan buf n' (S it)
  end.

Definition identifier_end (buf : list ascii) (first last : nat) : nat :=
  if (first =? last) || negb (isalpha (byte_at buf first)) then first
  else identifier_scan buf (last - first) first.

Fixpoint numeric_scan (buf : list ascii) (n it : nat) : nat :=
  match n with
  | 0 => it
  | S n' =>
      if negb (isdigit (byte_at buf it)) then it
      else numeric_scan buf n' (S it)
  end.

Definition numeric_end (buf : list ascii) (first last : nat) : nat :=
  if (first =? last) || negb (isdigit (byte_at buf first)) then first
  else numeric_scan buf (last - first) first.

(** The [while (it < last)] loop of [error_end]. *)
Fixpoint error_scan (buf : list ascii) (n it last : nat) : nat :=
  match n with
  | 0 => it
  | S n' =>
      if starts_token buf it last then it
      else error_scan buf n' (S it) last
  end.

Definition error_end (buf : list ascii) (first last : nat) : nat :=
  let it := if first <? last then S first else first in
  error_scan buf (last - it) it last.

Definition single_char (c : ascii) : option TokenType.t :=
  match c with
  | ":" => Some TokenType.Colon
  | ";" => Some TokenType.Semicolon
  | "," => Some TokenType.Comma
  | "&" => Some TokenType.Ampersand
  | "+" => Some TokenType.Plus
  | "-" => Some TokenType.Dash
  | "*" => Some TokenType.Star
  | "/" => Some TokenType.Slash
  | "<" => Some TokenType.Lt
  | ">" => Some TokenType.Gt
  | "." => Some TokenType.Dot
  | "=" => Some TokenType.Gets
  | "(" => Some TokenType.OpenParen
  | ")" => Some TokenType.CloseParen
  | "[" => Some TokenType.OpenBracket
  | "]" => Some TokenType.CloseBracket
  | "{" => Some TokenType.OpenBrace
  | "}" => Some TokenType.CloseBrace
  | "?" => Some TokenType.QuestionMark
  | _ => None
  end.

Definition munch_token (buf : list ascii) (first last : nat) : Token :=
  if first =? last then Tok.mk TokenType.Error first last
  else if isalpha (byte_at buf first) then
    let id_end := identifier_end buf first last in
    if substr_eq buf first id_end "int" then Tok.mk TokenType.Int first id_end
    else if substr_eq buf first id_end "struct" then Tok.mk TokenType.Struct first id_end
    else if substr_eq buf first id_end "nil" then Tok.mk TokenType.Nil first id_end
    else if substr_eq buf first id_end "break" then Tok.mk TokenType.Break first id_end
    else if substr_eq buf first id_end "continue" then Tok.mk TokenType.Continue first id_end
    else if substr_eq buf first id_end "return" then Tok.mk TokenType.Return first id_end
    else if substr_eq buf first id_end "if" then Tok.mk TokenType.If first id_end
    else if substr_eq buf first id_end "else" then Tok.mk TokenType.Else first id_end
    else if substr_eq buf first id_end "while" then Tok.mk TokenType.While first id_end
    else if substr_eq buf first id_end "new" then Tok.mk TokenType.New first id_end
    else if substr_eq buf first id_end "let" then Tok.mk TokenType.Let first id_end
    else if substr_eq buf first id_end "extern" then Tok.mk TokenType.Extern first id_end
    else if substr_eq buf first id_end "fn" then Tok.mk TokenType.Fn first id_end
    else if substr_eq buf first id_end "and" then Tok.mk TokenType.And first id_end
    else if substr_eq buf first id_end "or" then Tok.mk TokenType.Or first id_end
    else if substr_eq buf first id_end "not" then Tok.mk TokenType.Not first id_end
    else Tok.mk TokenType.Id first id_end
  else if isdigit (byte_at buf first) then
    Tok.mk TokenType.Num first (numeric_end buf first last)
  else if (2 <=? last - first) && substr_eq buf first (first + 2) "!=" then
    Tok.mk TokenType.NotEq first (first + 2)
  else if (2 <=? last - first) && substr_eq buf first (first + 2) "<=" then
    Tok.mk TokenType.Lte first (first + 2)
  else if (2 <=? last - first) && substr_eq buf first (first + 2) ">=" then
    Tok.mk TokenType.Gte first (first + 2)
  else if (2 <=? last - first) && substr_eq buf first (first + 2) "->" then
    Tok.mk TokenType.Arrow first (first + 2)
  else if (2 <=? last - first) && substr_eq buf first (first + 2) "==" then
    Tok.mk TokenType.Equal first (first + 2)
  else
    match single_char (byte_at buf first) with
    | Some k => Tok.mk k first (first + 1)
    | None => Tok.mk TokenType.Error first (error_end buf first last)
    end.

(** The three inner loops of the skipper. *)
Fixpoint whitespace_scan (buf : list ascii) (n it : nat) : nat :=
  match n with
  | 0 => it
  | S n' =>
      if isspace (byte_at buf it) then whitespace_scan buf n' (S it) else it
  end.

Fixpoint line_scan (buf : list ascii) (n it : nat) : nat :=
  match n with
  | 0 => it
  | S n' =>
      if negb (is_char (byte_at buf it) NL) then line_scan buf n' (S it) else it
  end.

(** [while (it + 1 < last)]: [n] is [last - it]; the result is the position
    after the closing [*/], or [None] when [closed] stays false. *)
Fixpoint block_scan (buf : list ascii) (n it : nat) : option nat :=
  match n with
  | 0 => None
  | S 0 => None
  | S n' =>
      if (is_char (byte_at buf it) "*") && (is_char (byte_at buf (it + 1)) "/") then Some (it + 2)
      else block_scan buf n' (S it)
  end.

(** The [for (;;)] of [skip_whitespace_and_comments]; [None] is fuel
    exhaustion. *)
Fixpoint skip_loop (fuel : nat) (buf : list ascii) (it last : nat)
  : option (nat * option Token) :=
  match fuel with
  | 0 => None
  | S fuel' =>
      let it := whitespace_scan buf (last - it) it in
      if (it + 1 <? last) && (is_char (byte_at buf it) "/") && (is_char (byte_at buf (it + 1)) "/") then
        let start_comment := it in
        let it := it + 2 in
        let it := line_scan buf (last - it) it in
        if it =? last then Some (last, Some (Tok.mk TokenType.Error start_comment last))
        else
          let it := if negb (it =? last) && (is_char (byte_at buf it) NL) then S it else it in
          skip_loop fuel' buf it last
      else if (it + 1 <? last) && (is_char (byte_at buf it) "/") && (is_char (byte_at buf (it + 1)) "*") then
        let start_comment := it in
        let it := it + 2 in
        match block_scan buf (last - it) it with
        | Some it => skip_loop fuel' buf it last
        | None => Some (last, Some (Tok.mk TokenType.Error start_comment last))
        end
      else Some (it, None)
  end.

Definition skip_whitespace_and_comments (buf : list ascii) (first last : nat)
  : option (nat * option Token) :=
  skip_loop (S (last - first)) buf first last.

(** The [while (curr != last)] of [lex]; [None] is fuel exhaustion. *)
Fixpoint lex_loop (fuel : nat) (buf : list ascii) (curr last : nat) (tokens : list Token)
  : option (list Token) :=
  match fuel with
  | 0 => None
  | S fuel' =>
      if curr =? last then Some tokens
      else
        match skip_whitespace_and_comments buf curr last with
        | None => None
        | Some (next_char, Some error_token) => Some (tokens ++ [error_token])
        | Some (next_char, None) =>
            let curr := next_char in
            if curr =? last then Some tokens
            else
              let tok := munch_token buf curr last in
              lex_loop fuel' buf (Tok.last tok) last (tokens ++ [tok])
        end
  end.

Definition lex_range (buf : list ascii) (first last : nat) : option (list Token) :=
  lex_loop (S (last - first)) buf first last [].

(** [lex] on a whole buffer, as [lex_main.cpp] calls it. *)
Definition lex (buf : list ascii) : option (list Token) :=
  lex_range buf 0 (List.length buf).

End Lexer.


(* ===================================================================== *)
(** ** lexer.cpp, earlier copy *)
(* ===================================================================== *)

(** The earlier copy of the lexer shares [lexer.hpp], [substr_eq],
    [identifier_end], [numeric_end] and the loop of [lex] with the revised
    one.  It differs in three places: the two-character operators are
    compared with [strcmp], [error_end] stops at a space, a letter, [=] or
    [+] only, and a line comment that runs to the end of the buffer is
    skipped without a token.  This copy applies the [<cctype>] tests to
    plain [char]; they are read as in the revised copy. *)

Module LexerV1.
Import CType.

(** [strcmp(first, pattern) == 0]: the NUL-terminated string that starts
    at [first] is the pattern.  The string runs to the first NUL byte, that
    is to the end of the buffer when the source has none. *)
Fixpoint strcmp_eq (buf : list ascii) (it : nat) (pattern : list ascii) : bool :=
  match pattern with
  | [] => is_char (byte_at buf it) zero
  | c :: pattern' => is_char (byte_at buf it) c && strcmp_eq buf (S it) pattern'
  end.

Definition strcmp0 (buf : list ascii) (first : nat) (pattern : string) : bool :=
  strcmp_eq buf first (list_ascii_of_string pattern).

Definition substr_eq := Lexer.substr_eq.
Definition identifier_end := Lexer.identifier_end.
Definition numeric_end := Lexer.numeric_end.
Definition single_char := Lexer.single_char.

(** The [for (; err_end != last; ++err_end)] loop of [error_end]. *)
Fixpoint error_scan (buf : list ascii) (n err_end : nat) : nat :=
  match n with
  | 0 => err_end
  | S n' =>
      if is_char " " (byte_at buf err_end) || isalpha (byte_at buf err_end)
         || is_char "=" (byte_at buf err_end) || is_char "+" (byte_at buf err_end)
      then err_end
      else error_scan buf n' (S err_end)
  end.

Definition error_end (buf : list ascii) (first last : nat) : nat :=
  let err_end := first + 1 in
  error_scan buf (last - err_end) err_end.

Definition munch_token (buf : list ascii) (first last : nat) : Token :=
  if first =? last then Tok.mk TokenType.Error first last
  else if isalpha (byte_at buf first) then
    let id_end := identifier_end buf first last in
    if substr_eq buf first id_end "int" then Tok.mk TokenType.Int first id_end
    else if substr_eq buf first id_end "struct" then Tok.mk TokenType.Struct first id_end
    else if substr_eq buf first id_end "nil" then Tok.mk TokenType.Nil first id_end
    else if substr_eq buf first id_end "break" then Tok.mk TokenType.Break first id_end
    else if substr_eq buf first id_end "continue" then Tok.mk TokenType.Continue first id_end
    else if substr_eq buf first id_end "return" then Tok.mk TokenType.Return first id_end
    else if substr_eq buf first id_end "if" then Tok.mk TokenType.If first id_end
    else if substr_eq buf first id_end "else" then Tok.mk TokenType.Else first id_end
    else if substr_eq buf first id_end "while" then Tok.mk TokenType.While first id_end
    else if substr_eq buf first id_end "new" then Tok.mk TokenType.New first id_end
    else if substr_eq buf first id_end "let" then Tok.mk TokenType.Let first id_end
    else if substr_eq buf first id_end "extern" then Tok.mk TokenType.Extern first id_end
    else if substr_eq buf first id_end "fn" then Tok.mk TokenType.Fn first id_end
    else if substr_eq buf first id_end "and" then Tok.mk TokenType.And first id_end
    else if substr_eq buf first id_end "or" then Tok.mk TokenType.Or first id_end
    else if substr_eq buf first id_end "not" then Tok.mk TokenType.Not first id_end
    else Tok.mk TokenType.Id first id_end
  else if isdigit (byte_at buf first) then
    Tok.mk TokenType.Num first (numeric_end buf first last)
  else if (2 <=? last - first) && strcmp0 buf first "!=" then
    Tok.mk TokenType.NotEq first (first + 2)
  else if (2 <=? last - first) && strcmp0 buf first "<=" then
    Tok.mk TokenType.Lte first (first + 2)
  else if (2 <=? last - first) && strcmp0 buf first ">=" then
    Tok.mk TokenType.Gte first (first + 2)
  else if (2 <=? last - first) && strcmp0 buf first "->" then
    Tok.mk TokenType.Arrow first (first + 2)
  else if (2 <=? last - first) && strcmp0 buf first "==" then
    Tok.mk TokenType.Equal first (first + 2)
  else if (2 <=? last - first) && strcmp0 buf first "/*" then
    Tok.mk TokenType.Error first last
  else
    match single_char (byte_at buf first) with
    | Some k => Tok.mk k first (first + 1)
    | None => Tok.mk TokenType.Error first (error_end buf first last)
    end.

(** [while (it + 1 < last && !( *it == '*' && *(it + 1) == '/')) ++it;]
    followed by the test [it + 1 < last]: the position after the closing
    [*/], or [None] for an unterminated comment. *)
Fixpoint block_scan (buf : list ascii) (n it : nat) : option nat :=
  match n with
  | 0 => None
  | S 0 => None
  | S n' =>
      if negb (is_char (byte_at buf it) "*" && is_char (byte_at buf (it + 1)) "/")
      then block_scan buf n' (S it)
      else Some (it + 2)
  end.

(** The [while (true)] of [skip_whitespace_and_comments]; [None] is fuel
    exhaustion. *)
Fixpoint skip_loop (fuel : nat) (buf : list ascii) (it last : nat)
  : option (nat * option Token) :=
  match fuel with
  | 0 => None
  | S fuel' =>
      let it := Lexer.whitespace_scan buf (last - it) it in
      if (it + 1 <? last) && is_char (byte_at buf it) "/" && is_char (byte_at buf (it + 1)) "/" then
        let it := it + 2 in
        let it := Lexer.line_scan buf (last - it) it in
        skip_loop fuel' buf it last
      else if (it + 1 <? last) && is_char (byte_at buf it) "/" && is_char (byte_at buf (it + 1)) "*" then
        let start_comment := it in
        let it := it + 2 in
        match block_scan buf (last - it) it with
        | Some it => skip_loop fuel' buf it last
        | None => Some (last, Some (Tok.mk TokenType.Error start_comment last))
        end
      else Some (it, None)
  end.

Definition skip_whitespace_and_comments (buf : list ascii) (first last : nat)
  : option (nat * option Token) :=
  skip_loop (S (last - first)) buf first last.

Fixpoint lex_loop (fuel : nat) (buf : list ascii) (curr last : nat) (tokens : list Token)
  : option (list Token) :=
  match fuel with
  | 0 => None
  | S fuel' =>
      if curr =? last then Some tokens
      else
        match skip_whitespace_and_comments buf curr last with
        | None => None
        | Some (next_char, Some error_token) => Some (tokens ++ [error_token])
        | Some (next_char, None) =>
            let curr := next_char in
            if curr =? last then Some tokens
            else
              let tok := munch_token buf curr last in
              lex_loop fuel' buf (Tok.last tok) last (tokens ++ [tok])
        end
  end.

Definition lex_range (buf : list ascii) (first last : nat) : option (list Token) :=
  lex_loop (S (last - first)) buf first last [].

Definition lex (buf : list ascii) : option (list Token) :=
  lex_range buf 0 (List.length buf).

End LexerV1.

(** A source text as a buffer. *)
Definition src (s : string) : list ascii := list_ascii_of_string s.

(* ===================================================================== *)
(** ** lex_main.cpp: the token printer *)
(* ===================================================================== *)

Module LexMain.

Definition kind_name (k : TokenType.t) : string :=
  match k with
  | TokenType.Error => "Error" | TokenType.Num => "Num" | TokenType.Id => "Id"
  | TokenType.Int => "Int" | TokenType.Struct => "Struct" | TokenType.Nil => "Nil"
  | TokenType.Break => "Break" | TokenType.Continue => "Continue"
  | TokenType.Return => "Return" | TokenType.If => "If" | TokenType.Else => "Else"
  | TokenType.While => "While" | TokenType.New => "New" | TokenType.Let => "Let"
  | TokenType.Extern => "Extern" | TokenType.Fn => "Fn" | TokenType.And => "And"
  | TokenType.Or => "Or" | TokenType.Not => "Not" | TokenType.Colon => "Colon"
  | TokenType.Semicolon => "Semicolon" | TokenType.Comma => "Comma"
  | TokenType.Arrow => "Arrow" | TokenType.Ampersand => "Ampersand"
  | TokenType.Plus => "Plus" | TokenType.Dash => "Dash" | TokenType.Star => "Star"
  | TokenType.Slash => "Slash" | TokenType.Equal => "Equal" | TokenType.NotEq => "NotEq"
  | TokenType.Lt => "Lt" | TokenType.Lte => "Lte" | TokenType.Gt => "Gt"
  | TokenType.Gte => "Gte" | TokenType.Dot => "Dot" | TokenType.Gets => "Gets"
  | TokenType.OpenParen => "OpenParen" | TokenType.CloseParen => "CloseParen"
  | TokenType.OpenBracket => "OpenBracket" | TokenType.CloseBracket => "CloseBracket"
  | TokenType.OpenBrace => "OpenBrace" | TokenType.CloseBrace => "CloseBrace"
  | TokenType.QuestionMark => "QuestionMark"
  end.

Definition token_type_to_string (buf : list ascii) (token : Token) : string :=
  let lexeme := string_of_list_ascii (lexeme buf (Tok.first token) (Tok.last token)) in
  match Tok.token_type token with
  | TokenType.Error =>
      if negb (Nat.eqb (String.length lexeme) 0)
         && is_char (List.last (list_ascii_of_string lexeme) zero) NL
      then "Error(" ++ lexeme ++ String NL ")"
      else "Error(" ++ lexeme ++ ")"
  | TokenType.Num => "Num(" ++ lexeme ++ ")"
  | TokenType.Id => "Id(" ++ lexeme ++ ")"
  | k => kind_name k
  end%string.

(** The output loop of [main]: the tokens separated by single spaces. *)
Fixpoint print_tokens (buf : list ascii) (tokens : list Token) : string :=
  match tokens with
  | [] => ""
  | [token] => token_type_to_string buf token
  | token :: rest => token_type_to_string buf token ++ " " ++ print_tokens buf rest
  end%string.

(** What [lex <file>] writes for a source text. *)
Definition main (source_code : string) : option string :=
  match Lexer.lex (src source_code) with
  | Some tokens => Some (print_tokens (src source_code) tokens ++ String NL "")%string
  | None => None
  end.

End LexMain.

(* ===================================================================== *)
(** ** parser.hpp: the parser's tokens; parse_main.cpp: the token reader *)
(* ===================================================================== *)

Module PTok.
(** [value] is only used for Id and Num; [index] is documented as the
    token's position in the input stream. *)
Record Token : Type := mk { type : string; value : string; index : nat }.
End PTok.

Module ParseMain.

(** [size_t] arithmetic. *)
Definition SIZE_MOD : N := 2 ^ 64.
Definition size_sub (a b : N) : N := ((a + SIZE_MOD - b mod SIZE_MOD) mod SIZE_MOD)%N.

Fixpoint drop (n : nat) (s : string) : string :=
  match n, s with
  | 0, _ => s
  | S n', String _ s' => drop n' s'
  | S _, EmptyString => EmptyString
  end.

Fixpoint take (n : nat) (s : string) : string :=
  match n, s with
  | 0, _ => EmptyString
  | S n', String c s' => String c (take n' s')
  | S _, EmptyString => EmptyString
  end.

(** [s.substr(pos, count)] for [pos <= s.size()]: the characters of
    [pos, min(pos + count, size)).  The reader never calls it with a larger
    [pos]. *)
Definition substr (s : string) (pos : nat) (count : N) : string :=
  let rest := drop pos s in
  if (N.of_nat (String.length rest) <=? count)%N then rest
  else take (N.to_nat count) rest.

(** [s.find(c)] *)
Fixpoint find (s : string) (c : ascii) : option nat :=
  match s with
  | EmptyString => None
  | String d s' => if is_char d c then Some 0 else option_map S (find s' c)
  end.

(** [split]: [std::getline] with a delimiter yields the text up to the next
    delimiter, and fails at the end of the stream when it has extracted
    nothing.  [part] is the text read since the last delimiter. *)
Fixpoint split_from (s : string) (delimiter : ascii) (part : string) : list string :=
  match s with
  | EmptyString => match part with EmptyString => [] | _ => [part] end
  | String c s' =>
      if is_char c delimiter then part :: split_from s' delimiter EmptyString
      else split_from s' delimiter (part ++ String c EmptyString)%string
  end.

Definition split (s : string) (delimiter : ascii) : list string :=
  split_from s delimiter EmptyString.

(** The [for] loop of [tokenize_input], from the string token of ordinal
    [i] on. *)
Fixpoint tokenize_from (string_tokens : list string) (i : nat) (tokens : list PTok.Token)
  : list PTok.Token :=
  match string_tokens with
  | [] => tokens
  | str_tok :: rest =>
      match str_tok with
      | EmptyString => tokenize_from rest (S i) tokens
      | _ =>
          match find str_tok "(" with
          | Some open_paren =>
              let type := substr str_tok 0 (N.of_nat open_paren) in
              let value :=
                substr str_tok (open_paren + 1)
                  (size_sub (size_sub (N.of_nat (String.length str_tok)) (N.of_nat open_paren)) 2) in
              tokenize_from rest (S i) (tokens ++ [PTok.mk type value i])
          | None => tokenize_from rest (S i) (tokens ++ [PTok.mk str_tok EmptyString i])
          end
      end
  end.

Definition tokenize_input (line : string) : list PTok.Token :=
  tokenize_from (split line " ") 0 [].

(** [std::getline(file, line)]: the first line of the file. *)
Fixpoint getline (file : string) : string :=
  match file with
  | EmptyString => EmptyString
  | String c rest => if is_char c NL then EmptyString else String c (getline rest)
  end.

End ParseMain.

(* ===================================================================== *)
(** ** ast.hpp *)
(* ===================================================================== *)

Module UnaryOp.
Inductive t : Type := Neg | Not.
End UnaryOp.

Module BinaryOp.
Inductive t : Type := Add | Sub | Mul | Div | And | Or | Eq | NotEq | Lt | Lte | Gt | Gte.
End BinaryOp.

Module Ast.

Inductive Type_ : Type :=
| IntType
| StructType (name : string)
| FnType (param_types : list Type_) (return_type : Type_)
| PtrType (base_type : Type_)
| ArrayType (element_type : Type_)
| NilType.

Record Decl : Type := mkDecl { decl_name : string; decl_type : Type_ }.

(** [Num] holds a [long long]. *)
Inductive Exp : Type :=
| Val (place : Place)
| Num (value : Z)
| NilExp
| Select (guard tt ff : Exp)
| UnOp (op : UnaryOp.t) (exp : Exp)
| BinOp (op : BinaryOp.t) (left right : Exp)
| NewSingle (type : Type_)
| NewArray (type : Type_) (size : Exp)
| CallExp (fun_call : FunCall)
with Place : Type :=
| Id (name : string)
| Deref (exp : Exp)
| ArrayAccess (array index : Exp)
| FieldAccess (ptr : Exp) (field : string)
with FunCall : Type :=
| mkFunCall (callee : Exp) (args : list Exp).

Inductive Stmt : Type :=
| Assign (place : Place) (exp : Exp)
| CallStmt (fun_call : FunCall)
| If (guard : Exp) (tt ff : list Stmt)
| While (guard : Exp) (body : list Stmt)
| Break
| Continue
| Return (exp : Exp).

Record FunctionDef : Type := mkFunctionDef {
  fn_name : string;
  params : list Decl;
  rettype : Type_;
  locals : list Decl;
  stmts : list Stmt }.

Record StructDef : Type := mkStructDef { struct_name : string; fields : list Decl }.

Record Program : Type := mkProgram {
  structs : list StructDef;
  externs : list Decl;
  functions : list FunctionDef }.

End Ast.

(* ===================================================================== *)
(** ** parser.cpp *)
(* ===================================================================== *)

Module Parser.
Import Ast.

Local Abbreviation Token := PTok.Token.

(** The exceptions that leave the parser: [std::runtime_error] with its
    message (what [error] throws, and what [main] catches and prints),
    [std::invalid_argument] (from [std::stoll]) and [std::out_of_range]
    (from [vector::at]). *)
Inductive exn : Type :=
| runtime_error (what : string)
| invalid_argument
| out_of_range.

(** A parser method either returns a value and leaves the cursor
    [m_current_pos] at [pos], or throws; [OutOfFuel] is fuel exhaustion. *)
Inductive outcome (A : Type) : Type :=
| Ok (a : A) (pos : nat)
| Throw (e : exn)
| OutOfFuel.
Arguments Ok {A} a pos.
Arguments Throw {A} e.
Arguments OutOfFuel {A}.

(** A method of [Parser], as a function of the cursor. *)
Definition M (A : Type) : Type := nat -> outcome A.

Definition ret {A} (a : A) : M A := fun pos => Ok a pos.

Definition bind {A B} (m : M A) (k : A -> M B) : M B :=
  fun pos =>
    match m pos with
    | Ok a pos' => k a pos'
    | Throw e => Throw e
    | OutOfFuel => OutOfFuel
    end.

Definition throw {A} (e : exn) : M A := fun _ => Throw e.
Definition out_of_fuel {A} : M A := fun _ => OutOfFuel.

(** [if (c) a else b] where the condition only reads the cursor. *)
Definition cond {A} (c : nat -> bool) (a b : M A) : M A :=
  fun pos => if c pos then a pos else b pos.

Declare Scope parser_scope.
Delimit Scope parser_scope with parser.
Notation "x <- m ;; k" := (bind m (fun x => k))
  (at level 61, m at next level, right associativity) : parser_scope.
Notation "m ;; k" := (bind m (fun _ => k))
  (at level 61, right associativity) : parser_scope.
Local Open Scope string_scope.
Local Open Scope parser_scope.

(** [std::to_string] of a [size_t]. *)
Definition to_string (n : nat) : string := NilEmpty.string_of_uint (Nat.to_uint n).

(** *** std::stoll, base 10 *)

Definition LLONG_MAX : Z := 9223372036854775807.
Definition LLONG_MIN : Z := (-9223372036854775808)%Z.

Inductive stoll_result : Type :=
| stoll_value (v : Z)
| stoll_invalid_argument
| stoll_out_of_range.

Definition digit_value (c : ascii) : Z := Z.of_nat (nat_of_ascii c - 48).

Fixpoint skip_space (s : string) : string :=
  match s with
  | String c s' => if CType.isspace c then skip_space s' else s
  | EmptyString => s
  end.

(** The value of the longest prefix of decimal digits, after [acc]. *)
Fixpoint digits_value (s : string) (acc : Z) : Z :=
  match s with
  | String c s' =>
      if CType.isdigit c then digits_value s' (10 * acc + digit_value c)%Z else acc
  | EmptyString => acc
  end.

Definition starts_with_digit (s : string) : bool :=
  match s with
  | String c _ => CType.isdigit c
  | EmptyString => false
  end.

(** Leading white space is skipped, one sign is accepted, the longest run
    of digits is converted and what follows it is ignored; no digit at all
    is [std::invalid_argument], a value outside [long long] is
    [std::out_of_range]. *)
Definition stoll (str : string) : stoll_result :=
  let s := skip_space str in
  let '(negative, s) :=
    match s with
    | String c s' =>
        if is_char c "-" then (true, s')
        else if is_char c "+" then (false, s')
        else (false, s)
    | EmptyString => (false, s)
    end in
  if negb (starts_with_digit s) then stoll_invalid_argument
  else
    let v := digits_value s 0 in
    let v := if negative then (- v)%Z else v in
    if ((v <? LLONG_MIN) || (LLONG_MAX <? v))%Z then stoll_out_of_range
    else stoll_value v.

Section WithTokens.

(** [m_tokens] is fixed by the constructor; the state is [m_current_pos]. *)
Variable m_tokens : list Token.

Definition is_at_end (pos : nat) : bool := Nat.leb (List.length m_tokens) pos.

Definition error {A} (message : string) : M A :=
  throw (runtime_error ("parse error: " ++ message)).

(** [m_tokens.at(i)] *)
Definition at_ (i : nat) : M Token :=
  fun pos =>
    match nth_error m_tokens i with
    | Some t => Ok t pos
    | None => Throw out_of_range
    end.

Definition peek : M Token :=
  cond is_at_end (error "unexpected end of token stream") (fun pos => at_ pos pos).

(** [m_tokens.at(m_current_pos - 1)]; at cursor 0 the index wraps around
    and [at] throws. *)
Definition previous : M Token :=
  fun pos =>
    match pos with
    | 0 => Throw out_of_range
    | S p => at_ p pos
    end.

Definition advance : M Token :=
  fun pos => if negb (is_at_end pos) then previous (S pos) else previous pos.

Definition consume (expected_type : string) (error_message : string) : M Token :=
  cond is_at_end (error "unexpected end of token stream")
    (t <- peek ;;
     if negb (PTok.type t =? expected_type) then error error_message
     else advance).

Definition check (type : string) (pos : nat) : bool :=
  if is_at_end pos then false
  else
    match nth_error m_tokens pos with
    | Some t => (PTok.type t =? type)
    | None => false
    end.

Definition check_any (types : list string) (pos : nat) : bool :=
  if is_at_end pos then false
  else
    match nth_error m_tokens pos with
    | Some t => existsb (fun type => (PTok.type t =? type)) types
    | None => false
    end.

(** The message argument ["unexpected token at token " +
    std::to_string(peek().index)], which is evaluated before the call it is
    passed to and throws at the end of the stream. *)
Definition unexpected_token : M string :=
  t <- peek ;; ret ("unexpected token at token " ++ to_string (PTok.index t)).

(** [consume(type, "unexpected token at token " + std::to_string(peek().index))] *)
Definition expect (type : string) : M Token :=
  message <- unexpected_token ;; consume type message.

(** [do { v.push_back(item()); } while (check("Comma") && (advance(), true));] *)
Fixpoint comma_list {A} (fuel : nat) (item : M A) (v : list A) : M (list A) :=
  match fuel with
  | 0 => out_of_fuel
  | S fuel' =>
      x <- item ;;
      cond (check "Comma")
        (advance ;; comma_list fuel' item (v ++ [x])%list)
        (ret (v ++ [x])%list)
  end.

(** [if (!check(close)) { do ... while ... }] on a fresh vector. *)
Definition list_until {A} (close : string) (fuel : nat) (item : M A) : M (list A) :=
  cond (check close) (ret []) (comma_list fuel item []).

Fixpoint parse_type (fuel : nat) : M Type_ :=
  match fuel with
  | 0 => out_of_fuel
  | S fuel' =>
      cond (check "Int") (advance ;; ret IntType)
     (cond (check "Id") (id_token <- advance ;; ret (StructType (PTok.value id_token)))
     (cond (check "Ampersand")
        (advance ;; inner_type <- parse_type fuel' ;; ret (PtrType inner_type))
     (cond (check "OpenBracket")
        (advance ;;
         inner_type <- parse_type fuel' ;;
         expect "CloseBracket" ;;
         ret (ArrayType inner_type))
        (parse_funtype fuel'))))
  end
with parse_funtype (fuel : nat) : M Type_ :=
  match fuel with
  | 0 => out_of_fuel
  | S fuel' =>
      expect "OpenParen" ;;
      param_types <- list_until "CloseParen" fuel' (parse_type fuel') ;;
      expect "CloseParen" ;;
      expect "Arrow" ;;
      return_type <- parse_type fuel' ;;
      ret (FnType param_types return_type)
  end.

Definition parse_decl (fuel : nat) : M Decl :=
  name <- expect "Id" ;;
  expect "Colon" ;;
  type <- parse_type fuel ;;
  ret (mkDecl (PTok.value name) type).


(** *** Expressions *)

(** The [while (check("QuestionMark"))] of [parse_exp]. *)
Fixpoint select_loop (fuel : nat) (exp exp1 : M Exp) (left : Exp) : M Exp :=
  match fuel with
  | 0 => out_of_fuel
  | S fuel' =>
      cond (check "QuestionMark")
        (advance ;;
         true_exp <- exp ;;
         expect "Colon" ;;
         false_exp <- exp1 ;;
         select_loop fuel' exp exp1 (Select left true_exp false_exp))
        (ret left)
  end.

(** The [while (check_any(...))] of [parse_exp2]. *)
Fixpoint exp2_loop (fuel : nat) (exp3 : M Exp) (left : Exp) : M Exp :=
  match fuel with
  | 0 => out_of_fuel
  | S fuel' =>
      cond (check_any ["Equal"; "NotEq"; "Lt"; "Lte"; "Gt"; "Gte"])
        (op_token <- advance ;;
         right <- exp3 ;;
         op <- (if PTok.type op_token =? "Equal" then ret BinaryOp.Eq
                else if PTok.type op_token =? "NotEq" then ret BinaryOp.NotEq
                else if PTok.type op_token =? "Lt" then ret BinaryOp.Lt
                else if PTok.type op_token =? "Lte" then ret BinaryOp.Lte
                else if PTok.type op_token =? "Gt" then ret BinaryOp.Gt
                else if PTok.type op_token =? "Gte" then ret BinaryOp.Gte
                else error ("unexpected token at token " ++ to_string (PTok.index op_token))) ;;
         exp2_loop fuel' exp3 (BinOp op left right))
        (ret left)
  end.

(** The [while (check_any(...))] of [parse_exp3]. *)
Fixpoint exp3_loop (fuel : nat) (exp4 : M Exp) (left : Exp) : M Exp :=
  match fuel with
  | 0 => out_of_fuel
  | S fuel' =>
      cond (check_any ["Plus"; "Dash"])
        (op_token <- advance ;;
         right <- exp4 ;;
         let op := if PTok.type op_token =? "Plus" then BinaryOp.Add else BinaryOp.Sub in
         exp3_loop fuel' exp4 (BinOp op left right))
        (ret left)
  end.

(** The [while (check_any(...))] of [parse_exp4]. *)
Fixpoint exp4_loop (fuel : nat) (exp5 : M Exp) (left : Exp) : M Exp :=
  match fuel with
  | 0 => out_of_fuel
  | S fuel' =>
      cond (check_any ["Star"; "Slash"])
        (op_token <- advance ;;
         right <- exp5 ;;
         let op := if PTok.type op_token =? "Star" then BinaryOp.Mul else BinaryOp.Div in
         exp4_loop fuel' exp5 (BinOp op left right))
        (ret left)
  end.

(** The [while (true)] of [parse_exp6]. *)
Fixpoint postfix_loop (fuel : nat) (parse_exp : M Exp) (exp : Exp) : M Exp :=
  match fuel with
  | 0 => out_of_fuel
  | S fuel' =>
      cond (check "OpenBracket")
        (advance ;;
         index <- parse_exp ;;
         expect "CloseBracket" ;;
         postfix_loop fuel' parse_exp (Val (ArrayAccess exp index)))
     (cond (check "Dot")
        (advance ;;
         cond (check "Id")
           (field_token <- advance ;;
            postfix_loop fuel' parse_exp (Val (FieldAccess exp (PTok.value field_token))))
        (cond (check "Star")
           (advance ;;
            postfix_loop fuel' parse_exp (Val (Deref exp)))
           (message <- unexpected_token ;; error message)))
     (cond (check "OpenParen")
        (advance ;;
         args <- list_until "CloseParen" fuel' parse_exp ;;
         expect "CloseParen" ;;
         postfix_loop fuel' parse_exp (CallExp (mkFunCall exp args)))
        (ret exp)))
  end.

Fixpoint parse_exp (fuel : nat) : M Exp :=
  match fuel with
  | 0 => out_of_fuel
  | S fuel' =>
      left <- parse_exp1 fuel' ;;
      select_loop fuel' (parse_exp fuel') (parse_exp1 fuel') left
  end
with parse_exp1 (fuel : nat) : M Exp :=
  match fuel with
  | 0 => out_of_fuel
  | S fuel' =>
      left <- parse_exp2 fuel' ;;
      cond (check_any ["And"; "Or"])
        (op_token <- advance ;;
         right <- parse_exp1 fuel' ;;
         let op := if PTok.type op_token =? "And" then BinaryOp.And else BinaryOp.Or in
         ret (BinOp op left right))
        (ret left)
  end
with parse_exp2 (fuel : nat) : M Exp :=
  match fuel with
  | 0 => out_of_fuel
  | S fuel' => left <- parse_exp3 fuel' ;; exp2_loop fuel' (parse_exp3 fuel') left
  end
with parse_exp3 (fuel : nat) : M Exp :=
  match fuel with
  | 0 => out_of_fuel
  | S fuel' => left <- parse_exp4 fuel' ;; exp3_loop fuel' (parse_exp4 fuel') left
  end
with parse_exp4 (fuel : nat) : M Exp :=
  match fuel with
  | 0 => out_of_fuel
  | S fuel' => left <- parse_exp5 fuel' ;; exp4_loop fuel' (parse_exp5 fuel') left
  end
with parse_exp5 (fuel : nat) : M Exp :=
  match fuel with
  | 0 => out_of_fuel
  | S fuel' =>
      cond (check_any ["Dash"; "Not"])
        (op_token <- advance ;;
         exp <- parse_exp5 fuel' ;;
         let op := if PTok.type op_token =? "Dash" then UnaryOp.Neg else UnaryOp.Not in
         ret (UnOp op exp))
        (parse_exp6 fuel')
  end
with parse_exp6 (fuel : nat) : M Exp :=
  match fuel with
  | 0 => out_of_fuel
  | S fuel' => exp <- parse_exp7 fuel' ;; postfix_loop fuel' (parse_exp fuel') exp
  end
with parse_exp7 (fuel : nat) : M Exp :=
  match fuel with
  | 0 => out_of_fuel
  | S fuel' =>
      cond (check "Id")
        (id_token <- advance ;; ret (Val (Id (PTok.value id_token))))
     (cond (check "Num")
        (num_token <- advance ;;
         match stoll (PTok.value num_token) with
         | stoll_value v => ret (Num v)
         | stoll_out_of_range =>
             error ("invalid i64 number " ++ PTok.value num_token
                    ++ " at token " ++ to_string (PTok.index num_token))
         | stoll_invalid_argument => throw invalid_argument
         end)
     (cond (check "Nil") (advance ;; ret NilExp)
     (cond (check "New")
        (advance ;; type <- parse_type fuel' ;; ret (NewSingle type))
     (cond (check "OpenBracket")
        (advance ;;
         type <- parse_type fuel' ;;
         expect "Semicolon" ;;
         size_exp <- parse_exp fuel' ;;
         expect "CloseBracket" ;;
         ret (NewArray type size_exp))
     (cond (check "OpenParen")
        (advance ;;
         exp <- parse_exp fuel' ;;
         expect "CloseParen" ;;
         ret exp)
        (message <- unexpected_token ;; error message))))))
  end.

(** *** Statements *)

(** [while (!check("CloseBrace") && !is_at_end()) stmts.push_back(parse_stmt());] *)
Fixpoint stmt_loop (fuel : nat) (parse_stmt : M Stmt) (stmts : list Stmt) : M (list Stmt) :=
  match fuel with
  | 0 => out_of_fuel
  | S fuel' =>
      cond (fun pos => negb (check "CloseBrace" pos) && negb (is_at_end pos))
        (s <- parse_stmt ;; stmt_loop fuel' parse_stmt (stmts ++ [s])%list)
        (ret stmts)
  end.

Definition parse_return_stmt (fuel : nat) : M Stmt :=
  expect "Return" ;;
  exp <- parse_exp fuel ;;
  expect "Semicolon" ;;
  ret (Return exp).

(** The last form of [parse_stmt], [exp (= exp)? ;]: what the method does
    once its five keyword tests have failed. *)
Definition expression_statement (fuel : nat) : M Stmt :=
  start_token <- peek ;;
  let start_token_index := PTok.index start_token in
  left_exp <- parse_exp fuel ;;
  cond (check "Gets")
    (advance ;;
     right_exp <- parse_exp fuel ;;
     expect "Semicolon" ;;
     match left_exp with
     | Val place => ret (Assign place right_exp)
     | _ =>
         error ("left-hand side of assignment must be a place, starting at token "
                ++ to_string start_token_index)
     end)
    (expect "Semicolon" ;;
     match left_exp with
     | CallExp fc => ret (CallStmt fc)
     | _ =>
         error ("standalone expressions must be function calls, starting at token "
                ++ to_string start_token_index)
     end).

Fixpoint parse_stmt (fuel : nat) : M Stmt :=
  match fuel with
  | 0 => out_of_fuel
  | S fuel' =>
      cond (check "If") (parse_if_stmt fuel')
     (cond (check "While") (parse_while_stmt fuel')
     (cond (check "Return") (parse_return_stmt fuel')
     (cond (check "Break") (advance ;; expect "Semicolon" ;; ret Break)
     (cond (check "Continue") (advance ;; expect "Semicolon" ;; ret Continue)
        (expression_statement fuel')))))
  end
with parse_if_stmt (fuel : nat) : M Stmt :=
  match fuel with
  | 0 => out_of_fuel
  | S fuel' =>
      expect "If" ;;
      guard <- parse_exp fuel' ;;
      tt <- parse_block fuel' ;;
      ff <- cond (check "Else") (advance ;; parse_block fuel') (ret []) ;;
      ret (If guard tt ff)
  end
with parse_block (fuel : nat) : M (list Stmt) :=
  match fuel with
  | 0 => out_of_fuel
  | S fuel' =>
      expect "OpenBrace" ;;
      stmts <- stmt_loop fuel' (parse_stmt fuel') [] ;;
      expect "CloseBrace" ;;
      ret stmts
  end
with parse_while_stmt (fuel : nat) : M Stmt :=
  match fuel with
  | 0 => out_of_fuel
  | S fuel' =>
      expect "While" ;;
      guard <- parse_exp fuel' ;;
      body <- parse_block fuel' ;;
      ret (While guard body)
  end.

(** *** Top level *)

(** The [while (check("Let"))] of [parse_function_def]. *)
Fixpoint let_loop (fuel : nat) (parse_decl : M Decl) (locals : list Decl) : M (list Decl) :=
  match fuel with
  | 0 => out_of_fuel
  | S fuel' =>
      cond (check "Let")
        (expect "Let" ;;
         locals <- cond (check "Semicolon") (ret locals) (comma_list fuel' parse_decl locals) ;;
         expect "Semicolon" ;;
         let_loop fuel' parse_decl locals)
        (ret locals)
  end.

Definition parse_function_def (fuel : nat) : M FunctionDef :=
  expect "Fn" ;;
  name <- expect "Id" ;;
  expect "OpenParen" ;;
  params <- list_until "CloseParen" fuel (parse_decl fuel) ;;
  expect "CloseParen" ;;
  expect "Arrow" ;;
  rettype <- parse_type fuel ;;
  expect "OpenBrace" ;;
  locals <- let_loop fuel (parse_decl fuel) [] ;;
  stmts <- stmt_loop fuel (parse_stmt fuel) [] ;;
  expect "CloseBrace" ;;
  ret (mkFunctionDef (PTok.value name) params rettype locals stmts).

Definition parse_struct_def (fuel : nat) : M StructDef :=
  expect "Struct" ;;
  name <- expect "Id" ;;
  expect "OpenBrace" ;;
  fields <- list_until "CloseBrace" fuel (parse_decl fuel) ;;
  expect "CloseBrace" ;;
  ret (mkStructDef (PTok.value name) fields).

Definition parse_extern_def (fuel : nat) : M Decl :=
  expect "Extern" ;;
  id_token <- expect "Id" ;;
  expect "Colon" ;;
  funtype <- parse_funtype fuel ;;
  expect "Semicolon" ;;
  ret (mkDecl (PTok.value id_token) funtype).

(** The [while (!is_at_end())] of [parse_program]. *)
Fixpoint program_loop (n fuel : nat) (program : Program) : M Program :=
  match n with
  | 0 => out_of_fuel
  | S n' =>
      cond is_at_end (ret program)
     (cond (check "Struct")
        (s <- parse_struct_def fuel ;;
         program_loop n' fuel
           (mkProgram (structs program ++ [s])%list (externs program) (functions program)))
     (cond (check "Extern")
        (e <- parse_extern_def fuel ;;
         program_loop n' fuel
           (mkProgram (structs program) (externs program ++ [e])%list (functions program)))
     (cond (check "Fn")
        (f <- parse_function_def fuel ;;
         program_loop n' fuel
           (mkProgram (structs program) (externs program) (functions program ++ [f])%list))
        (message <- unexpected_token ;; error message))))
  end.

Definition parse_program (fuel : nat) : M Program :=
  cond is_at_end (error "unexpected end of token stream")
    (program_loop fuel fuel (mkProgram [] [] [])).

(** [Parser(tokens).parse()]: the cursor starts at 0. *)
Definition parse (fuel : nat) : outcome Program := parse_program fuel 0.

End WithTokens.
End Parser.


(* ===================================================================== *)
(** * Vocabulary of the statements *)
(* ===================================================================== *)

(** What the skipper hands back: the cursor has not moved backwards and is
    inside the range; a token, if any, is an [Error] token that starts at a
    [/] at or after the cursor and ends at [last], and then the cursor is
    [last] too. *)
Definition skip_post (buf : list ascii) (it last : nat) (r : nat * option Token) : Prop :=
  it <= fst r <= last /\
  match snd r with
  | None => True
  | Some t =>
      fst r = last /\ Tok.token_type t = TokenType.Error /\
      it <= Tok.first t /\ Tok.first t + 2 <= last /\ Tok.last t = last /\
      byte_at buf (Tok.first t) = "/"
  end.

(** A token that is not the [Error] token of an unterminated comment. *)
Definition not_comment_error (buf : list ascii) (t : Token) : Prop :=
  Tok.token_type t = TokenType.Error -> byte_at buf (Tok.first t) <> "/".

(** The five digraphs, in the order [munch_token] tries them. *)
Definition two_char_kind (c0 c1 : ascii) : option TokenType.t :=
  if is_char c0 "!" && is_char c1 "=" then Some TokenType.NotEq
  else if is_char c0 "<" && is_char c1 "=" then Some TokenType.Lte
  else if is_char c0 ">" && is_char c1 "=" then Some TokenType.Gte
  else if is_char c0 "-" && is_char c1 ">" then Some TokenType.Arrow
  else if is_char c0 "=" && is_char c1 "=" then Some TokenType.Equal
  else None.

(** A lexeme made of one or more decimal digits, as the lexer produces for
    [Num]. *)
Definition digits_only (s : string) : bool :=
  match s with
  | EmptyString => false
  | _ => forallb CType.isdigit (list_ascii_of_string s)
  end.

(** The number a string of decimal digits denotes, most significant digit
    first. *)
Fixpoint decimal (s : string) : Z :=
  match s with
  | EmptyString => 0
  | String c s' => (Parser.digit_value c * 10 ^ Z.of_nat (String.length s') + decimal s')%Z
  end.

(** The statements that start with a keyword are no [Assign] and no
    [CallStmt]. *)
Definition keyword_stmt (s : Ast.Stmt) : Prop :=
  match s with
  | Ast.Assign _ _ | Ast.CallStmt _ => False
  | _ => True
  end.

(** [m'] does what [m] does, unless [m] runs out of fuel. *)
Definition fuel_le {A} (m m' : Parser.M A) : Prop :=
  forall pos, m pos = Parser.OutOfFuel \/ m pos = m' pos.

(** Parsing a stream [ts] of [len] tokens where it stands, and inside a
    longer stream after a prefix of [off] tokens.  [sim_at len off m m']:
    [m'], run on the longer stream, returns what [m] returns on [ts], with
    the cursor shifted by the prefix. *)
Definition sim_at {A} (len off : nat) (m m' : Parser.M A) : Prop :=
  forall pos v pos', pos <= len -> m pos = Parser.Ok v pos' ->
    pos' <= len /\ m' (off + pos) = Parser.Ok v (off + pos').

(** The same for a method that is only run before the end of [ts]. *)
Definition sim_lt_at {A} (len off : nat) (m m' : Parser.M A) : Prop :=
  forall pos v pos', pos < len -> m pos = Parser.Ok v pos' ->
    pos' <= len /\ m' (off + pos) = Parser.Ok v (off + pos').

(** [m] does not return at the end of a stream of [len] tokens. *)
Definition fails_at {A} (len : nat) (m : Parser.M A) : Prop :=
  forall v pos', m len <> Parser.Ok v pos'.

(** The token stream of [a ? b ? c : d : e]. *)
Definition tokens_a_b_c_d_e : list PTok.Token :=
  ParseMain.tokenize_input
    "Id(a) QuestionMark Id(b) QuestionMark Id(c) Colon Id(d) Colon Id(e)".

(** The token stream of [a ? b : c ? d : e]. *)
Definition tokens_a_b_c_d_e_false_arm : list PTok.Token :=
  ParseMain.tokenize_input
    "Id(a) QuestionMark Id(b) Colon Id(c) QuestionMark Id(d) Colon Id(e)".

(** *** Runs of the ternary operator *)

(** A run of arms of the ternary operator in the token stream, from [pos]
    to [final]: each pair is the expression that [exp] parses after a [?]
    and the expression that [exp1] parses after the [:] that follows it, and
    no [?] follows the last false arm. *)
Fixpoint select_run (ts : list PTok.Token) (exp exp1 : Parser.M Ast.Exp) (pos : nat)
  (arms : list (Ast.Exp * Ast.Exp)) (final : nat) : Prop :=
  match arms with
  | [] => Parser.check ts "QuestionMark" pos = false /\ pos = final
  | (true_exp, false_exp) :: rest =>
      Parser.check ts "QuestionMark" pos = true /\
      exists pos1 pos2,
        exp (S pos) = Parser.Ok true_exp pos1 /\
        Parser.check ts "Colon" pos1 = true /\
        exp1 (S pos1) = Parser.Ok false_exp pos2 /\
        select_run ts exp exp1 pos2 rest final
  end.

(** The [Select] of a guard and a pair of arms. *)
Definition select (guard : Ast.Exp) (arm : Ast.Exp * Ast.Exp) : Ast.Exp :=
  Ast.Select guard (fst arm) (snd arm).

(** *** Words, comments and the layout of the tokens *)

(** A byte of a word: a letter, a digit or an underscore. *)
Definition is_word_byte (c : ascii) : bool := CType.isalnum c || is_char c "_".

(** The reserved words, in the order [munch_token] tries them. *)
Definition keywords : list (string * TokenType.t) :=
  [("int", TokenType.Int); ("struct", TokenType.Struct); ("nil", TokenType.Nil);
   ("break", TokenType.Break); ("continue", TokenType.Continue);
   ("return", TokenType.Return); ("if", TokenType.If); ("else", TokenType.Else);
   ("while", TokenType.While); ("new", TokenType.New); ("let", TokenType.Let);
   ("extern", TokenType.Extern); ("fn", TokenType.Fn); ("and", TokenType.And);
   ("or", TokenType.Or); ("not", TokenType.Not)]%string.

(** The token type of a word: that of the reserved word it is, [Id]
    otherwise. *)
Definition word_kind (w : string) : TokenType.t :=
  match List.find (fun kw => String.eqb w (fst kw)) keywords with
  | Some kw => snd kw
  | None => TokenType.Id
  end.

(** A comment opener at [p]: [//] or [/*] with both bytes before [last]. *)
Definition opens_comment (buf : list ascii) (p last : nat) : Prop :=
  p + 1 < last /\ byte_at buf p = "/" /\
  (byte_at buf (p + 1) = "/" \/ byte_at buf (p + 1) = "*").

(** The tokens lie between [p] and [q] in the order of the list, each one
    is non-empty, and none overlaps the next. *)
Fixpoint in_order (p : nat) (tokens : list Token) (q : nat) : Prop :=
  match tokens with
  | [] => p <= q
  | t :: rest =>
      p <= Tok.first t /\ Tok.first t < Tok.last t /\ in_order (Tok.last t) rest q
  end.

(** What [lex] does with a token [t]: it is the token [munch_token] finds
    at a position before [last] where the skipper stopped, which is no white
    space and opens no comment; or it is the [Error] token of a comment
    that is not closed, which runs to the end of the range. *)
Definition lexed_at (buf : list ascii) (last : nat) (t : Token) : Prop :=
  (Tok.first t < last /\ t = Lexer.munch_token buf (Tok.first t) last /\
   CType.isspace (byte_at buf (Tok.first t)) = false /\
   ~ opens_comment buf (Tok.first t) last)
  \/
  (Tok.token_type t = TokenType.Error /\ byte_at buf (Tok.first t) = "/" /\
   Tok.last t = last).

(** *** The token line *)

(** The parts, with the delimiter between them. *)
Fixpoint join (delimiter : ascii) (parts : list string) : string :=
  match parts with
  | [] => EmptyString
  | [part] => part
  | part :: rest => (part ++ String delimiter (join delimiter rest))%string
  end.

(** The delimiter, when the string ends with it. *)
Fixpoint trailing (s : string) (delimiter : ascii) : string :=
  match s with
  | EmptyString => EmptyString
  | String c EmptyString =>
      if is_char c delimiter then String delimiter EmptyString else EmptyString
  | String _ s' => trailing s' delimiter
  end.

(** The token the reader makes of a lexer token that is printed as field
    [i] of the line. *)
Definition read_token (buf : list ascii) (i : nat) (t : Token) : PTok.Token :=
  PTok.mk (LexMain.kind_name (Tok.token_type t))
    (match Tok.token_type t with
     | TokenType.Id | TokenType.Num =>
         string_of_list_ascii (lexeme buf (Tok.first t) (Tok.last t))
     | _ => EmptyString
     end) i.

Fixpoint read_tokens (buf : list ascii) (i : nat) (tokens : list Token)
  : list PTok.Token :=
  match tokens with
  | [] => []
  | t :: rest => read_token buf i t :: read_tokens buf (S i) rest
  end.

(** *** The cursor, the fuel and the exceptions of the parser *)

(** [m], when it returns, has consumed at least one token and has not
    gone past the end of a stream of [len] tokens. *)
Definition advances {A} (len : nat) (m : Parser.M A) : Prop :=
  forall pos v pos', m pos = Parser.Ok v pos' -> pos < pos' <= len.

(** [m], when it returns, has not moved the cursor backwards, and has not
    moved it past the end of a stream of [len] tokens. *)
Definition stays {A} (len : nat) (m : Parser.M A) : Prop :=
  forall pos v pos', m pos = Parser.Ok v pos' ->
    pos <= pos' /\ (pos <= len -> pos' <= len).

(** [m], started inside a stream of [len] tokens, only returns at its
    end. *)
Definition ends_at {A} (len : nat) (m : Parser.M A) : Prop :=
  forall pos v pos', pos <= len -> m pos = Parser.Ok v pos' -> pos' = len.

(** Started at a cursor from [lo] up to the end of a stream of [len]
    tokens, [m] does not run out of fuel. *)
Definition runs {A} (len lo : nat) (m : Parser.M A) : Prop :=
  forall pos, lo <= pos <= len -> m pos <> Parser.OutOfFuel.

(** The messages of the parser's errors, after the prefix
    ["parse error: "]. *)
Inductive parse_error_message : string -> Prop :=
| unexpected_end :
    parse_error_message "unexpected end of token stream"
| unexpected_token_at (i : nat) :
    parse_error_message ("unexpected token at token " ++ Parser.to_string i)
| invalid_i64_number (lexeme : string) (i : nat) :
    parse_error_message
      ("invalid i64 number " ++ lexeme ++ " at token " ++ Parser.to_string i)
| left_hand_side_not_a_place (i : nat) :
    parse_error_message
      ("left-hand side of assignment must be a place, starting at token "
       ++ Parser.to_string i)
| standalone_not_a_call (i : nat) :
    parse_error_message
      ("standalone expressions must be function calls, starting at token "
       ++ Parser.to_string i).

(** A [std::runtime_error] of the parser, which [main] catches and
    prints. *)
Definition parse_error (e : Parser.exn) : Prop :=
  exists message,
    e = Parser.runtime_error ("parse error: " ++ message)
    /\ parse_error_message message.

(** The stream holds a [Num] token whose value [std::stoll] rejects for
    having no digits. *)
Definition has_bad_num (ts : list PTok.Token) : Prop :=
  exists t, In t ts /\ PTok.type t = "Num"%string
            /\ Parser.stoll (PTok.value t) = Parser.stoll_invalid_argument.

(** What [m] throws is a parse error, or [std::invalid_argument] for such
    a [Num] token. *)
Definition throws_parse_errors {A} (ts : list PTok.Token) (m : Parser.M A) : Prop :=
  forall pos e, m pos = Parser.Throw e ->
    parse_error e \/ (e = Parser.invalid_argument /\ has_bad_num ts).

(** *** The grammar of types *)

(** The grammar of types over a token stream.  [spells ts pos T pos']: the
    tokens from [pos] up to [pos'] are a spelling of the type [T];
    [spells_list] is the same for types separated by commas. *)
Inductive spells (ts : list PTok.Token) : nat -> Ast.Type_ -> nat -> Prop :=
| spells_int pos :
    Parser.check ts "Int" pos = true ->
    spells ts pos Ast.IntType (S pos)
| spells_struct pos t :
    Parser.check ts "Id" pos = true -> nth_error ts pos = Some t ->
    spells ts pos (Ast.StructType (PTok.value t)) (S pos)
| spells_ptr pos T pos' :
    Parser.check ts "Ampersand" pos = true ->
    spells ts (S pos) T pos' ->
    spells ts pos (Ast.PtrType T) pos'
| spells_array pos T pos' :
    Parser.check ts "OpenBracket" pos = true ->
    spells ts (S pos) T pos' ->
    Parser.check ts "CloseBracket" pos' = true ->
    spells ts pos (Ast.ArrayType T) (S pos')
| spells_fn pos Ts pos1 R pos2 :
    Parser.check ts "OpenParen" pos = true ->
    spells_list ts (S pos) Ts pos1 ->
    Parser.check ts "CloseParen" pos1 = true ->
    Parser.check ts "Arrow" (S pos1) = true ->
    spells ts (S (S pos1)) R pos2 ->
    spells ts pos (Ast.FnType Ts R) pos2
with spells_list (ts : list PTok.Token) : nat -> list Ast.Type_ -> nat -> Prop :=
| spells_none pos :
    spells_list ts pos [] pos
| spells_last pos T pos' :
    spells ts pos T pos' ->
    Parser.check ts "Comma" pos' = false ->
    spells_list ts pos [T] pos'
| spells_more pos T pos1 T' Ts pos2 :
    spells ts pos T pos1 ->
    Parser.check ts "Comma" pos1 = true ->
    spells_list ts (S pos1) (T' :: Ts) pos2 ->
    spells_list ts pos (T :: T' :: Ts) pos2.

Scheme spells_min := Minimality for spells Sort Prop
  with spells_list_min := Minimality for spells_list Sort Prop.
Combined Scheme spells_mutual from spells_min, spells_list_min.

(** *** Runs of binary operators *)

(** A run of operators and operands in the token stream, from [pos] to
    [final]: each pair is an operator token of one of the [types] and the
    expression that [operand] parses after it, and no such operator follows
    the last operand. *)
Fixpoint operator_run (ts : list PTok.Token) (types : list string)
  (operand : Parser.M Ast.Exp) (pos : nat)
  (pairs : list (PTok.Token * Ast.Exp)) (final : nat) : Prop :=
  match pairs with
  | [] => Parser.check_any ts types pos = false /\ pos = final
  | (op_token, rhs) :: rest =>
      Parser.check_any ts types pos = true /\ nth_error ts pos = Some op_token /\
      exists pos', operand (S pos) = Parser.Ok rhs pos'
                   /\ operator_run ts types operand pos' rest final
  end.

(** The binary operation of an operator token, at the level of [+] and
    [-] and at the level of the comparisons. *)
Definition additive (left : Ast.Exp) (pair : PTok.Token * Ast.Exp) : Ast.Exp :=
  Ast.BinOp (if String.eqb (PTok.type (fst pair)) "Plus" then BinaryOp.Add else BinaryOp.Sub)
    left (snd pair).

Definition comparison_op (type : string) : BinaryOp.t :=
  if String.eqb type "Equal" then BinaryOp.Eq
  else if String.eqb type "NotEq" then BinaryOp.NotEq
  else if String.eqb type "Lt" then BinaryOp.Lt
  else if String.eqb type "Lte" then BinaryOp.Lte
  else if String.eqb type "Gt" then BinaryOp.Gt
  else BinaryOp.Gte.

Definition comparison (left : Ast.Exp) (pair : PTok.Token * Ast.Exp) : Ast.Exp :=
  Ast.BinOp (comparison_op (PTok.type (fst pair))) left (snd pair).

(** The operations of a run of [and] and [or], nested to the right. *)
Fixpoint logical (left : Ast.Exp) (pairs : list (PTok.Token * Ast.Exp)) : Ast.Exp :=
  match pairs with
  | [] => left
  | (op_token, rhs) :: rest =>
      Ast.BinOp (if String.eqb (PTok.type op_token) "And" then BinaryOp.And else BinaryOp.Or)
        left (logical rhs rest)
  end.

(* ===================================================================== *)
(** * Properties of the revised lexer *)
(* ===================================================================== *)

Section LexerProgress.
Import CType.
Variable buf : list ascii.

(** ** The scanning loops stay inside the range they are given *)

Lemma whitespace_scan_bounds n it :
  it <= Lexer.whitespace_scan buf n it <= it + n.
Proof.
  revert it; induction n as [|n IH]; intros it; simpl; [lia|].
  destruct (isspace (byte_at buf it)); [specialize (IH (S it))|]; lia.
Qed.

Lemma line_scan_bounds n it :
  it <= Lexer.line_scan buf n it <= it + n.
Proof.
  revert it; induction n as [|n IH]; intros it; simpl; [lia|].
  destruct (negb (is_char (byte_at buf it) NL)); [specialize (IH (S it))|]; lia.
Qed.

(** When the line scan stops before the end of its range, it stops on a
    newline, and it has passed none. *)
Lemma line_scan_stops n it :
  let r := Lexer.line_scan buf n it in
  (r < it + n -> byte_at buf r = NL) /\
  (forall j, it <= j < r -> byte_at buf j <> NL).
Proof.
  revert it; induction n as [|n IH]; intros it; simpl.
  - split; intros; lia.
  - destruct (is_char (byte_at buf it) NL) eqn:E; simpl.
    + apply Ascii.eqb_eq in E. split; [auto | intros; lia].
    + apply Ascii.eqb_neq in E. destruct (IH (S it)) as [H1 H2]. split.
      * intros H. apply H1. lia.
      * intros j Hj. destruct (Nat.eq_dec j it) as [->|]; [assumption|].
        apply H2. lia.
Qed.

Lemma block_scan_bounds n it r :
  Lexer.block_scan buf n it = Some r -> it + 2 <= r <= it + n.
Proof.
  revert it; induction n as [|n IH]; intros it; simpl; [discriminate|].
  destruct n as [|n]; [discriminate|].
  destruct (is_char (byte_at buf it) "*" && is_char (byte_at buf (it + 1)) "/").
  - intros [= <-]. lia.
  - intros H. apply IH in H. lia.
Qed.

Lemma identifier_scan_bounds n it :
  it <= Lexer.identifier_scan buf n it <= it + n.
Proof.
  revert it; induction n as [|n IH]; intros it; simpl; [lia|].
  destruct (negb _); [|specialize (IH (S it))]; lia.
Qed.

Lemma numeric_scan_bounds n it :
  it <= Lexer.numeric_scan buf n it <= it + n.
Proof.
  revert it; induction n as [|n IH]; intros it; simpl; [lia|].
  destruct (negb _); [|specialize (IH (S it))]; lia.
Qed.

Lemma error_scan_bounds n it last :
  it <= Lexer.error_scan buf n it last <= it + n.
Proof.
  revert it; induction n as [|n IH]; intros it; simpl; [lia|].
  destruct (Lexer.starts_token buf it last); [|specialize (IH (S it))]; lia.
Qed.

Lemma identifier_end_progress first last :
  first < last -> isalpha (byte_at buf first) = true ->
  first < Lexer.identifier_end buf first last <= last.
Proof.
  intros Hlt Ha. unfold Lexer.identifier_end.
  rewrite Ha. replace (first =? last) with false by (symmetry; apply Nat.eqb_neq; lia).
  simpl. destruct (last - first) as [|n] eqn:En; [lia|]. simpl.
  unfold isalnum. rewrite Ha. simpl.
  pose proof (identifier_scan_bounds n (S first)). lia.
Qed.

Lemma numeric_end_progress first last :
  first < last -> isdigit (byte_at buf first) = true ->
  first < Lexer.numeric_end buf first last <= last.
Proof.
  intros Hlt Ha. unfold Lexer.numeric_end.
  rewrite Ha. replace (first =? last) with false by (symmetry; apply Nat.eqb_neq; lia).
  simpl. destruct (last - first) as [|n] eqn:En; [lia|]. simpl.
  rewrite Ha. simpl.
  pose proof (numeric_scan_bounds n (S first)). lia.
Qed.

Lemma error_end_progress first last :
  first < last -> first < Lexer.error_end buf first last <= last.
Proof.
  intros Hlt. unfold Lexer.error_end.
  replace (first <? last) with true by (symmetry; apply Nat.ltb_lt; lia).
  pose proof (error_scan_bounds (last - S first) (S first) last). lia.
Qed.

(** Every branch of [munch_token] starts its token at [first]. *)
Lemma munch_token_first first last :
  Tok.first (Lexer.munch_token buf first last) = first.
Proof.
  unfold Lexer.munch_token.
  repeat match goal with
         | |- context [if ?c then _ else _] => destruct c
         | |- context [match ?c with Some _ => _ | None => _ end] => destruct c
         end; reflexivity.
Qed.

(** On a non-empty range every branch of [munch_token] consumes at least
    one byte and stays inside the range. *)
Lemma munch_token_progress first last :
  first < last ->
  first < Tok.last (Lexer.munch_token buf first last) <= last.
Proof.
  intros Hlt. unfold Lexer.munch_token.
  replace (first =? last) with false by (symmetry; apply Nat.eqb_neq; lia).
  destruct (isalpha (byte_at buf first)) eqn:Ha.
  - pose proof (identifier_end_progress first last Hlt Ha).
    repeat match goal with
           | |- context [if ?c then _ else _] => destruct c
           end; simpl; lia.
  - destruct (isdigit (byte_at buf first)) eqn:Hd.
    + pose proof (numeric_end_progress first last Hlt Hd). simpl; lia.
    + pose proof (error_end_progress first last Hlt).
      destruct (2 <=? last - first) eqn:H2; simpl.
      * apply Nat.leb_le in H2.
        repeat match goal with
               | |- context [if ?c then _ else _] => destruct c
               | |- context [match ?c with Some _ => _ | None => _ end] => destruct c
               end; simpl; lia.
      * destruct (Lexer.single_char (byte_at buf first)); simpl; lia.
Qed.

End LexerProgress.

Section LexerTermination.
Import CType.
Variable buf : list ascii.

Lemma skip_loop_total fuel : forall it last,
  it <= last -> last - it < fuel ->
  exists r, Lexer.skip_loop fuel buf it last = Some r /\ skip_post buf it last r.
Proof.
  induction fuel as [|fuel IH]; intros it last Hle Hfuel; [lia|].
  simpl.
  pose proof (whitespace_scan_bounds buf (last - it) it) as Hws.
  set (w := Lexer.whitespace_scan buf (last - it) it) in *. clearbody w.
  destruct (w + 1 <? last) eqn:Hw; simpl.
  2:{ eexists; split; [reflexivity|]. split; simpl; [lia|exact I]. }
  apply Nat.ltb_lt in Hw.
  destruct (is_char (byte_at buf w) "/") eqn:Hs; simpl.
  2:{ eexists; split; [reflexivity|]. split; simpl; [lia|exact I]. }
  apply Ascii.eqb_eq in Hs.
  destruct (is_char (byte_at buf (w + 1)) "/") eqn:Hs2; simpl.
  - (* line comment *)
    pose proof (line_scan_bounds buf (last - (w + 2)) (w + 2)) as Hl.
    set (l := Lexer.line_scan buf (last - (w + 2)) (w + 2)) in *. clearbody l.
    destruct (l =? last) eqn:El.
    + eexists; split; [reflexivity|]. split; simpl; [lia|].
      repeat split; try lia; assumption.
    + simpl.
      set (l' := if is_char (byte_at buf l) NL then S l else l).
      apply Nat.eqb_neq in El.
      assert (Hl' : l <= l' <= last) by (unfold l'; destruct (is_char (byte_at buf l) NL); lia).
      clearbody l'.
      destruct (IH l' last) as [r [Hr [Hb Ho]]]; [lia | lia |].
      exists r. split; [exact Hr|]. split; [lia|].
      destruct (snd r); [|exact I].
      destruct Ho as (? & ? & ? & ? & ? & ?). repeat split; try assumption; lia.
  - destruct (is_char (byte_at buf (w + 1)) "*") eqn:Hs3; simpl.
    + (* block comment *)
      destruct (Lexer.block_scan buf (last - (w + 2)) (w + 2)) as [b|] eqn:Eb.
      * apply block_scan_bounds in Eb.
        destruct (IH b last) as [r [Hr [Hb Ho]]]; [lia | lia |].
        exists r. split; [exact Hr|]. split; [lia|].
        destruct (snd r); [|exact I].
        destruct Ho as (? & ? & ? & ? & ? & ?). repeat split; try assumption; lia.
      * eexists; split; [reflexivity|]. split; simpl; [lia|].
        repeat split; try lia; assumption.
    + eexists; split; [reflexivity|]. split; simpl; [lia|exact I].
Qed.

Lemma skip_whitespace_and_comments_total first last :
  first <= last ->
  exists r, Lexer.skip_whitespace_and_comments buf first last = Some r
            /\ skip_post buf first last r.
Proof.
  intros H. apply skip_loop_total; [assumption | lia].
Qed.

(** The loop of [lex] returns as soon as its fuel exceeds the number of
    bytes to the end of the range. *)
Lemma lex_loop_total fuel : forall curr last tokens,
  curr <= last -> last - curr < fuel ->
  exists result, Lexer.lex_loop fuel buf curr last tokens = Some result.
Proof.
  induction fuel as [|fuel IH]; intros curr last tokens Hle Hfuel; [lia|].
  simpl. destruct (curr =? last) eqn:E; [eauto|].
  apply Nat.eqb_neq in E.
  destruct (skip_whitespace_and_comments_total curr last Hle) as [[next o] [-> [Hb _]]].
  simpl in Hb. destruct o as [t|]; [eauto|].
  destruct (next =? last) eqn:E2; [eauto|].
  apply Nat.eqb_neq in E2.
  pose proof (munch_token_progress buf next last ltac:(lia)).
  apply IH; lia.
Qed.

(** More fuel does not change a result. *)
Lemma skip_loop_fuel fuel : forall it last r k,
  Lexer.skip_loop fuel buf it last = Some r ->
  Lexer.skip_loop (fuel + k) buf it last = Some r.
Proof.
  induction fuel as [|fuel IH]; intros it last r k; [discriminate|].
  simpl.
  repeat match goal with
         | |- context [if ?c then _ else _] => destruct c
         | |- context [match ?c with Some _ => _ | None => _ end] => destruct c
         end; auto.
Qed.

Lemma lex_loop_fuel fuel : forall curr last tokens result k,
  Lexer.lex_loop fuel buf curr last tokens = Some result ->
  Lexer.lex_loop (fuel + k) buf curr last tokens = Some result.
Proof.
  induction fuel as [|fuel IH]; intros curr last tokens result k; [discriminate|].
  simpl. destruct (curr =? last); [auto|].
  destruct (Lexer.skip_whitespace_and_comments buf curr last) as [[next [t|]]|]; auto.
  destruct (next =? last); auto.
Qed.

End LexerTermination.

(** C9. [lex] terminates on every finite range.  The skipper returns, never
    moves the cursor backwards, and a token it returns ends the loop with the
    cursor at [last]; [munch_token] on a non-empty range returns a token
    that starts at the cursor and whose end is strictly after its start and
    inside the range, so each iteration of the loop of [lex] strictly
    advances the cursor; and [lex] returns a token sequence. *)
Theorem lex_terminates (buf : list ascii) (first last : nat) (Hrange : first <= last) :
  (exists next_char opt_error_token,
      Lexer.skip_whitespace_and_comments buf first last = Some (next_char, opt_error_token)
      /\ first <= next_char <= last
      /\ (opt_error_token <> None -> next_char = last))
  /\ (first < last ->
      Tok.first (Lexer.munch_token buf first last) = first
      /\ Tok.first (Lexer.munch_token buf first last)
           < Tok.last (Lexer.munch_token buf first last) <= last)
  /\ (exists tokens, Lexer.lex_range buf first last = Some tokens)
  /\ (exists tokens, Lexer.lex buf = Some tokens).
Proof.
  split; [|split; [|split]].
  - destruct (skip_whitespace_and_comments_total buf first last Hrange)
      as [[next o] [Hr [Hb Ho]]].
    exists next, o. simpl in *. split; [exact Hr|]. split; [exact Hb|].
    intros Hne. destruct o; [tauto | congruence].
  - intros Hlt. rewrite munch_token_first. split; [reflexivity|].
    apply munch_token_progress; assumption.
  - apply lex_loop_total; [assumption | lia].
  - apply lex_loop_total; lia.
Qed.

Lemma lex_terminates_witness :
  0 <= 11 /\
  ((exists next_char opt_error_token,
      Lexer.skip_whitespace_and_comments (src "x = @ 1; //") 0 11
        = Some (next_char, opt_error_token)
      /\ 0 <= next_char <= 11
      /\ (opt_error_token <> None -> next_char = 11))
   /\ (0 < 11 ->
       Tok.first (Lexer.munch_token (src "x = @ 1; //") 0 11) = 0
       /\ Tok.first (Lexer.munch_token (src "x = @ 1; //") 0 11)
            < Tok.last (Lexer.munch_token (src "x = @ 1; //") 0 11) <= 11)
   /\ (exists tokens, Lexer.lex_range (src "x = @ 1; //") 0 11 = Some tokens)
   /\ (exists tokens, Lexer.lex (src "x = @ 1; //") = Some tokens)).
Proof.
  split; [lia | apply (lex_terminates (src "x = @ 1; //") 0 11); lia].
Defined.

(** The token sequences of three buffers. *)
Example lex_example_if :
  Lexer.lex (src "if (x <= 42) { return x; }")
    = Some [Tok.mk TokenType.If 0 2; Tok.mk TokenType.OpenParen 3 4;
            Tok.mk TokenType.Id 4 5; Tok.mk TokenType.Lte 6 8;
            Tok.mk TokenType.Num 9 11; Tok.mk TokenType.CloseParen 11 12;
            Tok.mk TokenType.OpenBrace 13 14; Tok.mk TokenType.Return 15 21;
            Tok.mk TokenType.Id 22 23; Tok.mk TokenType.Semicolon 23 24;
            Tok.mk TokenType.CloseBrace 25 26].
Proof. vm_compute. reflexivity. Qed.

Example lex_example_unterminated :
  Lexer.lex (src "/* unterminated") = Some [Tok.mk TokenType.Error 0 15]
  /\ LexMain.main "/* unterminated" = Some ("Error(/* unterminated)" ++ String NL "")%string.
Proof. split; vm_compute; reflexivity. Qed.

Example lex_example_error_tokens :
  Lexer.lex (src "x = @ 1; //")
    = Some [Tok.mk TokenType.Id 0 1; Tok.mk TokenType.Gets 2 3;
            Tok.mk TokenType.Error 4 6; Tok.mk TokenType.Num 6 7;
            Tok.mk TokenType.Semicolon 7 8; Tok.mk TokenType.Error 9 11].
Proof. vm_compute. reflexivity. Qed.

(* ===================================================================== *)
(** ** Comments that run to the end of the buffer *)
(* ===================================================================== *)

Section LexerComments.
Import CType.
Variable buf : list ascii.


Lemma block_scan_some n it r :
  Lexer.block_scan buf n it = Some r ->
  byte_at buf (r - 2) = "*" /\ byte_at buf (r - 1) = "/" /\
  forall j, it <= j < r - 2 -> ~ (byte_at buf j = "*" /\ byte_at buf (j + 1) = "/").
Proof.
  revert it; induction n as [|n IH]; intros it; simpl; [discriminate|].
  destruct n as [|n]; [discriminate|].
  destruct (is_char (byte_at buf it) "*" && is_char (byte_at buf (it + 1)) "/") eqn:E.
  - intros [= <-]. apply andb_true_iff in E. destruct E as [E1 E2].
    apply Ascii.eqb_eq in E1, E2.
    replace (it + 2 - 2) with it by lia. replace (it + 2 - 1) with (it + 1) by lia.
    repeat split; try assumption. intros j Hj. lia.
  - intros H. pose proof (block_scan_bounds _ _ _ _ H) as Hb.
    destruct (IH _ H) as (H1 & H2 & H3). repeat split; try assumption.
    intros j Hj. destruct (Nat.eq_dec j it) as [->|Hne].
    + intros [A B]. unfold is_char in E.
      rewrite A, B in E. discriminate.
    + apply H3. lia.
Qed.

Lemma line_scan_to_end n it :
  (forall j, it <= j < it + n -> byte_at buf j <> NL) ->
  Lexer.line_scan buf n it = it + n.
Proof.
  revert it; induction n as [|n IH]; intros it H; simpl; [lia|].
  destruct (is_char (byte_at buf it) NL) eqn:E; simpl.
  - apply Ascii.eqb_eq in E. exfalso. apply (H it); [lia | assumption].
  - rewrite IH; [lia|]. intros j ?. apply H. lia.
Qed.

Lemma line_scan_to_newline n it k :
  it <= k < it + n -> byte_at buf k = NL ->
  (forall j, it <= j < k -> byte_at buf j <> NL) ->
  Lexer.line_scan buf n it = k.
Proof.
  revert it; induction n as [|n IH]; intros it Hk Hnl H; simpl; [lia|].
  destruct (is_char (byte_at buf it) NL) eqn:E; simpl.
  - apply Ascii.eqb_eq in E. destruct (Nat.eq_dec k it) as [->|]; [reflexivity|].
    exfalso. apply (H it); [lia | assumption].
  - apply Ascii.eqb_neq in E. apply IH.
    + destruct (Nat.eq_dec k it) as [->|]; [contradiction | lia].
    + assumption.
    + intros j ?. apply H. lia.
Qed.


(** One iteration of the skipper's loop at a line comment with no newline
    before [last]. *)
Lemma skip_loop_unterminated_line fuel it last :
  let w := Lexer.whitespace_scan buf (last - it) it in
  w + 1 < last -> byte_at buf w = "/" -> byte_at buf (w + 1) = "/" ->
  (forall j, w + 2 <= j < last -> byte_at buf j <> NL) ->
  Lexer.skip_loop (S fuel) buf it last
    = Some (last, Some (Tok.mk TokenType.Error w last)).
Proof.
  intros w Hw H0 H1 Hno. simpl. fold w.
  replace (w + 1 <? last) with true by (symmetry; apply Nat.ltb_lt; lia).
  unfold is_char. rewrite H0, H1. simpl.
  rewrite line_scan_to_end by (intros j ?; apply Hno; lia).
  replace (w + 2 + (last - (w + 2))) with last by lia.
  rewrite Nat.eqb_refl. reflexivity.
Qed.

(** One iteration of the skipper's loop at a line comment whose first
    newline is at [k]: the loop goes on after the newline. *)
Lemma skip_loop_terminated_line fuel it last k :
  let w := Lexer.whitespace_scan buf (last - it) it in
  w + 1 < last -> byte_at buf w = "/" -> byte_at buf (w + 1) = "/" ->
  w + 2 <= k < last -> byte_at buf k = NL ->
  (forall j, w + 2 <= j < k -> byte_at buf j <> NL) ->
  Lexer.skip_loop (S fuel) buf it last = Lexer.skip_loop fuel buf (S k) last.
Proof.
  intros w Hw H0 H1 Hk Hnl Hno. simpl. fold w.
  replace (w + 1 <? last) with true by (symmetry; apply Nat.ltb_lt; lia).
  unfold is_char. rewrite H0, H1. simpl.
  rewrite (line_scan_to_newline _ _ k) by (try assumption; lia).
  replace (k =? last) with false by (symmetry; apply Nat.eqb_neq; lia).
  rewrite Hnl. simpl. reflexivity.
Qed.

(** [lex] stops on the token the skipper returns. *)
Lemma lex_loop_skipper_error fuel curr last tokens next t :
  curr <> last ->
  Lexer.skip_whitespace_and_comments buf curr last = Some (next, Some t) ->
  Lexer.lex_loop (S fuel) buf curr last tokens = Some (tokens ++ [t]).
Proof.
  intros Hne Hs. simpl.
  replace (curr =? last) with false by (symmetry; apply Nat.eqb_neq; lia).
  rewrite Hs. reflexivity.
Qed.

End LexerComments.



Section LexerErrorTokens.
Import CType.
Variable buf : list ascii.

(** An [Error] token that [munch_token] produces on a non-empty range does
    not start with [/]: that byte is in the single-character table. *)
Lemma munch_token_error_not_slash first last :
  first < last ->
  Tok.token_type (Lexer.munch_token buf first last) = TokenType.Error ->
  byte_at buf first <> "/".
Proof.
  intros Hlt. unfold Lexer.munch_token.
  replace (first =? last) with false by (symmetry; apply Nat.eqb_neq; lia).
  repeat match goal with
         | |- context [if ?c then _ else _] => destruct c
         end; simpl; try discriminate.
  destruct (Lexer.single_char (byte_at buf first)) eqn:E; simpl.
  - intros ->. intros H. rewrite H in E. vm_compute in E. discriminate.
  - intros _ H. rewrite H in E. vm_compute in E. discriminate.
Qed.

(** In what the loop of [lex] returns, an [Error] token that starts with
    [/] (an unterminated comment) is the last token and ends at [last]. *)
Lemma lex_loop_comment_error_last fuel : forall curr last tokens result,
  curr <= last ->
  Forall (not_comment_error buf) tokens ->
  Lexer.lex_loop fuel buf curr last tokens = Some result ->
  forall i t, nth_error result i = Some t ->
    Tok.token_type t = TokenType.Error -> byte_at buf (Tok.first t) = "/" ->
    S i = List.length result /\ Tok.last t = last.
Proof.
  induction fuel as [|fuel IH]; intros curr last tokens result Hle Hall; [discriminate|].
  assert (Hclean : forall i t, nth_error tokens i = Some t ->
            Tok.token_type t = TokenType.Error -> byte_at buf (Tok.first t) = "/" -> False).
  { intros i t Hi Ht Hs. rewrite Forall_forall in Hall.
    apply (Hall t); [eapply nth_error_In; eassumption | assumption | assumption]. }
  simpl. destruct (curr =? last) eqn:E.
  { intros [= <-] i t Hi Ht Hs. exfalso. eauto. }
  apply Nat.eqb_neq in E.
  destruct (skip_whitespace_and_comments_total buf curr last Hle) as [[next o] [-> [Hb Ho]]].
  simpl in Hb, Ho. destruct o as [e|].
  - intros [= <-] i t Hi Ht Hs. rewrite length_app. simpl.
    destruct (Nat.lt_ge_cases i (List.length tokens)) as [Hlt|Hge].
    + rewrite nth_error_app1 in Hi by assumption. exfalso. eauto.
    + rewrite nth_error_app2 in Hi by assumption.
      destruct (i - List.length tokens) as [|k] eqn:Ek.
      * simpl in Hi. injection Hi as <-. split; [lia | tauto].
      * simpl in Hi. destruct k; discriminate.
  - destruct (next =? last) eqn:E2.
    { intros [= <-] i t Hi Ht Hs. exfalso. eauto. }
    apply Nat.eqb_neq in E2.
    pose proof (munch_token_progress buf next last ltac:(lia)) as Hp.
    apply IH; [lia|].
    apply Forall_app. split; [assumption|].
    constructor; [|constructor].
    intros Ht. rewrite munch_token_first.
    apply (munch_token_error_not_slash next last); [lia | assumption].
Qed.

(** X9.  In what [lex] returns for a whole buffer, an [Error] token that starts
    with [/] (a comment that is not closed) is the last token and ends at
    the end of the buffer. *)
Lemma lex_comment_error_last tokens i t :
  Lexer.lex buf = Some tokens ->
  nth_error tokens i = Some t ->
  Tok.token_type t = TokenType.Error -> byte_at buf (Tok.first t) = "/" ->
  S i = List.length tokens /\ Tok.last t = List.length buf.
Proof.
  intros H. eapply lex_loop_comment_error_last; [| constructor | exact H]. lia.
Qed.

End LexerErrorTokens.

Lemma lex_comment_error_last_witness :
  Lexer.lex (src "x /* c") = Some [Tok.mk TokenType.Id 0 1; Tok.mk TokenType.Error 2 6] /\
  nth_error [Tok.mk TokenType.Id 0 1; Tok.mk TokenType.Error 2 6] 1
    = Some (Tok.mk TokenType.Error 2 6) /\
  Tok.token_type (Tok.mk TokenType.Error 2 6) = TokenType.Error /\
  byte_at (src "x /* c") (Tok.first (Tok.mk TokenType.Error 2 6)) = "/" /\
  S 1 = List.length [Tok.mk TokenType.Id 0 1; Tok.mk TokenType.Error 2 6] /\
  Tok.last (Tok.mk TokenType.Error 2 6) = List.length (src "x /* c").
Proof.
  refine (conj _ (conj _ (conj _ (conj _ _)))).
  1-4: vm_compute; reflexivity.
  apply (lex_comment_error_last (src "x /* c")
           [Tok.mk TokenType.Id 0 1; Tok.mk TokenType.Error 2 6] 1
           (Tok.mk TokenType.Error 2 6)); vm_compute; reflexivity.
Defined.

(* ===================================================================== *)
(** * Properties of the parser *)
(* ===================================================================== *)

Section ParserFacts.
Import Ast Parser.
Local Open Scope string_scope.
Variable m_tokens : list PTok.Token.

Local Abbreviation check := (Parser.check m_tokens).
Local Abbreviation advance := (Parser.advance m_tokens).
Local Abbreviation expect := (Parser.expect m_tokens).
Local Abbreviation is_at_end := (Parser.is_at_end m_tokens).

(** ** The cursor helpers *)

Lemma is_at_end_false pos t :
  nth_error m_tokens pos = Some t -> is_at_end pos = false.
Proof.
  intros H. unfold Parser.is_at_end. apply Nat.leb_gt.
  apply nth_error_Some. congruence.
Qed.

Lemma is_at_end_true pos :
  is_at_end pos = true -> nth_error m_tokens pos = None.
Proof.
  unfold Parser.is_at_end. intros H. apply Nat.leb_le in H.
  apply nth_error_None. assumption.
Qed.

Lemma check_at pos t type :
  nth_error m_tokens pos = Some t ->
  check type pos = (PTok.type t =? type).
Proof.
  intros H. unfold Parser.check. rewrite (is_at_end_false pos t H), H. reflexivity.
Qed.

Lemma check_true pos type :
  check type pos = true ->
  exists t, nth_error m_tokens pos = Some t /\ PTok.type t = type.
Proof.
  unfold Parser.check. destruct (is_at_end pos); [discriminate|].
  destruct (nth_error m_tokens pos) as [t|]; [|discriminate].
  intros H. apply String.eqb_eq in H. eauto.
Qed.

Lemma check_other pos type type' :
  check type pos = true -> type <> type' -> check type' pos = false.
Proof.
  intros H Hne. destruct (check_true pos type H) as [t [Ht <-]].
  rewrite (check_at pos t _ Ht). apply String.eqb_neq. assumption.
Qed.

Lemma advance_at pos t :
  nth_error m_tokens pos = Some t -> advance pos = Ok t (S pos).
Proof.
  intros H. unfold Parser.advance. rewrite (is_at_end_false pos t H). simpl.
  unfold Parser.at_. rewrite H. reflexivity.
Qed.

Lemma peek_at pos t :
  nth_error m_tokens pos = Some t -> Parser.peek m_tokens pos = Ok t pos.
Proof.
  intros H. unfold Parser.peek, cond. rewrite (is_at_end_false pos t H).
  unfold Parser.at_. rewrite H. reflexivity.
Qed.

(** [expect] consumes a token of the expected type. *)
Lemma expect_at pos t type :
  nth_error m_tokens pos = Some t -> PTok.type t = type ->
  expect type pos = Ok t (S pos).
Proof.
  intros H Ht. unfold Parser.expect, Parser.unexpected_token, Parser.consume, bind, cond, ret.
  rewrite (peek_at pos t H), (is_at_end_false pos t H), (peek_at pos t H).
  rewrite Ht, String.eqb_refl. simpl. apply advance_at. assumption.
Qed.

(** [expect] on a token of another type throws, citing that token. *)
Lemma expect_other pos t type :
  nth_error m_tokens pos = Some t -> PTok.type t <> type ->
  expect type pos
    = Throw (runtime_error ("parse error: unexpected token at token "
                            ++ to_string (PTok.index t))).
Proof.
  intros H Ht. unfold Parser.expect, Parser.unexpected_token, Parser.consume, bind, cond, ret.
  rewrite (peek_at pos t H), (is_at_end_false pos t H), (peek_at pos t H).
  apply String.eqb_neq in Ht. rewrite Ht. reflexivity.
Qed.

(** [expect] at the end of the stream. *)
Lemma expect_at_end pos type :
  is_at_end pos = true ->
  expect type pos = Throw (runtime_error "parse error: unexpected end of token stream").
Proof.
  intros H. unfold Parser.expect, Parser.unexpected_token, Parser.peek, bind, cond.
  rewrite H. reflexivity.
Qed.

(** When [expect] returns, it has consumed one token of the expected type. *)
Lemma expect_ok pos type t pos' :
  expect type pos = Ok t pos' ->
  nth_error m_tokens pos = Some t /\ PTok.type t = type /\ pos' = S pos.
Proof.
  destruct (nth_error m_tokens pos) as [t0|] eqn:E.
  - destruct (String.eqb_spec (PTok.type t0) type) as [Heq|Hne].
    + rewrite (expect_at pos t0 type E Heq). intros [= <- <-]. auto.
    + rewrite (expect_other pos t0 type E Hne). discriminate.
  - rewrite expect_at_end; [discriminate|].
    unfold Parser.is_at_end. apply Nat.leb_le. apply nth_error_None. assumption.
Qed.

End ParserFacts.

Section ParserExpressions.
Import Ast Parser.
Local Open Scope string_scope.
Variable m_tokens : list PTok.Token.

Local Abbreviation check := (Parser.check m_tokens).
Local Abbreviation parse_exp := (Parser.parse_exp m_tokens).
Local Abbreviation parse_exp1 := (Parser.parse_exp1 m_tokens).
Local Abbreviation parse_exp7 := (Parser.parse_exp7 m_tokens).

(** The defining equations of the primary and of the ternary level. *)
Lemma parse_exp_unfold fuel :
  parse_exp (S fuel)
  = bind (parse_exp1 fuel)
      (fun left => select_loop m_tokens fuel (parse_exp fuel) (parse_exp1 fuel) left).
Proof. reflexivity. Qed.

Lemma select_loop_done fuel exp exp1 left pos :
  check "QuestionMark" pos = false ->
  select_loop m_tokens (S fuel) exp exp1 left pos = Ok left pos.
Proof. intros H. simpl. unfold cond. rewrite H. reflexivity. Qed.

Lemma select_loop_step fuel (exp exp1 : M Exp) left pos true_exp pos1 colon false_exp pos2 :
  check "QuestionMark" pos = true ->
  exp (S pos) = Ok true_exp pos1 ->
  nth_error m_tokens pos1 = Some colon -> PTok.type colon = "Colon" ->
  exp1 (S pos1) = Ok false_exp pos2 ->
  select_loop m_tokens (S fuel) exp exp1 left pos
  = select_loop m_tokens fuel exp exp1 (Select left true_exp false_exp) pos2.
Proof.
  intros Hq He Hc Hct He1. simpl. unfold cond. rewrite Hq.
  destruct (check_true m_tokens pos _ Hq) as [q [Hqt _]].
  unfold bind. rewrite (advance_at m_tokens pos q Hqt), He.
  rewrite (expect_at m_tokens pos1 colon _ Hc Hct), He1. reflexivity.
Qed.

(** The loop of [parse_exp] on a run of arms: each turn makes the [Select]
    built so far the guard of the next. *)
Lemma select_loop_run arms : forall fuel (exp exp1 : M Exp) left pos final,
  select_run m_tokens exp exp1 pos arms final ->
  List.length arms < fuel ->
  select_loop m_tokens fuel exp exp1 left pos = Ok (fold_left select arms left) final.
Proof.
  induction arms as [|[true_exp false_exp] rest IH];
    intros fuel exp exp1 left pos final H Hf;
    (destruct fuel as [|fuel]; [simpl in Hf; lia|]).
  - destruct H as [Hq <-]. apply select_loop_done. assumption.
  - destruct H as (Hq & pos1 & pos2 & Ht & Hc & Hf1 & Hrest).
    destruct (check_true m_tokens pos1 _ Hc) as [colon [Hn Hty]].
    rewrite (select_loop_step fuel exp exp1 left pos true_exp pos1 colon
               false_exp pos2) by assumption.
    cbn [fold_left]. apply IH; [assumption | simpl in Hf; lia].
Qed.

(** What the loop returns, it has read as a run of arms. *)
Lemma select_loop_arms fuel : forall (exp exp1 : M Exp) left pos e final,
  select_loop m_tokens fuel exp exp1 left pos = Ok e final ->
  exists arms,
    select_run m_tokens exp exp1 pos arms final /\ List.length arms < fuel
    /\ e = fold_left select arms left.
Proof.
  induction fuel as [|fuel IH]; intros exp exp1 left pos e final;
    cbn [select_loop]; [discriminate|].
  unfold cond. destruct (check "QuestionMark" pos) eqn:Hq.
  - destruct (check_true m_tokens pos _ Hq) as [q [Hqt _]].
    unfold bind at 1. rewrite (advance_at m_tokens pos q Hqt).
    unfold bind at 1. destruct (exp (S pos)) as [true_exp pos1| |] eqn:Ht; try discriminate.
    unfold bind at 1.
    destruct (expect m_tokens "Colon" pos1) as [colon pos1'| |] eqn:Hc; try discriminate.
    apply expect_ok in Hc. destruct Hc as (Hn & Hty & ->).
    unfold bind at 1.
    destruct (exp1 (S pos1)) as [false_exp pos2| |] eqn:Hf; try discriminate.
    intros H. apply IH in H. destruct H as (arms & Hrun & Hlen & ->).
    exists ((true_exp, false_exp) :: arms). split; [|split; [simpl; lia | reflexivity]].
    split; [assumption|]. exists pos1, pos2. repeat split; try assumption.
    rewrite (check_at m_tokens pos1 colon _ Hn). apply String.eqb_eq. assumption.
  - intros [= <- <-]. exists []. repeat split; [assumption | simpl; lia].
Qed.

(** Whenever [parse_exp] returns, it has read a guard with [parse_exp1]
    and a run of arms after it. *)
Lemma parse_exp_arms fuel pos e final :
  parse_exp (S fuel) pos = Ok e final ->
  exists guard pos0 arms,
    parse_exp1 fuel pos = Ok guard pos0
    /\ select_run m_tokens (parse_exp fuel) (parse_exp1 fuel) pos0 arms final
    /\ List.length arms < fuel
    /\ e = fold_left select arms guard.
Proof.
  rewrite parse_exp_unfold. unfold bind.
  destruct (parse_exp1 fuel pos) as [guard pos0| |]; try discriminate.
  intros H. apply select_loop_arms in H. destruct H as (arms & Hrun & Hlen & ->).
  exists guard, pos0, arms. auto.
Qed.

End ParserExpressions.

(** C2. The ternary operator.  After the guard, which [parse_exp1] reads,
    [parse_exp] reads a run of arms: a [?], a true arm read by [parse_exp]
    itself, a [:] and a false arm read by [parse_exp1]; a [?] after a false
    arm is not part of that arm, it opens the next arm of the same loop,
    with the [Select] built so far as the guard.  For every run of arms the
    result is the [Select]s nested in the guard, [fold_left select arms
    guard].  A ternary inside another one is therefore in its true arm, as
    [a ? b ? c : d : e] shows, and not in its false arm, as
    [a ? b : c ? d : e] shows. *)
Theorem parse_exp_select
  (m_tokens : list PTok.Token) (fuel pos pos0 final : nat)
  (guard : Ast.Exp) (arms : list (Ast.Exp * Ast.Exp)) :
  Parser.parse_exp1 m_tokens fuel pos = Parser.Ok guard pos0 ->
  select_run m_tokens (Parser.parse_exp m_tokens fuel) (Parser.parse_exp1 m_tokens fuel)
    pos0 arms final ->
  List.length arms < fuel ->
  Parser.parse_exp m_tokens (S fuel) pos
    = Parser.Ok (fold_left select arms guard) final.
Proof.
  intros Hg Hrun Hf.
  rewrite parse_exp_unfold. unfold Parser.bind. rewrite Hg.
  apply select_loop_run; assumption.
Qed.

Lemma parse_exp_select_witness :
  let a := Ast.Val (Ast.Id "a") in
  let b := Ast.Val (Ast.Id "b") in
  let c := Ast.Val (Ast.Id "c") in
  let d := Ast.Val (Ast.Id "d") in
  let e := Ast.Val (Ast.Id "e") in
  (let ts := tokens_a_b_c_d_e in
   let arms := [(Ast.Select b c d, e)] in
   Parser.parse_exp1 ts 20 0 = Parser.Ok a 1 /\
   select_run ts (Parser.parse_exp ts 20) (Parser.parse_exp1 ts 20) 1 arms 9 /\
   List.length arms < 20 /\
   Parser.parse_exp ts 21 0 = Parser.Ok (Ast.Select a (Ast.Select b c d) e) 9)
  /\
  (let ts := tokens_a_b_c_d_e_false_arm in
   let arms := [(b, c); (d, e)] in
   Parser.parse_exp1 ts 20 0 = Parser.Ok a 1 /\
   select_run ts (Parser.parse_exp ts 20) (Parser.parse_exp1 ts 20) 1 arms 9 /\
   List.length arms < 20 /\
   Parser.parse_exp ts 21 0 = Parser.Ok (Ast.Select (Ast.Select a b c) d e) 9).
Proof.
  intros a b c d e. split; intros ts arms.
  - assert (Hrun : select_run ts (Parser.parse_exp ts 20) (Parser.parse_exp1 ts 20)
                     1 arms 9).
    { split; [vm_compute; reflexivity|]. exists 7, 9.
      repeat split; vm_compute; reflexivity. }
    refine (conj _ (conj Hrun (conj _ _))).
    + vm_compute; reflexivity.
    + simpl; lia.
    + apply (parse_exp_select ts 20 0 1 9 a arms);
        [vm_compute; reflexivity | exact Hrun | simpl; lia].
  - assert (Hrun : select_run ts (Parser.parse_exp ts 20) (Parser.parse_exp1 ts 20)
                     1 arms 9).
    { split; [vm_compute; reflexivity|]. exists 3, 5.
      split; [vm_compute; reflexivity|]. split; [vm_compute; reflexivity|].
      split; [vm_compute; reflexivity|].
      split; [vm_compute; reflexivity|]. exists 7, 9.
      repeat split; vm_compute; reflexivity. }
    refine (conj _ (conj Hrun (conj _ _))).
    + vm_compute; reflexivity.
    + simpl; lia.
    + apply (parse_exp_select ts 20 0 1 9 a arms);
        [vm_compute; reflexivity | exact Hrun | simpl; lia].
Defined.

(** The false arm is an [exp1]: a [?] after it continues the loop, so
    [a ? b : c ? d : e] nests on the left. *)
Example parse_exp_select_false_arm :
  Parser.parse_exp
    (ParseMain.tokenize_input
       "Id(a) QuestionMark Id(b) Colon Id(c) QuestionMark Id(d) Colon Id(e)") 30 0
  = Parser.Ok
      (Ast.Select
         (Ast.Select (Ast.Val (Ast.Id "a")) (Ast.Val (Ast.Id "b")) (Ast.Val (Ast.Id "c")))
         (Ast.Val (Ast.Id "d")) (Ast.Val (Ast.Id "e"))) 9.
Proof. vm_compute. reflexivity. Qed.

(** Grouping leaves no node: at an open parenthesis, when [parse_exp]
    on the tokens after it returns [exp] and stops at a close parenthesis,
    the primary [parse_exp7] returns that same [exp], with the cursor after
    the close parenthesis. *)
Lemma parse_exp7_open_paren
  (m_tokens : list PTok.Token) (fuel pos pos1 : nat) (exp : Ast.Exp) :
  Parser.check m_tokens "OpenParen" pos = true ->
  Parser.parse_exp m_tokens fuel (S pos) = Parser.Ok exp pos1 ->
  Parser.check m_tokens "CloseParen" pos1 = true ->
  Parser.parse_exp7 m_tokens (S fuel) pos = Parser.Ok exp (S pos1).
Proof.
  intros Ho He Hc. simpl. unfold Parser.cond.
  rewrite !(check_other m_tokens pos "OpenParen") by (assumption || discriminate).
  rewrite Ho.
  destruct (check_true m_tokens pos _ Ho) as [o [Hot _]].
  destruct (check_true m_tokens pos1 _ Hc) as [c [Hct Hcy]].
  unfold Parser.bind. rewrite (advance_at m_tokens pos o Hot), He.
  rewrite (expect_at m_tokens pos1 c _ Hct Hcy). reflexivity.
Qed.

Section ParserStatements.
Import Ast Parser.
Local Open Scope string_scope.
Variable m_tokens : list PTok.Token.

Local Abbreviation check := (Parser.check m_tokens).
Local Abbreviation expect := (Parser.expect m_tokens).
Local Abbreviation parse_exp := (Parser.parse_exp m_tokens).
Local Abbreviation parse_stmt := (Parser.parse_stmt m_tokens).

Ltac run_binds :=
  unfold bind, cond, ret;
  repeat match goal with
         | |- context [match ?x with Ok _ _ => _ | Throw _ => _ | OutOfFuel => _ end] =>
             destruct x
         | |- context [if ?c then _ else _] => destruct c
         end.

Lemma parse_if_stmt_keyword fuel pos s pos' :
  Parser.parse_if_stmt m_tokens fuel pos = Ok s pos' -> keyword_stmt s.
Proof.
  destruct fuel as [|fuel]; [discriminate|]. simpl.
  run_binds; try discriminate; intros [= <- <-]; exact I.
Qed.

Lemma parse_while_stmt_keyword fuel pos s pos' :
  Parser.parse_while_stmt m_tokens fuel pos = Ok s pos' -> keyword_stmt s.
Proof.
  destruct fuel as [|fuel]; [discriminate|]. simpl.
  run_binds; try discriminate; intros [= <- <-]; exact I.
Qed.

Lemma parse_return_stmt_keyword fuel pos s pos' :
  Parser.parse_return_stmt m_tokens fuel pos = Ok s pos' -> keyword_stmt s.
Proof.
  unfold Parser.parse_return_stmt.
  run_binds; try discriminate; intros [= <- <-]; exact I.
Qed.

(** Whatever [parse_stmt] returns is a keyword statement or the result of
    the expression statement. *)
Lemma parse_stmt_cases fuel pos s pos' :
  parse_stmt (S fuel) pos = Ok s pos' ->
  keyword_stmt s \/ Parser.expression_statement m_tokens fuel pos = Ok s pos'.
Proof.
  simpl. unfold cond at 1.
  destruct (check "If" pos); [intros H; left; eapply parse_if_stmt_keyword; eassumption|].
  unfold cond at 1.
  destruct (check "While" pos); [intros H; left; eapply parse_while_stmt_keyword; eassumption|].
  unfold cond at 1.
  destruct (check "Return" pos); [intros H; left; eapply parse_return_stmt_keyword; eassumption|].
  unfold cond at 1.
  destruct (check "Break" pos).
  { intros H; left; revert H. run_binds; try discriminate; intros [= <- <-]; exact I. }
  unfold cond at 1.
  destruct (check "Continue" pos).
  { intros H; left; revert H. run_binds; try discriminate; intros [= <- <-]; exact I. }
  intros H. right. exact H.
Qed.

End ParserStatements.

Section ParserExpressionStatement.
Import Ast Parser.
Local Open Scope string_scope.
Variable m_tokens : list PTok.Token.

Local Abbreviation check := (Parser.check m_tokens).
Local Abbreviation parse_exp := (Parser.parse_exp m_tokens).
Local Abbreviation parse_stmt := (Parser.parse_stmt m_tokens).

Lemma parse_stmt_not_keyword fuel pos start_token :
  nth_error m_tokens pos = Some start_token ->
  ~ In (PTok.type start_token) ["If"; "While"; "Return"; "Break"; "Continue"] ->
  parse_stmt (S fuel) pos = Parser.expression_statement m_tokens fuel pos.
Proof.
  intros Hs Hk. simpl. unfold cond at 1 2 3 4 5.
  rewrite !(check_at m_tokens pos start_token) by assumption.
  repeat match goal with
         | |- context [PTok.type start_token =? ?k] =>
             destruct (String.eqb_spec (PTok.type start_token) k) as [E|_];
             [exfalso; apply Hk; rewrite E; simpl; tauto|]
         end.
  reflexivity.
Qed.

Lemma expression_statement_assign fuel pos start_token left_exp pos1 right_exp pos2 semicolon :
  nth_error m_tokens pos = Some start_token ->
  parse_exp fuel pos = Ok left_exp pos1 ->
  check "Gets" pos1 = true ->
  parse_exp fuel (S pos1) = Ok right_exp pos2 ->
  nth_error m_tokens pos2 = Some semicolon -> PTok.type semicolon = "Semicolon" ->
  Parser.expression_statement m_tokens fuel pos
  = match left_exp with
    | Val place => Ok (Assign place right_exp) (S pos2)
    | _ =>
        Throw (runtime_error
          ("parse error: left-hand side of assignment must be a place, starting at token "
           ++ to_string (PTok.index start_token)))
    end.
Proof.
  intros Hs He Hg Hr Hsemi Hty.
  destruct (check_true m_tokens pos1 _ Hg) as [g [Hgt _]].
  unfold expression_statement, bind, cond.
  rewrite (peek_at m_tokens pos start_token Hs), He, Hg.
  rewrite (advance_at m_tokens pos1 g Hgt), Hr.
  rewrite (expect_at m_tokens pos2 semicolon _ Hsemi Hty).
  destruct left_exp; reflexivity.
Qed.

Lemma expression_statement_standalone fuel pos start_token left_exp pos1 semicolon :
  nth_error m_tokens pos = Some start_token ->
  parse_exp fuel pos = Ok left_exp pos1 ->
  check "Gets" pos1 = false ->
  nth_error m_tokens pos1 = Some semicolon -> PTok.type semicolon = "Semicolon" ->
  Parser.expression_statement m_tokens fuel pos
  = match left_exp with
    | CallExp fc => Ok (CallStmt fc) (S pos1)
    | _ =>
        Throw (runtime_error
          ("parse error: standalone expressions must be function calls, starting at token "
           ++ to_string (PTok.index start_token)))
    end.
Proof.
  intros Hs He Hg Hsemi Hty.
  unfold expression_statement, bind, cond.
  rewrite (peek_at m_tokens pos start_token Hs), He, Hg.
  rewrite (expect_at m_tokens pos1 semicolon _ Hsemi Hty).
  destruct left_exp; reflexivity.
Qed.

(** An [Assign] comes from a [Val] on the left of a [=]. *)
Lemma expression_statement_assign_inv fuel pos place exp pos' :
  Parser.expression_statement m_tokens fuel pos = Ok (Assign place exp) pos' ->
  exists pos1 pos2,
    parse_exp fuel pos = Ok (Val place) pos1 /\ check "Gets" pos1 = true /\
    parse_exp fuel (S pos1) = Ok exp pos2 /\ check "Semicolon" pos2 = true /\
    pos' = S pos2.
Proof.
  unfold expression_statement, bind, cond.
  destruct (Parser.peek m_tokens pos) as [start_token p0| |] eqn:Hp; try discriminate.
  assert (p0 = pos) as ->.
  { revert Hp. unfold Parser.peek, cond, Parser.at_.
    destruct (Parser.is_at_end m_tokens pos); [discriminate|].
    destruct (nth_error m_tokens pos); [|discriminate]. intros [= _ <-]. reflexivity. }
  destruct (parse_exp fuel pos) as [left_exp pos1| |] eqn:He; try discriminate.
  destruct (check "Gets" pos1) eqn:Hg.
  - destruct (check_true m_tokens pos1 _ Hg) as [g [Hgt _]].
    rewrite (advance_at m_tokens pos1 g Hgt).
    destruct (parse_exp fuel (S pos1)) as [right_exp pos2| |] eqn:Hr; try discriminate.
    destruct (Parser.expect m_tokens "Semicolon" pos2) as [semi p3| |] eqn:Hx; try discriminate.
    apply expect_ok in Hx. destruct Hx as (Hx1 & Hx2 & ->).
    destruct left_exp; unfold ret, Parser.error, throw; try discriminate.
    intros [= <- <- <-]. exists pos1, pos2. repeat split; try assumption.
    rewrite (check_at m_tokens pos2 semi _ Hx1). apply String.eqb_eq. assumption.
  - destruct (Parser.expect m_tokens "Semicolon" pos1) as [semi p3| |]; try discriminate.
    destruct left_exp; unfold ret, Parser.error, throw; discriminate.
Qed.

(** A [CallStmt] comes from a [CallExp] that no [=] follows. *)
Lemma expression_statement_call_inv fuel pos fc pos' :
  Parser.expression_statement m_tokens fuel pos = Ok (CallStmt fc) pos' ->
  exists pos1,
    parse_exp fuel pos = Ok (CallExp fc) pos1 /\ check "Gets" pos1 = false /\
    check "Semicolon" pos1 = true /\ pos' = S pos1.
Proof.
  unfold expression_statement, bind, cond.
  destruct (Parser.peek m_tokens pos) as [start_token p0| |] eqn:Hp; try discriminate.
  assert (p0 = pos) as ->.
  { revert Hp. unfold Parser.peek, cond, Parser.at_.
    destruct (Parser.is_at_end m_tokens pos); [discriminate|].
    destruct (nth_error m_tokens pos); [|discriminate]. intros [= _ <-]. reflexivity. }
  destruct (parse_exp fuel pos) as [left_exp pos1| |] eqn:He; try discriminate.
  destruct (check "Gets" pos1) eqn:Hg.
  - destruct (check_true m_tokens pos1 _ Hg) as [g [Hgt _]].
    rewrite (advance_at m_tokens pos1 g Hgt).
    destruct (parse_exp fuel (S pos1)) as [right_exp pos2| |]; try discriminate.
    destruct (Parser.expect m_tokens "Semicolon" pos2) as [semi p3| |]; try discriminate.
    destruct left_exp; unfold ret, Parser.error, throw; discriminate.
  - destruct (Parser.expect m_tokens "Semicolon" pos1) as [semi p3| |] eqn:Hx; try discriminate.
    apply expect_ok in Hx. destruct Hx as (Hx1 & Hx2 & ->).
    destruct left_exp; unfold ret, Parser.error, throw; try discriminate.
    intros [= <- <-]. exists pos1. repeat split; try assumption.
    rewrite (check_at m_tokens pos1 semi _ Hx1). apply String.eqb_eq. assumption.
Qed.

End ParserExpressionStatement.

(** C1. Place/expression disambiguation in [parse_stmt].  For a statement
    that does not start with [if], [while], [return], [break] or
    [continue], whose first token is [start_token] and whose leading
    expression parses to [left_exp]:
    - [left_exp = rhs ;] yields [Assign place rhs] when [left_exp] is
      [Val place], and otherwise the error "left-hand side of assignment
      must be a place" with the index of [start_token];
    - [left_exp ;] yields [CallStmt fc] when [left_exp] is [CallExp fc],
      and otherwise the error "standalone expressions must be function
      calls" with the index of [start_token].
    Conversely every [Assign place rhs] that [parse_stmt] returns comes from
    a [Val place] before a [=], and [place] is an [Id], a [Deref], an
    [ArrayAccess] or a [FieldAccess]; every [CallStmt fc] it returns comes
    from a [CallExp fc] that no [=] follows. *)
Theorem parse_stmt_place_or_call (m_tokens : list PTok.Token) (fuel pos : nat) :
  (forall start_token left_exp pos1,
      nth_error m_tokens pos = Some start_token ->
      ~ In (PTok.type start_token)
           ["If"; "While"; "Return"; "Break"; "Continue"]%string ->
      Parser.parse_exp m_tokens fuel pos = Parser.Ok left_exp pos1 ->
      (forall right_exp pos2 semicolon,
          Parser.check m_tokens "Gets" pos1 = true ->
          Parser.parse_exp m_tokens fuel (S pos1) = Parser.Ok right_exp pos2 ->
          nth_error m_tokens pos2 = Some semicolon ->
          PTok.type semicolon = "Semicolon"%string ->
          Parser.parse_stmt m_tokens (S fuel) pos
          = match left_exp with
            | Ast.Val place => Parser.Ok (Ast.Assign place right_exp) (S pos2)
            | _ =>
                Parser.Throw (Parser.runtime_error
                  ("parse error: left-hand side of assignment must be a place, starting at token "
                   ++ Parser.to_string (PTok.index start_token)))
            end)
      /\ (forall semicolon,
          Parser.check m_tokens "Gets" pos1 = false ->
          nth_error m_tokens pos1 = Some semicolon ->
          PTok.type semicolon = "Semicolon"%string ->
          Parser.parse_stmt m_tokens (S fuel) pos
          = match left_exp with
            | Ast.CallExp fc => Parser.Ok (Ast.CallStmt fc) (S pos1)
            | _ =>
                Parser.Throw (Parser.runtime_error
                  ("parse error: standalone expressions must be function calls, starting at token "
                   ++ Parser.to_string (PTok.index start_token)))
            end))
  /\ (forall place exp pos',
      Parser.parse_stmt m_tokens (S fuel) pos = Parser.Ok (Ast.Assign place exp) pos' ->
      (exists pos1 pos2,
          Parser.parse_exp m_tokens fuel pos = Parser.Ok (Ast.Val place) pos1
          /\ Parser.check m_tokens "Gets" pos1 = true
          /\ Parser.parse_exp m_tokens fuel (S pos1) = Parser.Ok exp pos2
          /\ Parser.check m_tokens "Semicolon" pos2 = true
          /\ pos' = S pos2)
      /\ ((exists name, place = Ast.Id name)
          \/ (exists e, place = Ast.Deref e)
          \/ (exists array index, place = Ast.ArrayAccess array index)
          \/ (exists ptr field, place = Ast.FieldAccess ptr field)))
  /\ (forall fc pos',
      Parser.parse_stmt m_tokens (S fuel) pos = Parser.Ok (Ast.CallStmt fc) pos' ->
      exists pos1,
        Parser.parse_exp m_tokens fuel pos = Parser.Ok (Ast.CallExp fc) pos1
        /\ Parser.check m_tokens "Gets" pos1 = false
        /\ Parser.check m_tokens "Semicolon" pos1 = true
        /\ pos' = S pos1).
Proof.
  split; [|split].
  - intros start_token left_exp pos1 Hs Hk He. split.
    + intros right_exp pos2 semicolon Hg Hr Hsemi Hty.
      rewrite (parse_stmt_not_keyword m_tokens fuel pos start_token Hs Hk).
      eapply expression_statement_assign; eassumption.
    + intros semicolon Hg Hsemi Hty.
      rewrite (parse_stmt_not_keyword m_tokens fuel pos start_token Hs Hk).
      eapply expression_statement_standalone; eassumption.
  - intros place exp pos' H.
    destruct (parse_stmt_cases m_tokens fuel pos _ _ H) as [Hk|Hx]; [destruct Hk|].
    split; [apply expression_statement_assign_inv; assumption|].
    destruct place; eauto 6.
  - intros fc pos' H.
    destruct (parse_stmt_cases m_tokens fuel pos _ _ H) as [Hk|Hx]; [destruct Hk|].
    apply expression_statement_call_inv; assumption.
Qed.

Lemma parse_stmt_place_or_call_witness :
  let ts := ParseMain.tokenize_input "Id(p) Dot Star Gets Num(1) Semicolon" in
  let p := Ast.Deref (Ast.Val (Ast.Id "p")) in
  nth_error ts 0 = Some (PTok.mk "Id" "p" 0) /\
  ~ In (PTok.type (PTok.mk "Id" "p" 0))
       ["If"; "While"; "Return"; "Break"; "Continue"]%string /\
  Parser.parse_exp ts 20 0 = Parser.Ok (Ast.Val p) 3 /\
  Parser.check ts "Gets" 3 = true /\
  Parser.parse_exp ts 20 4 = Parser.Ok (Ast.Num 1) 5 /\
  nth_error ts 5 = Some (PTok.mk "Semicolon" "" 5) /\
  PTok.type (PTok.mk "Semicolon" "" 5) = "Semicolon"%string /\
  Parser.parse_stmt ts (S 20) 0 = Parser.Ok (Ast.Assign p (Ast.Num 1)) 6.
Proof.
  cbv zeta.
  assert (Hk : ~ In (PTok.type (PTok.mk "Id" "p" 0))
                    ["If"; "While"; "Return"; "Break"; "Continue"]%string).
  { simpl. intros H. repeat destruct H as [H|H]; try discriminate H. exact H. }
  refine (conj _ (conj Hk (conj _ (conj _ (conj _ (conj _ (conj _ _))))))).
  1-6: vm_compute; reflexivity.
  refine (proj1 (proj1
            (parse_stmt_place_or_call
               (ParseMain.tokenize_input "Id(p) Dot Star Gets Num(1) Semicolon") 20 0)
            (PTok.mk "Id" "p" 0) (Ast.Val (Ast.Deref (Ast.Val (Ast.Id "p")))) 3 _ Hk _)
          (Ast.Num 1) 5 (PTok.mk "Semicolon" "" 5) _ _ _ _);
    vm_compute; reflexivity.
Defined.

(** The statement [p.*.field[i](x) = 1;]: the outermost postfix is a call,
    so the left-hand side is a [CallExp] and the statement is rejected with
    the index of its first token. *)
Example parse_stmt_call_on_the_left :
  Parser.parse_stmt
    (ParseMain.tokenize_input
       "Id(p) Dot Star Dot Id(field) OpenBracket Id(i) CloseBracket OpenParen Id(x) CloseParen Gets Num(1) Semicolon")
    30 0
  = Parser.Throw (Parser.runtime_error
      "parse error: left-hand side of assignment must be a place, starting at token 0").
Proof. vm_compute. reflexivity. Qed.

(** A standalone expression that is no call, at token 3 of its stream. *)
Example parse_stmt_standalone_not_call :
  Parser.parse_stmt
    (ParseMain.tokenize_input "Break Semicolon OpenBrace Id(x) Plus Num(1) Semicolon") 30 3
  = Parser.Throw (Parser.runtime_error
      "parse error: standalone expressions must be function calls, starting at token 3").
Proof. vm_compute. reflexivity. Qed.

(* ===================================================================== *)
(** ** Numeric literals *)
(* ===================================================================== *)

Section Stoll.
Import Parser.
Local Open Scope Z_scope.

Lemma isdigit_not_space_or_sign c :
  CType.isdigit c = true ->
  CType.isspace c = false /\ is_char c "-" = false /\ is_char c "+" = false.
Proof.
  destruct c as [[] [] [] [] [] [] [] []]; vm_compute; intros H;
    first [discriminate H | repeat split].
Qed.

Lemma digit_value_nonneg c : 0 <= digit_value c.
Proof. unfold digit_value. lia. Qed.

Lemma decimal_nonneg s : 0 <= decimal s.
Proof.
  induction s as [|c s IH]; simpl; [lia|].
  pose proof (digit_value_nonneg c).
  assert (0 <= 10 ^ Z.of_nat (String.length s)) by (apply Z.pow_nonneg; lia).
  nia.
Qed.

Lemma digits_value_decimal s : forall acc,
  forallb CType.isdigit (list_ascii_of_string s) = true ->
  digits_value s acc = acc * 10 ^ Z.of_nat (String.length s) + decimal s.
Proof.
  induction s as [|c s IH]; intros acc H.
  - simpl. lia.
  - cbn [list_ascii_of_string forallb] in H.
    apply andb_true_iff in H. destruct H as [Hc Hs].
    cbn [digits_value decimal]. rewrite Hc, IH by assumption.
    change (String.length (String c s)) with (S (String.length s)).
    rewrite Nat2Z.inj_succ, Z.pow_succ_r by lia. ring.
Qed.

(** On a string of digits [stoll] returns the number it denotes, or
    reports it out of range when it exceeds [LLONG_MAX]. *)
Lemma stoll_digits s :
  digits_only s = true ->
  stoll s = if decimal s <=? LLONG_MAX then stoll_value (decimal s) else stoll_out_of_range.
Proof.
  destruct s as [|c s]; [discriminate|].
  unfold digits_only. intros H.
  assert (Hc : CType.isdigit c = true) by (simpl in H; apply andb_true_iff in H; tauto).
  destruct (isdigit_not_space_or_sign c Hc) as (Hsp & Hm & Hp).
  unfold stoll. simpl skip_space. rewrite Hsp, Hm, Hp.
  unfold starts_with_digit. rewrite Hc. simpl negb. cbv iota.
  rewrite digits_value_decimal by assumption.
  pose proof (decimal_nonneg (String c s)) as Hn.
  replace (0 * 10 ^ Z.of_nat (String.length (String c s)) + decimal (String c s))
    with (decimal (String c s)) by ring.
  set (d := decimal (String c s)) in *. clearbody d.
  replace (d <? LLONG_MIN) with false
    by (symmetry; apply Z.ltb_ge; unfold LLONG_MIN; lia).
  rewrite Z.ltb_antisym.
  destruct (d <=? LLONG_MAX); reflexivity.
Qed.

End Stoll.

Section LexerNum.
Import CType.
Variable buf : list ascii.

Lemma numeric_scan_digits n it :
  forall j, it <= j < Lexer.numeric_scan buf n it -> isdigit (byte_at buf j) = true.
Proof.
  revert it; induction n as [|n IH]; intros it j Hj; simpl in Hj; [lia|].
  destruct (isdigit (byte_at buf it)) eqn:E; simpl in Hj; [|lia].
  destruct (Nat.eq_dec j it) as [->|]; [assumption | apply (IH (S it)); lia].
Qed.

Lemma forallb_lexeme (P : ascii -> bool) first last :
  (forall j, first <= j < last -> P (byte_at buf j) = true) ->
  forallb P (lexeme buf first last) = true.
Proof.
  unfold lexeme. intros H.
  remember (last - first) as n eqn:En.
  revert first last En H. induction n as [|n IH]; intros first last En H.
  - reflexivity.
  - destruct (skipn first buf) as [|c rest] eqn:Es; [reflexivity|].
    assert (Hc : c = byte_at buf first /\ rest = skipn (S first) buf).
    { clear - Es. revert first Es. induction buf as [|b l IHl]; intros first Es.
      - destruct first; discriminate.
      - destruct first as [|first]; simpl in Es.
        + injection Es as <- <-. split; reflexivity.
        + apply IHl in Es. exact Es. }
    destruct Hc as [-> ->]. simpl.
    rewrite H by lia. simpl.
    apply (IH (S first) last); [lia|]. intros j Hj. apply H. lia.
Qed.

(** The lexeme of a [Num] token of the revised lexer is a non-empty string
    of decimal digits. *)
Lemma munch_token_num_digits first last :
  first < last -> last <= List.length buf ->
  Tok.token_type (Lexer.munch_token buf first last) = TokenType.Num ->
  digits_only
    (string_of_list_ascii
       (lexeme buf first (Tok.last (Lexer.munch_token buf first last)))) = true.
Proof.
  intros Hlt Hlen. unfold Lexer.munch_token.
  replace (first =? last) with false by (symmetry; apply Nat.eqb_neq; lia).
  destruct (isalpha (byte_at buf first)).
  { repeat match goal with
           | |- context [if ?c then _ else _] => destruct c
           end; simpl; discriminate. }
  destruct (isdigit (byte_at buf first)) eqn:Hd.
  2:{ repeat match goal with
             | |- context [if ?c then _ else _] => destruct c
             end; simpl; try discriminate.
      destruct (Lexer.single_char (byte_at buf first)) eqn:Es; simpl; [|discriminate].
      intros ->. revert Es. clear.
      destruct (byte_at buf first) as [[] [] [] [] [] [] [] []]; vm_compute; discriminate. }
  intros _. simpl.
  pose proof (numeric_end_progress buf first last Hlt Hd) as Hp.
  set (e := Lexer.numeric_end buf first last) in *.
  assert (Hall : forallb isdigit (lexeme buf first e) = true).
  { apply forallb_lexeme. intros j Hj. unfold e, Lexer.numeric_end in Hj.
    rewrite Hd in Hj.
    replace (first =? last) with false in Hj by (symmetry; apply Nat.eqb_neq; lia).
    simpl in Hj. eapply numeric_scan_digits. exact Hj. }
  assert (Hne : lexeme buf first e <> []).
  { unfold lexeme. intros Hnil. apply (f_equal (@List.length ascii)) in Hnil.
    rewrite length_firstn, length_skipn in Hnil. simpl in Hnil. lia. }
  destruct (lexeme buf first e) as [|c l] eqn:El; [congruence|].
  unfold digits_only.
  change (string_of_list_ascii (c :: l)) with (String c (string_of_list_ascii l)).
  cbn [list_ascii_of_string]. rewrite list_ascii_of_string_of_list_ascii. exact Hall.
Qed.

End LexerNum.

(** C7. A [Num] token whose lexeme is a string of decimal digits is
    converted to the non-negative number the digits denote, [Num(value)],
    when that number is at most 9223372036854775807; otherwise, and only
    then, the parser fails with "invalid i64 number <lexeme> at token
    <index>". *)
Theorem parse_exp7_num
  (m_tokens : list PTok.Token) (fuel pos : nat) (num_token : PTok.Token) :
  nth_error m_tokens pos = Some num_token ->
  PTok.type num_token = "Num"%string ->
  digits_only (PTok.value num_token) = true ->
  (0 <= decimal (PTok.value num_token))%Z /\
  Parser.parse_exp7 m_tokens (S fuel) pos
  = if (decimal (PTok.value num_token) <=? 9223372036854775807)%Z
    then Parser.Ok (Ast.Num (decimal (PTok.value num_token))) (S pos)
    else Parser.Throw (Parser.runtime_error
           ("parse error: invalid i64 number " ++ PTok.value num_token
            ++ " at token " ++ Parser.to_string (PTok.index num_token))).
Proof.
  intros Hn Hty Hd. split; [apply decimal_nonneg|].
  simpl. unfold Parser.cond.
  rewrite !(check_at m_tokens pos num_token) by assumption.
  rewrite Hty. simpl.
  unfold Parser.bind. rewrite (advance_at m_tokens pos num_token Hn).
  rewrite (stoll_digits _ Hd). unfold Parser.LLONG_MAX.
  destruct (decimal (PTok.value num_token) <=? 9223372036854775807)%Z; reflexivity.
Qed.

Lemma parse_exp7_num_witness :
  let ts := ParseMain.tokenize_input "Return Num(9223372036854775808) Semicolon" in
  let t := PTok.mk "Num" "9223372036854775808" 1 in
  nth_error ts 1 = Some t /\
  PTok.type t = "Num"%string /\
  digits_only (PTok.value t) = true /\
  (0 <= decimal (PTok.value t))%Z /\
  Parser.parse_exp7 ts (S 0) 1
  = if (decimal (PTok.value t) <=? 9223372036854775807)%Z
    then Parser.Ok (Ast.Num (decimal (PTok.value t))) (S 1)
    else Parser.Throw (Parser.runtime_error
           ("parse error: invalid i64 number " ++ PTok.value t
            ++ " at token " ++ Parser.to_string (PTok.index t))).
Proof.
  cbv zeta.
  refine (conj _ (conj _ (conj _ _))).
  1-3: vm_compute; reflexivity.
  apply (parse_exp7_num
           (ParseMain.tokenize_input "Return Num(9223372036854775808) Semicolon") 0 1
           (PTok.mk "Num" "9223372036854775808" 1));
    vm_compute; reflexivity.
Defined.

(** The two boundary lexemes. *)
Example parse_exp7_num_too_large :
  Parser.parse_exp7 (ParseMain.tokenize_input "Num(9223372036854775808)") 1 0
  = Parser.Throw (Parser.runtime_error
      "parse error: invalid i64 number 9223372036854775808 at token 0").
Proof. vm_compute. reflexivity. Qed.

Example parse_exp7_num_largest :
  Parser.parse_exp7 (ParseMain.tokenize_input "Num(9223372036854775807)") 1 0
  = Parser.Ok (Ast.Num 9223372036854775807) 1.
Proof. vm_compute. reflexivity. Qed.

(* ===================================================================== *)
(** ** Two-character operators *)
(* ===================================================================== *)

Section LexerOperators.
Import CType.
Variable buf : list ascii.

Lemma substr_eq_two first c0 c1 :
  Lexer.substr_eq buf first (first + 2) (String c0 (String c1 EmptyString))
  = is_char (byte_at buf first) c0 && is_char (byte_at buf (first + 1)) c1.
Proof.
  unfold Lexer.substr_eq. replace (first + 2 - first) with 2 by lia.
  replace (first + 1) with (S first) by lia. simpl.
  destruct (is_char (byte_at buf first) c0); simpl; [|reflexivity].
  destruct (is_char (byte_at buf (S first)) c1); reflexivity.
Qed.

(** X4.  In the revised lexer a digraph at the cursor is one token of two
    bytes, whatever follows it. *)
Lemma munch_token_two_char first last k :
  first + 2 <= last ->
  two_char_kind (byte_at buf first) (byte_at buf (first + 1)) = Some k ->
  Lexer.munch_token buf first last = Tok.mk k first (first + 2).
Proof.
  intros Hlen Hk. unfold Lexer.munch_token.
  replace (first =? last) with false by (symmetry; apply Nat.eqb_neq; lia).
  replace (2 <=? last - first) with true by (symmetry; apply Nat.leb_le; lia).
  rewrite !substr_eq_two. simpl andb.
  revert Hk. unfold two_char_kind.
  set (c0 := byte_at buf first). set (c1 := byte_at buf (first + 1)).
  unfold is_char.
  repeat match goal with
         | |- context [Ascii.eqb ?a ?b] =>
             destruct (Ascii.eqb_spec a b) as [->|?]
         end; simpl; try discriminate; try congruence;
    intros [= <-]; reflexivity.
Qed.

End LexerOperators.

Lemma munch_token_two_char_witness :
  2 + 2 <= 6 /\
  two_char_kind (byte_at (src "a <= b") 2) (byte_at (src "a <= b") (2 + 1))
    = Some TokenType.Lte /\
  Lexer.munch_token (src "a <= b") 2 6 = Tok.mk TokenType.Lte 2 (2 + 2).
Proof.
  refine (conj _ (conj _ _)).
  1: lia.
  1: vm_compute; reflexivity.
  apply (munch_token_two_char (src "a <= b") 2 6 TokenType.Lte);
    [lia | vm_compute; reflexivity].
Defined.

(* ===================================================================== *)
(** ** Error tokens *)
(* ===================================================================== *)

Section LexerErrorEnd.
Import CType.
Variable buf : list ascii.

(** [error_scan] stops at the first position that starts a token. *)
Lemma error_scan_spec n it last :
  let e := Lexer.error_scan buf n it last in
  (forall j, it <= j < e -> Lexer.starts_token buf j last = false) /\
  (e < it + n -> Lexer.starts_token buf e last = true).
Proof.
  revert it; induction n as [|n IH]; intros it; simpl.
  - split; intros; lia.
  - destruct (Lexer.starts_token buf it last) eqn:E.
    + split; [intros; lia | auto].
    + destruct (IH (S it)) as [H1 H2]. split.
      * intros j Hj. destruct (Nat.eq_dec j it) as [->|]; [assumption | apply H1; lia].
      * intros H. apply H2. lia.
Qed.

(** [error_end] consumes the byte at [first], then every byte up to the
    next position that starts a token. *)
Lemma error_end_spec first last :
  first < last ->
  let e := Lexer.error_end buf first last in
  first < e <= last /\
  (forall j, first < j < e -> Lexer.starts_token buf j last = false) /\
  (e < last -> Lexer.starts_token buf e last = true).
Proof.
  intros Hlt e. split; [apply error_end_progress; assumption|].
  unfold e, Lexer.error_end.
  replace (first <? last) with true by (symmetry; apply Nat.ltb_lt; lia).
  destruct (error_scan_spec (last - S first) (S first) last) as [H1 H2].
  split.
  - intros j Hj. apply H1. lia.
  - intros H. apply H2. lia.
Qed.

Lemma one_char_single_char c :
  Lexer.starts_one_char_token c = false <-> Lexer.single_char c = None.
Proof.
  destruct c as [[] [] [] [] [] [] [] []]; vm_compute; split; congruence.
Qed.

Lemma single_char_not_error c :
  Lexer.single_char c <> Some TokenType.Error.
Proof.
  destruct c as [[] [] [] [] [] [] [] []]; vm_compute; discriminate.
Qed.

(** White space starts no token. *)
Lemma isspace_not_token_start c :
  isspace c = true ->
  isalpha c = false /\ isdigit c = false /\ Lexer.starts_one_char_token c = false
  /\ is_char c "!" = false /\ is_char c "<" = false /\ is_char c ">" = false
  /\ is_char c "-" = false /\ is_char c "=" = false /\ is_char c "/" = false.
Proof.
  destruct c as [[] [] [] [] [] [] [] []]; vm_compute; intros H;
    first [discriminate H | repeat split].
Qed.

Lemma starts_token_space p last :
  isspace (byte_at buf p) = true -> Lexer.starts_token buf p last = false.
Proof.
  intros H. destruct (isspace_not_token_start _ H)
    as (Ha & Hd & Ho & H1 & H2 & H3 & H4 & H5 & H6).
  unfold Lexer.starts_token, Lexer.starts_two_char_token.
  rewrite Ha, Hd, Ho, H1, H2, H3, H4, H5, H6.
  destruct (last <=? p); [reflexivity|]. destruct (last <=? p + 1); reflexivity.
Qed.

(** A position starts a token exactly when [munch_token] finds something
    other than an error there. *)
Lemma starts_token_munch first last :
  first < last ->
  (Lexer.starts_token buf first last = false <->
   Tok.token_type (Lexer.munch_token buf first last) = TokenType.Error).
Proof.
  intros Hlt. unfold Lexer.starts_token, Lexer.munch_token.
  replace (last <=? first) with false by (symmetry; apply Nat.leb_gt; lia).
  replace (first =? last) with false by (symmetry; apply Nat.eqb_neq; lia).
  destruct (isalpha (byte_at buf first)).
  { split; [discriminate|].
    repeat match goal with
           | |- context [if ?c then _ else _] => destruct c
           end; simpl; discriminate. }
  destruct (isdigit (byte_at buf first)); [split; simpl; discriminate|].
  unfold Lexer.starts_two_char_token.
  replace (last <=? first + 1) with (negb (2 <=? last - first))
    by (destruct (2 <=? last - first) eqn:E; simpl;
        [apply Nat.leb_le in E; symmetry; apply Nat.leb_gt; lia
        |apply Nat.leb_gt in E; symmetry; apply Nat.leb_le; lia]).
  rewrite !substr_eq_two.
  destruct (2 <=? last - first); simpl.
  - set (c0 := byte_at buf first). set (c1 := byte_at buf (first + 1)).
    destruct (Lexer.single_char c0) eqn:Es.
    + assert (Ho : Lexer.starts_one_char_token c0 = true).
      { destruct (Lexer.starts_one_char_token c0) eqn:E; [reflexivity|].
        apply one_char_single_char in E. congruence. }
      rewrite Ho.
      assert (Hk : t <> TokenType.Error)
        by (intros ->; apply (single_char_not_error _ Es)).
      repeat match goal with
             | |- context [if ?c then _ else _] => destruct c
             end; simpl; split; congruence.
    + assert (Ho : Lexer.starts_one_char_token c0 = false)
        by (apply one_char_single_char; assumption).
      rewrite Ho.
      assert (Hs : is_char c0 "/" = false).
      { revert Es. clear. destruct c0 as [[] [] [] [] [] [] [] []]; vm_compute; congruence. }
      rewrite Hs. simpl.
      repeat match goal with
             | |- context [is_char ?a ?b] => destruct (is_char a b)
             end; simpl; split; congruence.
  - destruct (Lexer.single_char (byte_at buf first)) eqn:Es.
    + assert (Ho : Lexer.starts_one_char_token (byte_at buf first) = true).
      { destruct (Lexer.starts_one_char_token _) eqn:E; [reflexivity|].
        apply one_char_single_char in E. congruence. }
      rewrite Ho.
      assert (Hk : t <> TokenType.Error)
        by (intros ->; apply (single_char_not_error _ Es)).
      simpl. split; congruence.
    + assert (Ho : Lexer.starts_one_char_token (byte_at buf first) = false)
        by (apply one_char_single_char; assumption).
      rewrite Ho. simpl. split; reflexivity.
Qed.

(** When nothing matches at the cursor, the token is the [Error] token
    that ends where [error_end] says. *)
Lemma munch_token_error first last :
  first < last ->
  Lexer.starts_token buf first last = false ->
  Lexer.munch_token buf first last
  = Tok.mk TokenType.Error first (Lexer.error_end buf first last).
Proof.
  intros Hlt Hs.
  pose proof (proj1 (starts_token_munch first last Hlt) Hs) as He.
  revert He. unfold Lexer.munch_token.
  replace (first =? last) with false by (symmetry; apply Nat.eqb_neq; lia).
  repeat match goal with
         | |- context [if ?c then _ else _] => destruct c
         end; simpl; try discriminate.
  destruct (Lexer.single_char (byte_at buf first)) eqn:Es; simpl; [|reflexivity].
  intros ->. exfalso. apply (single_char_not_error _ Es).
Qed.

(** X5.  The revised lexer's error token: it starts at the cursor, consumes at
    least one byte, contains no position after its first byte at which a
    token could start (white space included, which starts none), and ends
    at the end of the range or where a token can start. *)
Lemma munch_token_error_extent first last :
  first < last ->
  Tok.token_type (Lexer.munch_token buf first last) = TokenType.Error ->
  let t := Lexer.munch_token buf first last in
  Tok.first t = first /\ first < Tok.last t <= last /\
  (forall j, first < j < Tok.last t ->
     Tok.token_type (Lexer.munch_token buf j last) = TokenType.Error) /\
  (Tok.last t < last ->
     Tok.token_type (Lexer.munch_token buf (Tok.last t) last) <> TokenType.Error).
Proof.
  intros Hlt He t.
  pose proof (proj2 (starts_token_munch first last Hlt) He) as Hs.
  unfold t. rewrite (munch_token_error first last Hlt Hs). simpl.
  destruct (error_end_spec first last Hlt) as (Hb & Hin & Hend).
  repeat split; try lia.
  - intros j Hj. apply starts_token_munch; [lia|]. apply Hin. assumption.
  - intros Hl Hc. apply starts_token_munch in Hc; [|assumption].
    rewrite (Hend Hl) in Hc. discriminate.
Qed.

End LexerErrorEnd.

Lemma munch_token_error_extent_witness :
  0 < 5 /\
  Tok.token_type (Lexer.munch_token (src "@# x1") 0 5) = TokenType.Error /\
  let t := Lexer.munch_token (src "@# x1") 0 5 in
  Tok.first t = 0 /\ 0 < Tok.last t <= 5 /\
  (forall j, 0 < j < Tok.last t ->
     Tok.token_type (Lexer.munch_token (src "@# x1") j 5) = TokenType.Error) /\
  (Tok.last t < 5 ->
     Tok.token_type (Lexer.munch_token (src "@# x1") (Tok.last t) 5) <> TokenType.Error).
Proof.
  refine (conj _ (conj _ _)).
  1: lia.
  1: vm_compute; reflexivity.
  apply (munch_token_error_extent (src "@# x1") 0 5); [lia | vm_compute; reflexivity].
Defined.

(* ===================================================================== *)
(** ** Line comments *)
(* ===================================================================== *)

(** In the revised lexer, a line comment that runs to the end of the
    buffer: take the loop of [lex] at a cursor [curr] before [last], and let
    the skipper get to an iteration at [it] where, after the white space, a
    line comment opens at [w] and no newline follows before [last].  Then
    [lex] returns [tokens] followed by the [Error] token from [w] to [last]
    and nothing else. *)
Lemma lex_unterminated_line_comment
  (buf : list ascii) (fuel sfuel curr it last : nat) (tokens : list Token) :
  let w := Lexer.whitespace_scan buf (last - it) it in
  curr <> last ->
  Lexer.skip_whitespace_and_comments buf curr last = Lexer.skip_loop (S sfuel) buf it last ->
  w + 1 < last -> byte_at buf w = "/" -> byte_at buf (w + 1) = "/" ->
  (forall j, w + 2 <= j < last -> byte_at buf j <> NL) ->
  Lexer.lex_loop (S fuel) buf curr last tokens
    = Some (tokens ++ [Tok.mk TokenType.Error w last]).
Proof.
  intros w Hne Hreach Hw H0 H1 Hno.
  apply lex_loop_skipper_error with (next := last); [assumption|].
  rewrite Hreach. apply skip_loop_unterminated_line; assumption.
Qed.

(** In the revised lexer, a line comment with a newline: the skipper goes
    on right after the newline, so the comment and its newline yield no
    token. *)
Lemma skip_terminated_line_comment
  (buf : list ascii) (fuel it last k : nat) :
  let w := Lexer.whitespace_scan buf (last - it) it in
  w + 1 < last -> byte_at buf w = "/" -> byte_at buf (w + 1) = "/" ->
  w + 2 <= k < last -> byte_at buf k = NL ->
  (forall j, w + 2 <= j < k -> byte_at buf j <> NL) ->
  Lexer.skip_loop (S fuel) buf it last = Lexer.skip_loop fuel buf (S k) last.
Proof. apply skip_loop_terminated_line. Qed.

Example lex_line_comment_newline :
  Lexer.lex (src ("a = b + 1; // trailing" ++ String NL ""))
  = Some [Tok.mk TokenType.Id 0 1; Tok.mk TokenType.Gets 2 3; Tok.mk TokenType.Id 4 5;
          Tok.mk TokenType.Plus 6 7; Tok.mk TokenType.Num 8 9;
          Tok.mk TokenType.Semicolon 9 10].
Proof. vm_compute. reflexivity. Qed.

(* ===================================================================== *)
(** * The earlier copy of the lexer *)
(* ===================================================================== *)

(** C3, on the input [x // c] (a line comment that reaches the end of the
    buffer).  The revised lexer emits the identifier and then one [Error]
    token from the [//] to the end of the buffer; the earlier copy skips the
    comment and emits no token for it. *)
Theorem lexer_v1_line_comment_at_end_of_buffer :
  Lexer.lex (src "x // c")
    = Some [Tok.mk TokenType.Id 0 1; Tok.mk TokenType.Error 2 6]
  /\ LexerV1.lex (src "x // c") = Some [Tok.mk TokenType.Id 0 1].
Proof. split; vm_compute; reflexivity. Qed.

(** C5, on the input [@1].  Nothing matches at [@].  The revised lexer ends
    the [Error] token before the digit, which starts a [Num]; the earlier
    copy's [error_end] only stops at a space, a letter, [=] or [+], and
    takes the digit into the [Error] token.  On [@ x] the earlier copy stops
    at the space, where the revised one absorbs it. *)
Theorem lexer_v1_error_end :
  Lexer.lex (src "@1")
    = Some [Tok.mk TokenType.Error 0 1; Tok.mk TokenType.Num 1 2]
  /\ LexerV1.lex (src "@1") = Some [Tok.mk TokenType.Error 0 2]
  /\ Lexer.lex (src "@ x")
    = Some [Tok.mk TokenType.Error 0 2; Tok.mk TokenType.Id 2 3]
  /\ LexerV1.lex (src "@ x")
    = Some [Tok.mk TokenType.Error 0 1; Tok.mk TokenType.Id 2 3].
Proof. repeat split; vm_compute; reflexivity. Qed.

(** C6, on the input [a != b].  The revised lexer emits one [NotEq] token
    for the digraph.  The earlier copy compares with [strcmp], which reads
    to the end of the buffer, so the digraph only matches when nothing
    follows it: here it emits [Error] for [!] and then [Gets] for [=]. *)
Theorem lexer_v1_two_char_operator :
  Lexer.lex (src "a != b")
    = Some [Tok.mk TokenType.Id 0 1; Tok.mk TokenType.NotEq 2 4; Tok.mk TokenType.Id 5 6]
  /\ LexerV1.lex (src "a != b")
    = Some [Tok.mk TokenType.Id 0 1; Tok.mk TokenType.Error 2 3;
            Tok.mk TokenType.Gets 3 4; Tok.mk TokenType.Id 5 6]
  /\ LexerV1.lex (src "a !=")
    = Some [Tok.mk TokenType.Id 0 1; Tok.mk TokenType.NotEq 2 4].
Proof. repeat split; vm_compute; reflexivity. Qed.

(* ===================================================================== *)
(** * The token reader of parse_main.cpp *)
(* ===================================================================== *)

Section TokenReader.
Import ParseMain.

Lemma tokenize_from_index string_tokens : forall i tokens,
  Forall (fun str_tok => str_tok <> EmptyString) string_tokens ->
  map PTok.index (tokenize_from string_tokens i tokens)
  = map PTok.index tokens ++ seq i (List.length string_tokens).
Proof.
  induction string_tokens as [|str_tok rest IH]; intros i tokens H; simpl.
  - rewrite app_nil_r. reflexivity.
  - inversion H as [|? ? Hne Hrest]; subst.
    destruct str_tok as [|c str_tok]; [congruence|].
    destruct (find (String c str_tok) "(");
      rewrite IH by assumption; rewrite map_app, <- app_assoc; reflexivity.
Qed.

(** X17.  When the line has no empty field (no leading space, no two spaces in
    a row), the indices are the ordinals 0, 1, 2, ... *)
Lemma tokenize_input_index line :
  Forall (fun str_tok => str_tok <> EmptyString) (split line " ") ->
  map PTok.index (tokenize_input line)
  = seq 0 (List.length (tokenize_input line)).
Proof.
  intros H. unfold tokenize_input.
  assert (Hlen : List.length (tokenize_from (split line " ") 0 [])
                 = List.length (split line " ")).
  { rewrite <- (length_map PTok.index), tokenize_from_index by assumption.
    simpl. apply length_seq. }
  rewrite Hlen. apply tokenize_from_index. assumption.
Qed.

End TokenReader.

Lemma tokenize_input_index_witness :
  Forall (fun str_tok => str_tok <> EmptyString)
         (ParseMain.split "Fn Id(main) OpenParen" " ") /\
  map PTok.index (ParseMain.tokenize_input "Fn Id(main) OpenParen")
  = seq 0 (List.length (ParseMain.tokenize_input "Fn Id(main) OpenParen")).
Proof.
  assert (H : Forall (fun str_tok => str_tok <> EmptyString)
                (ParseMain.split "Fn Id(main) OpenParen" " ")).
  { vm_compute. repeat constructor; discriminate. }
  split; [exact H|].
  apply (tokenize_input_index "Fn Id(main) OpenParen" H).
Defined.

(** C8, on a line with two spaces in a row.  [tokenize_input] numbers a
    token with the ordinal of its field in the split line and skips the
    empty fields without renumbering, so the indices are 0 and 2.  The same
    happens on what [lex] prints for the source [@  x], whose [Error] lexeme
    contains two spaces: the three tokens read back get the indices 0, 2
    and 3. *)
Theorem tokenize_input_index_gap :
  ParseMain.tokenize_input "Fn  Id(main)"
    = [PTok.mk "Fn" "" 0; PTok.mk "Id" "main" 2]
  /\ LexMain.main "@  x" = Some ("Error(@  ) Id(x)" ++ String NL "")%string
  /\ map PTok.index (ParseMain.tokenize_input "Error(@  ) Id(x)") = [0; 2; 3].
Proof. repeat split; vm_compute; reflexivity. Qed.

(* ===================================================================== *)
(** * The parser's fuel *)
(* ===================================================================== *)

(** More fuel never changes what a parser method returns or throws: the
    outcome for a fuel is the outcome for every larger fuel, unless it is
    the exhaustion of the fuel. *)

Section ParserFuel.
Import Ast Parser.
Local Open Scope string_scope.
Variable m_tokens : list PTok.Token.

Lemma fuel_le_refl {A} (m : M A) : fuel_le m m.
Proof. intros pos. right. reflexivity. Qed.

Lemma fuel_le_bottom {A} (m : M A) : fuel_le out_of_fuel m.
Proof. intros pos. left. reflexivity. Qed.

Lemma fuel_le_trans {A} (m1 m2 m3 : M A) :
  fuel_le m1 m2 -> fuel_le m2 m3 -> fuel_le m1 m3.
Proof.
  intros H12 H23 pos. destruct (H12 pos) as [H|H]; [left; assumption|].
  rewrite H. apply H23.
Qed.

Lemma fuel_le_bind {A B} (m m' : M A) (k k' : A -> M B) :
  fuel_le m m' -> (forall a, fuel_le (k a) (k' a)) ->
  fuel_le (bind m k) (bind m' k').
Proof.
  intros Hm Hk pos. unfold bind.
  destruct (Hm pos) as [H|H].
  - left. rewrite H. reflexivity.
  - rewrite <- H. destruct (m pos) as [a pos'| |]; [apply Hk | right | left]; reflexivity.
Qed.

Lemma fuel_le_cond {A} (c : nat -> bool) (a a' b b' : M A) :
  fuel_le a a' -> fuel_le b b' -> fuel_le (cond c a b) (cond c a' b').
Proof.
  intros Ha Hb pos. unfold cond. destruct (c pos); [apply Ha | apply Hb].
Qed.

(** One step of a definition by recursion on the fuel, on both sides of
    [fuel_le (f (S n) ...) (f (S (S n)) ...)]. *)
Ltac unfold_fuel n :=
  match goal with
  | |- fuel_le ?l ?r =>
      let l' := eval cbn [comma_list parse_type parse_funtype select_loop exp2_loop
                          exp3_loop exp4_loop postfix_loop parse_exp parse_exp1
                          parse_exp2 parse_exp3 parse_exp4 parse_exp5 parse_exp6
                          parse_exp7 stmt_loop parse_stmt parse_if_stmt parse_block
                          parse_while_stmt let_loop program_loop] in l in
      change (fuel_le l' r)
  end;
  let m := fresh "m" in
  let Em := fresh "Em" in
  remember (S n) as m eqn:Em;
  cbn [comma_list parse_type parse_funtype select_loop exp2_loop exp3_loop exp4_loop
       postfix_loop parse_exp parse_exp1 parse_exp2 parse_exp3 parse_exp4 parse_exp5
       parse_exp6 parse_exp7 stmt_loop parse_stmt parse_if_stmt parse_block
       parse_while_stmt let_loop program_loop];
  subst m.

(** The structure of the bodies; [leaf] closes the recursive calls. *)
Ltac fuel_le_body leaf :=
  repeat first
    [ assumption
    | apply fuel_le_refl
    | apply fuel_le_bottom
    | leaf
    | apply fuel_le_cond
    | apply fuel_le_bind; [|intros ?] ].

Lemma comma_list_fuel {A} fuel : forall (item item' : M A) v,
  fuel_le item item' ->
  fuel_le (comma_list m_tokens fuel item v) (comma_list m_tokens (S fuel) item' v).
Proof.
  induction fuel as [|n IH]; intros item item' v Hi; [apply fuel_le_bottom|].
  unfold_fuel n. fuel_le_body ltac:(apply IH).
Qed.

Lemma list_until_fuel {A} close fuel (item item' : M A) :
  fuel_le item item' ->
  fuel_le (list_until m_tokens close fuel item) (list_until m_tokens close (S fuel) item').
Proof.
  intros Hi. unfold list_until. apply fuel_le_cond; [apply fuel_le_refl|].
  apply comma_list_fuel. assumption.
Qed.

Lemma parse_type_fuel fuel :
  fuel_le (parse_type m_tokens fuel) (parse_type m_tokens (S fuel))
  /\ fuel_le (parse_funtype m_tokens fuel) (parse_funtype m_tokens (S fuel)).
Proof.
  induction fuel as [|n [IH1 IH2]]; [split; apply fuel_le_bottom|].
  split; unfold_fuel n; fuel_le_body ltac:(apply list_until_fuel).
Qed.

Lemma parse_decl_fuel fuel :
  fuel_le (parse_decl m_tokens fuel) (parse_decl m_tokens (S fuel)).
Proof.
  unfold parse_decl. pose proof (proj1 (parse_type_fuel fuel)). fuel_le_body fail.
Qed.

Lemma select_loop_fuel fuel : forall (exp exp' exp1 exp1' : M Exp) left,
  fuel_le exp exp' -> fuel_le exp1 exp1' ->
  fuel_le (select_loop m_tokens fuel exp exp1 left)
          (select_loop m_tokens (S fuel) exp' exp1' left).
Proof.
  induction fuel as [|n IH]; intros exp exp' exp1 exp1' left H H1; [apply fuel_le_bottom|].
  unfold_fuel n. fuel_le_body ltac:(apply IH).
Qed.

Lemma exp2_loop_fuel fuel : forall (operand operand' : M Exp) left,
  fuel_le operand operand' ->
  fuel_le (exp2_loop m_tokens fuel operand left) (exp2_loop m_tokens (S fuel) operand' left).
Proof.
  induction fuel as [|n IH]; intros operand operand' left H; [apply fuel_le_bottom|].
  unfold_fuel n. fuel_le_body ltac:(apply IH).
Qed.

Lemma exp3_loop_fuel fuel : forall (operand operand' : M Exp) left,
  fuel_le operand operand' ->
  fuel_le (exp3_loop m_tokens fuel operand left) (exp3_loop m_tokens (S fuel) operand' left).
Proof.
  induction fuel as [|n IH]; intros operand operand' left H; [apply fuel_le_bottom|].
  unfold_fuel n. fuel_le_body ltac:(apply IH).
Qed.

Lemma exp4_loop_fuel fuel : forall (operand operand' : M Exp) left,
  fuel_le operand operand' ->
  fuel_le (exp4_loop m_tokens fuel operand left) (exp4_loop m_tokens (S fuel) operand' left).
Proof.
  induction fuel as [|n IH]; intros operand operand' left H; [apply fuel_le_bottom|].
  unfold_fuel n. fuel_le_body ltac:(apply IH).
Qed.

Lemma postfix_loop_fuel fuel : forall (exp exp' : M Exp) e,
  fuel_le exp exp' ->
  fuel_le (postfix_loop m_tokens fuel exp e) (postfix_loop m_tokens (S fuel) exp' e).
Proof.
  induction fuel as [|n IH]; intros exp exp' e H; [apply fuel_le_bottom|].
  unfold_fuel n. fuel_le_body ltac:(first [apply IH | apply list_until_fuel]).
Qed.

Lemma parse_exp_fuel fuel :
  fuel_le (parse_exp m_tokens fuel) (parse_exp m_tokens (S fuel))
  /\ fuel_le (parse_exp1 m_tokens fuel) (parse_exp1 m_tokens (S fuel))
  /\ fuel_le (parse_exp2 m_tokens fuel) (parse_exp2 m_tokens (S fuel))
  /\ fuel_le (parse_exp3 m_tokens fuel) (parse_exp3 m_tokens (S fuel))
  /\ fuel_le (parse_exp4 m_tokens fuel) (parse_exp4 m_tokens (S fuel))
  /\ fuel_le (parse_exp5 m_tokens fuel) (parse_exp5 m_tokens (S fuel))
  /\ fuel_le (parse_exp6 m_tokens fuel) (parse_exp6 m_tokens (S fuel))
  /\ fuel_le (parse_exp7 m_tokens fuel) (parse_exp7 m_tokens (S fuel)).
Proof.
  induction fuel as [|n (IH & IH1 & IH2 & IH3 & IH4 & IH5 & IH6 & IH7)];
    [repeat split; apply fuel_le_bottom|].
  pose proof (proj1 (parse_type_fuel n)) as Ht.
  repeat split; unfold_fuel n;
    fuel_le_body ltac:(first [ apply select_loop_fuel | apply exp2_loop_fuel
                             | apply exp3_loop_fuel | apply exp4_loop_fuel
                             | apply postfix_loop_fuel ]).
Qed.

Lemma stmt_loop_fuel fuel : forall (stmt stmt' : M Stmt) stmts,
  fuel_le stmt stmt' ->
  fuel_le (stmt_loop m_tokens fuel stmt stmts) (stmt_loop m_tokens (S fuel) stmt' stmts).
Proof.
  induction fuel as [|n IH]; intros stmt stmt' stmts H; [apply fuel_le_bottom|].
  unfold_fuel n. fuel_le_body ltac:(apply IH).
Qed.

Lemma expression_statement_fuel fuel :
  fuel_le (expression_statement m_tokens fuel) (expression_statement m_tokens (S fuel)).
Proof.
  unfold expression_statement. pose proof (proj1 (parse_exp_fuel fuel)). fuel_le_body fail.
Qed.

Lemma parse_return_stmt_fuel fuel :
  fuel_le (parse_return_stmt m_tokens fuel) (parse_return_stmt m_tokens (S fuel)).
Proof.
  unfold parse_return_stmt. pose proof (proj1 (parse_exp_fuel fuel)). fuel_le_body fail.
Qed.

Lemma parse_stmt_fuel fuel :
  fuel_le (parse_stmt m_tokens fuel) (parse_stmt m_tokens (S fuel))
  /\ fuel_le (parse_if_stmt m_tokens fuel) (parse_if_stmt m_tokens (S fuel))
  /\ fuel_le (parse_block m_tokens fuel) (parse_block m_tokens (S fuel))
  /\ fuel_le (parse_while_stmt m_tokens fuel) (parse_while_stmt m_tokens (S fuel)).
Proof.
  induction fuel as [|n (IH & IHif & IHblock & IHwhile)];
    [repeat split; apply fuel_le_bottom|].
  pose proof (proj1 (parse_exp_fuel n)) as He.
  pose proof (expression_statement_fuel n) as Hes.
  pose proof (parse_return_stmt_fuel n) as Hr.
  repeat split; unfold_fuel n; fuel_le_body ltac:(apply stmt_loop_fuel).
Qed.

Lemma let_loop_fuel fuel : forall (decl decl' : M Decl) locals,
  fuel_le decl decl' ->
  fuel_le (let_loop m_tokens fuel decl locals) (let_loop m_tokens (S fuel) decl' locals).
Proof.
  induction fuel as [|n IH]; intros decl decl' locals H; [apply fuel_le_bottom|].
  unfold_fuel n. fuel_le_body ltac:(first [apply IH | apply comma_list_fuel]).
Qed.

Lemma parse_function_def_fuel fuel :
  fuel_le (parse_function_def m_tokens fuel) (parse_function_def m_tokens (S fuel)).
Proof.
  unfold parse_function_def.
  pose proof (proj1 (parse_type_fuel fuel)).
  pose proof (parse_decl_fuel fuel).
  pose proof (proj1 (parse_stmt_fuel fuel)).
  fuel_le_body ltac:(first [ apply list_until_fuel | apply let_loop_fuel
                           | apply stmt_loop_fuel ]).
Qed.

Lemma parse_struct_def_fuel fuel :
  fuel_le (parse_struct_def m_tokens fuel) (parse_struct_def m_tokens (S fuel)).
Proof.
  unfold parse_struct_def. pose proof (parse_decl_fuel fuel).
  fuel_le_body ltac:(apply list_until_fuel).
Qed.

Lemma parse_extern_def_fuel fuel :
  fuel_le (parse_extern_def m_tokens fuel) (parse_extern_def m_tokens (S fuel)).
Proof.
  unfold parse_extern_def. pose proof (proj2 (parse_type_fuel fuel)). fuel_le_body fail.
Qed.

Lemma program_loop_fuel n : forall fuel program,
  fuel_le (program_loop m_tokens n fuel program)
          (program_loop m_tokens (S n) (S fuel) program).
Proof.
  induction n as [|n IH]; intros fuel program; [apply fuel_le_bottom|].
  pose proof (parse_struct_def_fuel fuel).
  pose proof (parse_extern_def_fuel fuel).
  pose proof (parse_function_def_fuel fuel).
  unfold_fuel n. fuel_le_body ltac:(apply IH).
Qed.

Lemma parse_program_fuel fuel :
  fuel_le (parse_program m_tokens fuel) (parse_program m_tokens (S fuel)).
Proof.
  unfold parse_program. apply fuel_le_cond; [apply fuel_le_refl|].
  apply program_loop_fuel.
Qed.

(** From one more unit of fuel to any larger fuel. *)
Lemma fuel_le_add {A} (f : nat -> M A) :
  (forall n, fuel_le (f n) (f (S n))) ->
  forall n k, fuel_le (f n) (f (n + k)).
Proof.
  intros H n k. induction k as [|k IH].
  - rewrite Nat.add_0_r. apply fuel_le_refl.
  - rewrite Nat.add_succ_r. eapply fuel_le_trans; [exact IH | apply H].
Qed.

(** What [parse] returns or throws for a fuel, it returns or throws for
    every larger fuel. *)
Lemma parse_fuel fuel k (o : outcome Program) :
  parse m_tokens fuel = o -> o <> OutOfFuel -> parse m_tokens (fuel + k) = o.
Proof.
  intros H Hne. unfold parse in *.
  destruct (fuel_le_add (parse_program m_tokens) parse_program_fuel fuel k 0) as [E|E];
    congruence.
Qed.

Lemma parse_exp_more_fuel fuel k pos (o : outcome Exp) :
  parse_exp m_tokens fuel pos = o -> o <> OutOfFuel ->
  parse_exp m_tokens (fuel + k) pos = o.
Proof.
  intros H Hne.
  destruct (fuel_le_add (parse_exp m_tokens)
              (fun n => proj1 (parse_exp_fuel n)) fuel k pos) as [E|E]; congruence.
Qed.

Lemma parse_stmt_more_fuel fuel k pos (o : outcome Stmt) :
  parse_stmt m_tokens fuel pos = o -> o <> OutOfFuel ->
  parse_stmt m_tokens (fuel + k) pos = o.
Proof.
  intros H Hne.
  destruct (fuel_le_add (parse_stmt m_tokens)
              (fun n => proj1 (parse_stmt_fuel n)) fuel k pos) as [E|E]; congruence.
Qed.

End ParserFuel.

(** Any fuel from 12 on parses [fn main() -> int { return 0; }], read back
    from what [lex] prints for it. *)
Example parse_example_main (k : nat) :
  LexMain.main "fn main() -> int { return 0; }"
    = Some ("Fn Id(main) OpenParen CloseParen Arrow Int OpenBrace Return Num(0) Semicolon CloseBrace"
            ++ String NL "")%string
  /\ Parser.parse
       (ParseMain.tokenize_input
          "Fn Id(main) OpenParen CloseParen Arrow Int OpenBrace Return Num(0) Semicolon CloseBrace")
       (12 + k)
     = Parser.Ok
         (Ast.mkProgram [] []
            [Ast.mkFunctionDef "main" [] Ast.IntType [] [Ast.Return (Ast.Num 0)]])
         11.
Proof.
  split; [vm_compute; reflexivity|].
  apply parse_fuel; [vm_compute; reflexivity | discriminate].
Qed.

(* ===================================================================== *)
(** * An expression inside parentheses *)
(* ===================================================================== *)

(** The expression parser reads at most one token ahead, and the look-ahead
    that ends an expression never asks for a close parenthesis.  So an
    expression that parses a whole stream [ts] parses in the same way when
    [ts] stands inside a longer stream, between a prefix [pre] and a close
    parenthesis. *)

Section ParserInContext.
Import Ast Parser.
Local Open Scope string_scope.

Variables (ts pre rest : list PTok.Token) (close : PTok.Token).
Hypothesis close_type : PTok.type close = "CloseParen".

Let ts' : list PTok.Token := (pre ++ ts ++ close :: rest)%list.
Let off : nat := List.length pre.
Let len : nat := List.length ts.

Local Abbreviation sim := (sim_at len off).
Local Abbreviation sim_lt := (sim_lt_at len off).
Local Abbreviation fails_at_end := (fails_at len).

Lemma nth_error_inside pos :
  pos < len -> nth_error ts' (off + pos) = nth_error ts pos.
Proof.
  intros H. unfold ts', off.
  rewrite nth_error_app2 by lia.
  replace (List.length pre + pos - List.length pre) with pos by lia.
  apply nth_error_app1. assumption.
Qed.

Lemma nth_error_close : nth_error ts' (off + len) = Some close.
Proof.
  unfold ts', off, len.
  rewrite nth_error_app2 by lia.
  replace (List.length pre + List.length ts - List.length pre) with (List.length ts) by lia.
  rewrite nth_error_app2 by lia. rewrite Nat.sub_diag. reflexivity.
Qed.

Lemma check_inside type pos :
  pos < len -> check ts' type (off + pos) = check ts type pos.
Proof.
  intros H. destruct (nth_error ts pos) as [t|] eqn:E.
  - rewrite (check_at ts pos t type E).
    apply check_at. rewrite nth_error_inside; assumption.
  - apply nth_error_None in E. unfold len in H. lia.
Qed.

Lemma check_at_len type : check ts type len = false.
Proof.
  unfold check, is_at_end. fold len. rewrite Nat.leb_refl. reflexivity.
Qed.

Lemma check_any_inside types pos :
  pos < len -> check_any ts' types (off + pos) = check_any ts types pos.
Proof.
  intros H. destruct (nth_error ts pos) as [t|] eqn:E.
  - assert (E' : nth_error ts' (off + pos) = Some t) by (rewrite nth_error_inside; assumption).
    unfold check_any.
    rewrite (is_at_end_false ts pos t E), (is_at_end_false ts' _ t E'), E, E'. reflexivity.
  - apply nth_error_None in E. unfold len in H. lia.
Qed.

Lemma check_any_at_len types : check_any ts types len = false.
Proof.
  unfold check_any, is_at_end. fold len. rewrite Nat.leb_refl. reflexivity.
Qed.

Lemma check_any_close types :
  ~ In "CloseParen" types -> check_any ts' types (off + len) = false.
Proof.
  intros H. unfold check_any.
  rewrite (is_at_end_false ts' _ close nth_error_close), nth_error_close, close_type.
  destruct (existsb (fun type => "CloseParen" =? type) types) eqn:E; [|reflexivity].
  apply existsb_exists in E. destruct E as [x [Hx Hx']].
  apply String.eqb_eq in Hx'. subst x. contradiction.
Qed.

(** ** The combinators *)

Lemma sim_ret {A} (a : A) : sim (ret a) (ret a).
Proof. intros pos v pos' Hp [= <- <-]. split; [assumption | reflexivity]. Qed.

Lemma sim_fail {A} (m m' : M A) :
  (forall pos v pos', m pos <> Ok v pos') -> sim m m'.
Proof. intros H pos v pos' _ E. exfalso. exact (H _ _ _ E). Qed.

Lemma sim_error {A} message (m' : M A) : sim (error message) m'.
Proof. apply sim_fail. intros pos v pos'. discriminate. Qed.

Lemma sim_throw {A} e (m' : M A) : sim (throw e) m'.
Proof. apply sim_fail. intros pos v pos'. discriminate. Qed.

Lemma sim_out_of_fuel {A} (m' : M A) : sim out_of_fuel m'.
Proof. apply sim_fail. intros pos v pos'. discriminate. Qed.

Lemma sim_bind {A B} (m m' : M A) (k k' : A -> M B) :
  sim m m' -> (forall a, sim (k a) (k' a)) -> sim (bind m k) (bind m' k').
Proof.
  intros Hm Hk pos v pos' Hp. unfold bind.
  destruct (m pos) as [a p1| |] eqn:E; try discriminate.
  destruct (Hm pos a p1 Hp E) as [Hp1 ->]. apply Hk. assumption.
Qed.

Lemma sim_lt_advance {A} (k k' : PTok.Token -> M A) :
  (forall t, sim (k t) (k' t)) ->
  sim_lt (bind (advance ts) k) (bind (advance ts') k').
Proof.
  intros Hk pos v pos' Hp. unfold bind.
  destruct (nth_error ts pos) as [t|] eqn:E.
  - rewrite (advance_at ts pos t E).
    rewrite (advance_at ts' (off + pos) t) by (rewrite nth_error_inside; assumption).
    intros H. replace (S (off + pos)) with (off + S pos) by lia.
    apply Hk; [lia | assumption].
  - apply nth_error_None in E. unfold len in Hp. lia.
Qed.

Lemma sim_expect type : sim (expect ts type) (expect ts' type).
Proof.
  intros pos v pos' Hp H. apply expect_ok in H. destruct H as (Hn & Ht & ->).
  assert (Hlt : pos < len) by (unfold len; apply nth_error_Some; congruence).
  split; [lia|].
  replace (off + S pos) with (S (off + pos)) by lia.
  apply expect_at; [rewrite nth_error_inside; assumption | assumption].
Qed.

Lemma sim_cond_check {A} type (a a' b b' : M A) :
  type <> "CloseParen" -> sim_lt a a' -> sim b b' ->
  sim (cond (check ts type) a b) (cond (check ts' type) a' b').
Proof.
  intros Hne Ha Hb pos v pos' Hp. unfold cond.
  destruct (Nat.eq_dec pos len) as [->|Hlt].
  - rewrite check_at_len.
    rewrite (check_at ts' _ close type nth_error_close), close_type.
    replace ("CloseParen" =? type) with false
      by (symmetry; apply String.eqb_neq; congruence).
    apply Hb. lia.
  - rewrite check_inside by lia.
    destruct (check ts type pos); [apply Ha; lia | apply Hb; lia].
Qed.

Lemma sim_cond_check_any {A} types (a a' b b' : M A) :
  ~ In "CloseParen" types -> sim_lt a a' -> sim b b' ->
  sim (cond (check_any ts types) a b) (cond (check_any ts' types) a' b').
Proof.
  intros Hne Ha Hb pos v pos' Hp. unfold cond.
  destruct (Nat.eq_dec pos len) as [->|Hlt].
  - rewrite check_any_at_len, check_any_close by assumption. apply Hb. lia.
  - rewrite check_any_inside by lia.
    destruct (check_any ts types pos); [apply Ha; lia | apply Hb; lia].
Qed.

Lemma sim_unexpected_token {A} (k k' : string -> M A) :
  (forall message, sim (k message) (k' message)) ->
  sim (bind (unexpected_token ts) k) (bind (unexpected_token ts') k').
Proof.
  intros Hk pos v pos' Hp. unfold bind, unexpected_token, bind, ret.
  destruct (nth_error ts pos) as [t|] eqn:E.
  - assert (Hlt : pos < len) by (unfold len; apply nth_error_Some; congruence).
    rewrite (peek_at ts pos t E).
    rewrite (peek_at ts' (off + pos) t) by (rewrite nth_error_inside; assumption).
    apply Hk. assumption.
  - unfold peek, cond. apply nth_error_None in E.
    replace (is_at_end ts pos) with true
      by (symmetry; unfold is_at_end; apply Nat.leb_le; assumption).
    discriminate.
Qed.

(** ** At the end of the stream *)

Lemma fails_at_end_bind {A B} (m : M A) (k : A -> M B) :
  fails_at_end m -> fails_at_end (bind m k).
Proof.
  intros H v pos'. unfold bind.
  destruct (m len) as [a p| |] eqn:E; try discriminate.
  exfalso. exact (H _ _ E).
Qed.

Lemma fails_at_end_cond_check {A} type (a b : M A) :
  fails_at_end b -> fails_at_end (cond (check ts type) a b).
Proof. intros H v pos'. unfold cond. rewrite check_at_len. apply H. Qed.

Lemma fails_at_end_cond_check_any {A} types (a b : M A) :
  fails_at_end b -> fails_at_end (cond (check_any ts types) a b).
Proof. intros H v pos'. unfold cond. rewrite check_any_at_len. apply H. Qed.

Lemma fails_at_end_out_of_fuel {A} : fails_at_end (@out_of_fuel A).
Proof. intros v pos'. discriminate. Qed.

Lemma fails_at_end_peek : fails_at_end (peek ts).
Proof.
  intros v pos'. unfold peek, cond, is_at_end. fold len.
  rewrite Nat.leb_refl. discriminate.
Qed.

Lemma fails_at_end_unexpected_token : fails_at_end (unexpected_token ts).
Proof. apply fails_at_end_bind. apply fails_at_end_peek. Qed.

Lemma fails_at_end_expect type : fails_at_end (expect ts type).
Proof. apply fails_at_end_bind. apply fails_at_end_unexpected_token. Qed.

(** ** The methods *)

Ltac step_fuel n :=
  match goal with
  | |- sim ?l ?r =>
      let l' := eval cbn [comma_list parse_type parse_funtype select_loop exp2_loop
                          exp3_loop exp4_loop postfix_loop parse_exp parse_exp1
                          parse_exp2 parse_exp3 parse_exp4 parse_exp5 parse_exp6
                          parse_exp7] in l in
      let r' := eval cbn [comma_list parse_type parse_funtype select_loop exp2_loop
                          exp3_loop exp4_loop postfix_loop parse_exp parse_exp1
                          parse_exp2 parse_exp3 parse_exp4 parse_exp5 parse_exp6
                          parse_exp7] in r in
      change (sim l' r')
  | |- fails_at_end ?l =>
      let l' := eval cbn [parse_type parse_funtype parse_exp parse_exp1
                          parse_exp2 parse_exp3 parse_exp4 parse_exp5 parse_exp6
                          parse_exp7] in l in
      change (fails_at_end l')
  end.

Ltac not_close_paren :=
  solve [ discriminate
        | let H := fresh in
          simpl; intros H;
          repeat (destruct H as [H|H]; [discriminate H|]); exact H ].

Ltac sim_body leaf :=
  repeat first
    [ assumption
    | apply sim_ret
    | apply sim_error
    | apply sim_throw
    | apply sim_out_of_fuel
    | apply sim_expect
    | leaf
    | apply sim_unexpected_token; intros ?
    | apply sim_lt_advance; intros ?
    | apply sim_cond_check; [not_close_paren | | ]
    | apply sim_cond_check_any; [not_close_paren | | ]
    | apply sim_bind; [|intros ?]
    | match goal with
      | |- sim (if ?c then _ else _) _ => destruct c
      | |- sim (match ?x with stoll_value _ => _ | _ => _ end) _ => destruct x
      end ].

Ltac fails_body :=
  repeat first
    [ assumption
    | apply fails_at_end_out_of_fuel
    | apply fails_at_end_expect
    | apply fails_at_end_unexpected_token
    | apply fails_at_end_cond_check
    | apply fails_at_end_cond_check_any
    | apply fails_at_end_bind ].

Lemma parse_type_fails_at_end fuel :
  fails_at_end (parse_type ts fuel) /\ fails_at_end (parse_funtype ts fuel).
Proof.
  induction fuel as [|n [IH1 IH2]]; [split; apply fails_at_end_out_of_fuel|].
  split; step_fuel n; fails_body.
Qed.

Lemma parse_exp_fails_at_end fuel :
  fails_at_end (parse_exp ts fuel) /\ fails_at_end (parse_exp1 ts fuel)
  /\ fails_at_end (parse_exp2 ts fuel) /\ fails_at_end (parse_exp3 ts fuel)
  /\ fails_at_end (parse_exp4 ts fuel) /\ fails_at_end (parse_exp5 ts fuel)
  /\ fails_at_end (parse_exp6 ts fuel) /\ fails_at_end (parse_exp7 ts fuel).
Proof.
  induction fuel as [|n (IH & IH1 & IH2 & IH3 & IH4 & IH5 & IH6 & IH7)];
    [repeat split; apply fails_at_end_out_of_fuel|].
  repeat split; step_fuel n; fails_body.
Qed.

Lemma comma_list_sim {A} fuel : forall (item item' : M A) v,
  sim item item' ->
  sim (comma_list ts fuel item v) (comma_list ts' fuel item' v).
Proof.
  induction fuel as [|n IH]; intros item item' v Hi; [apply sim_out_of_fuel|].
  step_fuel n. sim_body ltac:(apply IH).
Qed.

(** The one look-ahead for a close parenthesis: at the end of [ts] the
    list parser goes on to an item, which fails there. *)
Lemma list_until_close_sim {A} fuel (item item' : M A) :
  sim item item' -> fails_at_end item ->
  sim (list_until ts "CloseParen" fuel item) (list_until ts' "CloseParen" fuel item').
Proof.
  intros Hi Hf pos v pos' Hp. unfold list_until, cond.
  destruct (Nat.eq_dec pos len) as [->|Hlt].
  - rewrite check_at_len. intros H. exfalso. revert H.
    destruct fuel as [|n]; [discriminate|].
    cbn [comma_list]. apply fails_at_end_bind. assumption.
  - rewrite check_inside by lia.
    destruct (check ts "CloseParen" pos); [apply sim_ret; lia|].
    apply comma_list_sim; [assumption | lia].
Qed.

Lemma parse_type_sim fuel :
  sim (parse_type ts fuel) (parse_type ts' fuel)
  /\ sim (parse_funtype ts fuel) (parse_funtype ts' fuel).
Proof.
  induction fuel as [|n [IH1 IH2]]; [apply conj; apply sim_out_of_fuel|].
  pose proof (proj1 (parse_type_fails_at_end n)) as Hf.
  apply conj; step_fuel n; sim_body ltac:(apply list_until_close_sim).
Qed.

Lemma select_loop_sim fuel : forall (exp exp' exp1 exp1' : M Exp) left,
  sim exp exp' -> sim exp1 exp1' ->
  sim (select_loop ts fuel exp exp1 left) (select_loop ts' fuel exp' exp1' left).
Proof.
  induction fuel as [|n IH]; intros exp exp' exp1 exp1' left H H1; [apply sim_out_of_fuel|].
  step_fuel n. sim_body ltac:(apply IH).
Qed.

Lemma exp2_loop_sim fuel : forall (operand operand' : M Exp) left,
  sim operand operand' ->
  sim (exp2_loop ts fuel operand left) (exp2_loop ts' fuel operand' left).
Proof.
  induction fuel as [|n IH]; intros operand operand' left H; [apply sim_out_of_fuel|].
  step_fuel n. sim_body ltac:(apply IH).
Qed.

Lemma exp3_loop_sim fuel : forall (operand operand' : M Exp) left,
  sim operand operand' ->
  sim (exp3_loop ts fuel operand left) (exp3_loop ts' fuel operand' left).
Proof.
  induction fuel as [|n IH]; intros operand operand' left H; [apply sim_out_of_fuel|].
  step_fuel n. sim_body ltac:(apply IH).
Qed.

Lemma exp4_loop_sim fuel : forall (operand operand' : M Exp) left,
  sim operand operand' ->
  sim (exp4_loop ts fuel operand left) (exp4_loop ts' fuel operand' left).
Proof.
  induction fuel as [|n IH]; intros operand operand' left H; [apply sim_out_of_fuel|].
  step_fuel n. sim_body ltac:(apply IH).
Qed.

Lemma postfix_loop_sim fuel : forall (exp exp' : M Exp) e,
  sim exp exp' -> fails_at_end exp ->
  sim (postfix_loop ts fuel exp e) (postfix_loop ts' fuel exp' e).
Proof.
  induction fuel as [|n IH]; intros exp exp' e H Hf; [apply sim_out_of_fuel|].
  step_fuel n. sim_body ltac:(first [apply IH | apply list_until_close_sim]).
Qed.

Lemma parse_exp_sim fuel :
  sim (parse_exp ts fuel) (parse_exp ts' fuel)
  /\ sim (parse_exp1 ts fuel) (parse_exp1 ts' fuel)
  /\ sim (parse_exp2 ts fuel) (parse_exp2 ts' fuel)
  /\ sim (parse_exp3 ts fuel) (parse_exp3 ts' fuel)
  /\ sim (parse_exp4 ts fuel) (parse_exp4 ts' fuel)
  /\ sim (parse_exp5 ts fuel) (parse_exp5 ts' fuel)
  /\ sim (parse_exp6 ts fuel) (parse_exp6 ts' fuel)
  /\ sim (parse_exp7 ts fuel) (parse_exp7 ts' fuel).
Proof.
  induction fuel as [|n (IH & IH1 & IH2 & IH3 & IH4 & IH5 & IH6 & IH7)];
    [repeat apply conj; apply sim_out_of_fuel|].
  pose proof (proj1 (parse_type_sim n)) as Ht.
  pose proof (proj1 (parse_exp_fails_at_end n)) as Hf.
  repeat apply conj; step_fuel n;
    sim_body ltac:(first [ apply select_loop_sim | apply exp2_loop_sim
                         | apply exp3_loop_sim | apply exp4_loop_sim
                         | apply postfix_loop_sim ]).
Qed.

End ParserInContext.

(** The parse of [( e )] at primary position is the parse of [e]: when
    [parse_exp] parses the whole stream [ts] into [exp], [parse_exp7] on
    [ts] between an open and a close parenthesis returns [exp] too. *)
Lemma parse_exp7_in_parentheses
  (ts : list PTok.Token) (open close : PTok.Token) (fuel : nat) (exp : Ast.Exp) :
  PTok.type open = "OpenParen"%string ->
  PTok.type close = "CloseParen"%string ->
  Parser.parse_exp ts fuel 0 = Parser.Ok exp (List.length ts) ->
  Parser.parse_exp7 (open :: ts ++ [close]) (S fuel) 0
    = Parser.Ok exp (S (S (List.length ts))).
Proof.
  intros Ho Hc He.
  destruct (proj1 (parse_exp_sim ts [open] [] close Hc fuel) 0 exp (List.length ts))
    as [_ Hs]; [lia | assumption |].
  simpl in Hs.
  apply parse_exp7_open_paren.
  - rewrite (check_at _ 0 open) by reflexivity. apply String.eqb_eq. assumption.
  - exact Hs.
  - rewrite (check_at _ (S (List.length ts)) close).
    + apply String.eqb_eq. assumption.
    + simpl. rewrite nth_error_app2 by lia. rewrite Nat.sub_diag. reflexivity.
Qed.

Example parse_exp7_in_parentheses_example :
  let ts := ParseMain.tokenize_input "Id(a) Plus Num(1)" in
  Parser.parse_exp ts 20 0
    = Parser.Ok (Ast.BinOp BinaryOp.Add (Ast.Val (Ast.Id "a")) (Ast.Num 1)) 3
  /\ Parser.parse_exp7 (PTok.mk "OpenParen" "" 0 :: ts ++ [PTok.mk "CloseParen" "" 4]) 21 0
    = Parser.Ok (Ast.BinOp BinaryOp.Add (Ast.Val (Ast.Id "a")) (Ast.Num 1)) 5.
Proof. split; vm_compute; reflexivity. Qed.

(** C10. Parenthesized grouping is invisible in the AST.
    - At an open parenthesis, when [parse_exp] on the tokens after it
      returns [exp] and stops at a close parenthesis, the primary
      [parse_exp7] returns that same node [exp], with the cursor after the
      close parenthesis: no grouping node is built.
    - So the parse of [( e )] at primary position is the parse of [e]: when
      [parse_exp] parses a whole stream [ts] into [exp], [parse_exp7] on
      [ts] between an open and a close parenthesis returns [exp] too. *)
Theorem parse_exp7_grouping (fuel : nat) (exp : Ast.Exp) :
  (forall (m_tokens : list PTok.Token) (pos pos1 : nat),
      Parser.check m_tokens "OpenParen" pos = true ->
      Parser.parse_exp m_tokens fuel (S pos) = Parser.Ok exp pos1 ->
      Parser.check m_tokens "CloseParen" pos1 = true ->
      Parser.parse_exp7 m_tokens (S fuel) pos = Parser.Ok exp (S pos1))
  /\ (forall (ts : list PTok.Token) (open close : PTok.Token),
      PTok.type open = "OpenParen"%string ->
      PTok.type close = "CloseParen"%string ->
      Parser.parse_exp ts fuel 0 = Parser.Ok exp (List.length ts) ->
      Parser.parse_exp7 (open :: ts ++ [close]) (S fuel) 0
        = Parser.Ok exp (S (S (List.length ts)))).
Proof.
  split.
  - intros m_tokens pos pos1. apply parse_exp7_open_paren.
  - intros ts open close. apply parse_exp7_in_parentheses.
Qed.

Lemma parse_exp7_grouping_witness :
  let ts := ParseMain.tokenize_input "OpenParen Id(a) Plus Num(1) CloseParen Star Id(b)" in
  let inner := ParseMain.tokenize_input "Id(a) Plus Num(1)" in
  let e := Ast.BinOp BinaryOp.Add (Ast.Val (Ast.Id "a")) (Ast.Num 1) in
  (Parser.check ts "OpenParen" 0 = true /\
   Parser.parse_exp ts 20 1 = Parser.Ok e 4 /\
   Parser.check ts "CloseParen" 4 = true /\
   Parser.parse_exp7 ts (S 20) 0 = Parser.Ok e 5)
  /\ (PTok.type (PTok.mk "OpenParen" "" 0) = "OpenParen"%string /\
      PTok.type (PTok.mk "CloseParen" "" 4) = "CloseParen"%string /\
      Parser.parse_exp inner 20 0 = Parser.Ok e (List.length inner) /\
      Parser.parse_exp7
        (PTok.mk "OpenParen" "" 0 :: inner ++ [PTok.mk "CloseParen" "" 4]) (S 20) 0
        = Parser.Ok e (S (S (List.length inner)))).
Proof.
  cbv zeta. split.
  - refine (conj _ (conj _ (conj _ _))).
    1-3: vm_compute; reflexivity.
    apply (proj1 (parse_exp7_grouping 20
                    (Ast.BinOp BinaryOp.Add (Ast.Val (Ast.Id "a")) (Ast.Num 1))));
      vm_compute; reflexivity.
  - refine (conj _ (conj _ (conj _ _))).
    1-3: vm_compute; reflexivity.
    apply (proj2 (parse_exp7_grouping 20
                    (Ast.BinOp BinaryOp.Add (Ast.Val (Ast.Id "a")) (Ast.Num 1))));
      vm_compute; reflexivity.
Defined.

(* ===================================================================== *)
(** * The revised lexer, token by token *)
(* ===================================================================== *)

Section LexerWords.
Import CType.
Variable buf : list ascii.

Lemma skipn_byte_at p :
  p < List.length buf -> skipn p buf = byte_at buf p :: skipn (S p) buf.
Proof.
  unfold byte_at. revert p. induction buf as [|b l IH]; intros p Hp; simpl in Hp; [lia|].
  destruct p as [|p]; [reflexivity|]. simpl. apply IH. lia.
Qed.

Lemma lexeme_bytes first last :
  last <= List.length buf ->
  lexeme buf first last = map (byte_at buf) (seq first (last - first)).
Proof.
  unfold lexeme. remember (last - first) as n eqn:En.
  revert first En. induction n as [|n IH]; intros first En Hlen; [reflexivity|].
  rewrite skipn_byte_at by lia. cbn [firstn seq map]. f_equal. apply IH; lia.
Qed.

Lemma substr_eq_from_bytes n : forall it pattern,
  Lexer.substr_eq_from buf n it pattern = true
  <-> map (byte_at buf) (seq it n) = pattern.
Proof.
  induction n as [|n IH]; intros it pattern; simpl.
  - destruct pattern; split; congruence.
  - destruct pattern as [|c pattern]; [split; discriminate|].
    unfold is_char. destruct (Ascii.eqb_spec (byte_at buf it) c) as [->|Hne]; simpl.
    + rewrite IH. split; [intros ->; reflexivity | intros [= ->]; reflexivity].
    + split; [discriminate | intros [= ? ?]; contradiction].
Qed.

End LexerWords.

(** X1.  [substr_eq] decides whether the bytes of the range are the pattern (a
    C string, which holds no NUL byte). *)
Theorem substr_eq_lexeme (buf : list ascii) (first last : nat) (pattern : string) :
  last <= List.length buf ->
  Lexer.substr_eq buf first last pattern = true
  <-> lexeme buf first last = list_ascii_of_string pattern.
Proof.
  intros Hlen. unfold Lexer.substr_eq.
  rewrite substr_eq_from_bytes, lexeme_bytes by assumption. reflexivity.
Qed.

Lemma substr_eq_lexeme_witness :
  2 <= List.length (src "if (x)") /\
  (Lexer.substr_eq (src "if (x)") 0 2 "if" = true
   <-> lexeme (src "if (x)") 0 2 = list_ascii_of_string "if").
Proof.
  split; [vm_compute; lia|].
  apply (substr_eq_lexeme (src "if (x)") 0 2 "if"). vm_compute; lia.
Defined.

Section LexerScans.
Import CType.
Variable buf : list ascii.

Lemma substr_eq_eqb first last pattern :
  last <= List.length buf ->
  Lexer.substr_eq buf first last pattern
  = String.eqb (string_of_list_ascii (lexeme buf first last)) pattern.
Proof.
  intros Hlen. apply eq_true_iff_eq. unfold Lexer.substr_eq.
  rewrite substr_eq_from_bytes, <- lexeme_bytes by assumption.
  rewrite String.eqb_eq. split.
  - intros ->. apply string_of_list_ascii_of_string.
  - intros <-. symmetry. apply list_ascii_of_string_of_list_ascii.
Qed.

(** [identifier_scan] passes word bytes only and stops at the first byte
    that is none. *)
Lemma identifier_scan_spec n it :
  let e := Lexer.identifier_scan buf n it in
  (forall j, it <= j < e -> is_word_byte (byte_at buf j) = true) /\
  (e < it + n -> is_word_byte (byte_at buf e) = false).
Proof.
  revert it; induction n as [|n IH]; intros it; simpl.
  - split; intros; lia.
  - fold (is_word_byte (byte_at buf it)).
    destruct (is_word_byte (byte_at buf it)) eqn:E; simpl.
    + destruct (IH (S it)) as [H1 H2]. split.
      * intros j Hj. destruct (Nat.eq_dec j it) as [->|]; [assumption | apply H1; lia].
      * intros H. apply H2. lia.
    + split; [intros; lia | auto].
Qed.

Lemma numeric_scan_stops n it :
  let e := Lexer.numeric_scan buf n it in
  e < it + n -> isdigit (byte_at buf e) = false.
Proof.
  revert it; induction n as [|n IH]; intros it; simpl; [lia|].
  destruct (isdigit (byte_at buf it)) eqn:E; simpl; [|auto].
  intros H. apply IH. lia.
Qed.

Lemma isdigit_not_alpha c : isdigit c = true -> isalpha c = false.
Proof.
  destruct c as [[] [] [] [] [] [] [] []]; vm_compute; congruence.
Qed.

Lemma whitespace_scan_stops n it :
  let w := Lexer.whitespace_scan buf n it in
  w < it + n -> isspace (byte_at buf w) = false.
Proof.
  revert it; induction n as [|n IH]; intros it; simpl; [lia|].
  destruct (isspace (byte_at buf it)) eqn:E; [|auto].
  intros H. apply IH. lia.
Qed.

End LexerScans.

Lemma munch_token_word_spec (buf : list ascii) (first last : nat) :
  first < last -> last <= List.length buf ->
  CType.isalpha (byte_at buf first) = true ->
  let t := Lexer.munch_token buf first last in
  Tok.first t = first /\ first < Tok.last t <= last /\
  (forall j, first <= j < Tok.last t -> is_word_byte (byte_at buf j) = true) /\
  (Tok.last t < last -> is_word_byte (byte_at buf (Tok.last t)) = false) /\
  Tok.token_type t
  = word_kind (string_of_list_ascii (lexeme buf first (Tok.last t))).
Proof.
  intros Hlt Hlen Ha t.
  pose proof (identifier_end_progress buf first last Hlt Ha) as Hp.
  assert (Ht : t = Tok.mk
                 (word_kind (string_of_list_ascii
                    (lexeme buf first (Lexer.identifier_end buf first last))))
                 first (Lexer.identifier_end buf first last)).
  { unfold t, Lexer.munch_token.
    replace (first =? last) with false by (symmetry; apply Nat.eqb_neq; lia).
    rewrite Ha. cbv zeta.
    rewrite !substr_eq_eqb by lia.
    unfold word_kind, keywords. cbn [List.find fst snd].
    repeat match goal with
           | |- context [String.eqb ?a ?b] => destruct (String.eqb a b)
           end; reflexivity. }
  rewrite Ht. cbn [Tok.first Tok.last Tok.token_type].
  split; [reflexivity|]. split; [exact Hp|].
  assert (He : Lexer.identifier_end buf first last
               = Lexer.identifier_scan buf (last - first) first).
  { unfold Lexer.identifier_end. rewrite Ha.
    replace (first =? last) with false by (symmetry; apply Nat.eqb_neq; lia).
    reflexivity. }
  destruct (identifier_scan_spec buf (last - first) first) as [H1 H2].
  rewrite <- He in H1, H2.
  split; [exact H1|]. split; [|reflexivity].
  intros H. apply H2. lia.
Qed.


(** Only a letter starts an [Id] token, and only a digit a [Num] token. *)
Lemma munch_token_id_num (buf : list ascii) (first last : nat) :
  first < last ->
  (Tok.token_type (Lexer.munch_token buf first last) = TokenType.Id ->
   CType.isalpha (byte_at buf first) = true) /\
  (Tok.token_type (Lexer.munch_token buf first last) = TokenType.Num ->
   CType.isdigit (byte_at buf first) = true).
Proof.
  intros Hlt. unfold Lexer.munch_token.
  replace (first =? last) with false by (symmetry; apply Nat.eqb_neq; lia).
  destruct (CType.isalpha (byte_at buf first)) eqn:Ha.
  { split; [reflexivity|].
    repeat match goal with
           | |- context [if ?c then _ else _] => destruct c
           end; simpl; discriminate. }
  destruct (CType.isdigit (byte_at buf first)) eqn:Hd.
  { split; [discriminate | reflexivity]. }
  assert (Hs : forall k, Lexer.single_char (byte_at buf first) = Some k ->
                 k <> TokenType.Id /\ k <> TokenType.Num).
  { intros k. clear.
    destruct (byte_at buf first) as [[] [] [] [] [] [] [] []]; vm_compute;
      intros [= <-]; split; discriminate. }
  repeat match goal with
         | |- context [if ?c then _ else _] => destruct c
         end; simpl; try (split; discriminate).
  destruct (Lexer.single_char (byte_at buf first)) as [k|] eqn:Ek; simpl;
    [|split; discriminate].
  destruct (Hs k eq_refl). split; congruence.
Qed.

(** X2.  A word.  At a letter, [munch_token] takes the longest run of letters,
    digits and underscores, and the token is the keyword token when the
    whole run is a reserved word, an [Id] token otherwise. *)
Theorem munch_token_word (buf : list ascii) (first last : nat) :
  first < last -> last <= List.length buf ->
  CType.isalpha (byte_at buf first) = true ->
  let t := Lexer.munch_token buf first last in
  Tok.first t = first /\ first < Tok.last t <= last /\
  (forall j, first <= j < Tok.last t -> is_word_byte (byte_at buf j) = true) /\
  (Tok.last t < last -> is_word_byte (byte_at buf (Tok.last t)) = false) /\
  Tok.token_type t
  = word_kind (string_of_list_ascii (lexeme buf first (Tok.last t))).
Proof. apply munch_token_word_spec. Qed.

Lemma munch_token_word_witness :
  0 < 6 /\ 6 <= List.length (src "iffy x") /\
  CType.isalpha (byte_at (src "iffy x") 0) = true /\
  let t := Lexer.munch_token (src "iffy x") 0 6 in
  Tok.first t = 0 /\ 0 < Tok.last t <= 6 /\
  (forall j, 0 <= j < Tok.last t -> is_word_byte (byte_at (src "iffy x") j) = true) /\
  (Tok.last t < 6 -> is_word_byte (byte_at (src "iffy x") (Tok.last t)) = false) /\
  Tok.token_type t
  = word_kind (string_of_list_ascii (lexeme (src "iffy x") 0 (Tok.last t))).
Proof.
  refine (conj _ (conj _ (conj _ _))).
  1: lia.
  1: vm_compute; lia.
  1: vm_compute; reflexivity.
  apply (munch_token_word (src "iffy x") 0 6); [lia | vm_compute; lia | vm_compute; reflexivity].
Defined.

Lemma munch_token_number_spec (buf : list ascii) (first last : nat) :
  first < last -> CType.isdigit (byte_at buf first) = true ->
  let t := Lexer.munch_token buf first last in
  Tok.token_type t = TokenType.Num /\
  Tok.first t = first /\ first < Tok.last t <= last /\
  (forall j, first <= j < Tok.last t -> CType.isdigit (byte_at buf j) = true) /\
  (Tok.last t < last -> CType.isdigit (byte_at buf (Tok.last t)) = false).
Proof.
  intros Hlt Hd t.
  pose proof (numeric_end_progress buf first last Hlt Hd) as Hp.
  assert (Ht : t = Tok.mk TokenType.Num first (Lexer.numeric_end buf first last)).
  { unfold t, Lexer.munch_token.
    replace (first =? last) with false by (symmetry; apply Nat.eqb_neq; lia).
    rewrite (isdigit_not_alpha _ Hd), Hd. reflexivity. }
  rewrite Ht. cbn [Tok.first Tok.last Tok.token_type].
  assert (He : Lexer.numeric_end buf first last
               = Lexer.numeric_scan buf (last - first) first).
  { unfold Lexer.numeric_end. rewrite Hd.
    replace (first =? last) with false by (symmetry; apply Nat.eqb_neq; lia).
    reflexivity. }
  repeat apply conj; try reflexivity; try lia.
  - intros j Hj. rewrite He in Hj. eapply numeric_scan_digits. exact Hj.
  - intros H. rewrite He. apply numeric_scan_stops. rewrite <- He. lia.
Qed.

(** X3.  A number.  At a digit, [munch_token] takes the longest run of digits
    as a [Num] token. *)
Theorem munch_token_number (buf : list ascii) (first last : nat) :
  first < last -> CType.isdigit (byte_at buf first) = true ->
  let t := Lexer.munch_token buf first last in
  Tok.token_type t = TokenType.Num /\
  Tok.first t = first /\ first < Tok.last t <= last /\
  (forall j, first <= j < Tok.last t -> CType.isdigit (byte_at buf j) = true) /\
  (Tok.last t < last -> CType.isdigit (byte_at buf (Tok.last t)) = false).
Proof. apply munch_token_number_spec. Qed.

Lemma munch_token_number_witness :
  0 < 5 /\ CType.isdigit (byte_at (src "12ab;") 0) = true /\
  let t := Lexer.munch_token (src "12ab;") 0 5 in
  Tok.token_type t = TokenType.Num /\
  Tok.first t = 0 /\ 0 < Tok.last t <= 5 /\
  (forall j, 0 <= j < Tok.last t -> CType.isdigit (byte_at (src "12ab;") j) = true) /\
  (Tok.last t < 5 -> CType.isdigit (byte_at (src "12ab;") (Tok.last t)) = false).
Proof.
  refine (conj _ (conj _ _)).
  1: lia.
  1: vm_compute; reflexivity.
  apply (munch_token_number (src "12ab;") 0 5); [lia | vm_compute; reflexivity].
Defined.

Section LexerStream.
Import CType.
Variable buf : list ascii.

Lemma skip_loop_stops fuel : forall it last next,
  it <= last ->
  Lexer.skip_loop fuel buf it last = Some (next, None) ->
  next < last ->
  isspace (byte_at buf next) = false /\ ~ opens_comment buf next last.
Proof.
  induction fuel as [|fuel IH]; intros it last next Hle; [discriminate|].
  simpl.
  pose proof (whitespace_scan_bounds buf (last - it) it) as Hws.
  pose proof (whitespace_scan_stops buf (last - it) it) as Hstop.
  cbv zeta in Hstop.
  set (w := Lexer.whitespace_scan buf (last - it) it) in *. clearbody w.
  assert (Hdone : (w + 1 <? last) && is_char (byte_at buf w) "/" = false
                    \/ (is_char (byte_at buf (w + 1)) "/" = false
                        /\ is_char (byte_at buf (w + 1)) "*" = false) ->
            w < last -> isspace (byte_at buf w) = false /\ ~ opens_comment buf w last).
  { intros Hc Hlt. split; [apply Hstop; lia|].
    intros (Hw & Hs & Hs2). unfold is_char in Hc.
    destruct Hc as [Hc|[Hc1 Hc2]].
    - apply andb_false_iff in Hc. destruct Hc as [Hc|Hc].
      + apply Nat.ltb_ge in Hc. lia.
      + rewrite Hs in Hc. discriminate.
    - destruct Hs2 as [Hs2|Hs2]; rewrite Hs2 in *; discriminate. }
  destruct ((w + 1 <? last) && is_char (byte_at buf w) "/") eqn:Hc; simpl.
  2:{ intros [= <-] Hlt. apply Hdone; [left; reflexivity | assumption]. }
  apply andb_true_iff in Hc. destruct Hc as [Hw Hs]. apply Nat.ltb_lt in Hw.
  destruct (is_char (byte_at buf (w + 1)) "/") eqn:Hs2; simpl.
  - pose proof (line_scan_bounds buf (last - (w + 2)) (w + 2)) as Hl.
    set (l := Lexer.line_scan buf (last - (w + 2)) (w + 2)) in *. clearbody l.
    destruct (l =? last) eqn:El; [discriminate|]. simpl.
    apply Nat.eqb_neq in El. apply IH.
    destruct (is_char (byte_at buf l) NL); lia.
  - destruct (is_char (byte_at buf (w + 1)) "*") eqn:Hs3; simpl.
    + destruct (Lexer.block_scan buf (last - (w + 2)) (w + 2)) as [b|] eqn:Eb; [|discriminate].
      apply block_scan_bounds in Eb. apply IH. lia.
    + intros [= <-] Hlt. apply Hdone; [right; split; reflexivity | assumption].
Qed.

Lemma in_order_weaken tokens : forall p q q',
  in_order p tokens q -> q <= q' -> in_order p tokens q'.
Proof.
  induction tokens as [|t rest IH]; intros p q q'; simpl; [lia|].
  intros (H1 & H2 & H3) Hq. eauto.
Qed.

Lemma in_order_app tokens : forall p q tokens' r,
  in_order p tokens q -> in_order q tokens' r -> in_order p (tokens ++ tokens') r.
Proof.
  induction tokens as [|t rest IH]; intros p q tokens' r; simpl.
  - intros Hp H. destruct tokens' as [|t' rest']; simpl in *; [lia|].
    destruct H as (H1 & H2 & H3). repeat split; try assumption; lia.
  - intros (H1 & H2 & H3) H. repeat split; try assumption. eauto.
Qed.

Lemma lex_loop_in_order fuel : forall curr last tokens result p,
  curr <= last -> in_order p tokens curr ->
  Lexer.lex_loop fuel buf curr last tokens = Some result ->
  in_order p result last.
Proof.
  induction fuel as [|fuel IH]; intros curr last tokens result p Hle Hin; [discriminate|].
  simpl. destruct (curr =? last) eqn:E.
  { intros [= <-]. eapply in_order_weaken; eassumption. }
  destruct (skip_whitespace_and_comments_total buf curr last Hle) as [[next o] [-> [Hb Ho]]].
  simpl in Hb, Ho. destruct o as [e|].
  - intros [= <-]. eapply in_order_app; [eassumption|].
    simpl. destruct Ho as (_ & _ & ? & ? & ? & _). lia.
  - destruct (next =? last) eqn:E2.
    { intros [= <-]. eapply in_order_weaken; [eassumption | lia]. }
    apply Nat.eqb_neq in E2.
    pose proof (munch_token_progress buf next last ltac:(lia)) as Hp.
    pose proof (munch_token_first buf next last) as Hf.
    apply IH; [lia|].
    eapply in_order_app; [eassumption|]. simpl. lia.
Qed.

Lemma lex_loop_lexed_at fuel : forall curr last tokens result,
  curr <= last -> Forall (lexed_at buf last) tokens ->
  Lexer.lex_loop fuel buf curr last tokens = Some result ->
  Forall (lexed_at buf last) result.
Proof.
  induction fuel as [|fuel IH]; intros curr last tokens result Hle Hall; [discriminate|].
  simpl. destruct (curr =? last) eqn:E.
  { intros [= <-]. assumption. }
  destruct (Lexer.skip_whitespace_and_comments buf curr last) as [[next o]|] eqn:Es;
    [|discriminate].
  destruct (skip_whitespace_and_comments_total buf curr last Hle) as [r [Hr [Hb Ho]]].
  rewrite Es in Hr. injection Hr as <-. simpl in Hb, Ho.
  destruct o as [e|].
  - intros [= <-]. apply Forall_app. split; [assumption|].
    constructor; [|constructor]. right. tauto.
  - destruct (next =? last) eqn:E2.
    { intros [= <-]. assumption. }
    apply Nat.eqb_neq in E2.
    pose proof (munch_token_progress buf next last ltac:(lia)) as Hp.
    pose proof (munch_token_first buf next last) as Hf.
    apply IH; [lia|].
    apply Forall_app. split; [assumption|].
    constructor; [|constructor]. left. rewrite Hf.
    split; [lia|]. split; [reflexivity|].
    apply (skip_loop_stops _ curr last next Hle Es). lia.
Qed.

End LexerStream.

(** X6.  Where the skipper stops without a token, there is no white space and
    no comment opener: the byte at the cursor belongs to the next token. *)
Theorem skip_whitespace_and_comments_stops (buf : list ascii) (first last next : nat) :
  first <= last ->
  Lexer.skip_whitespace_and_comments buf first last = Some (next, None) ->
  first <= next <= last /\
  (next < last ->
   CType.isspace (byte_at buf next) = false /\ ~ opens_comment buf next last).
Proof.
  intros Hle Hs.
  destruct (skip_whitespace_and_comments_total buf first last Hle) as [r [Hr [Hb _]]].
  rewrite Hs in Hr. injection Hr as <-. simpl in Hb.
  split; [exact Hb|]. apply (skip_loop_stops buf _ first last next Hle Hs).
Qed.

Lemma skip_whitespace_and_comments_stops_witness :
  0 <= 12 /\
  Lexer.skip_whitespace_and_comments (src "  /* c */ /x") 0 12 = Some (10, None) /\
  0 <= 10 <= 12 /\
  (10 < 12 ->
   CType.isspace (byte_at (src "  /* c */ /x") 10) = false
   /\ ~ opens_comment (src "  /* c */ /x") 10 12).
Proof.
  refine (conj _ (conj _ _)).
  1: lia.
  1: vm_compute; reflexivity.
  apply (skip_whitespace_and_comments_stops (src "  /* c */ /x") 0 12 10);
    [lia | vm_compute; reflexivity].
Defined.

(** X7.  The tokens of [lex] are laid out in the buffer in the order of the
    list: every token is non-empty, ends where the next one starts or
    before, and the last one ends inside the buffer. *)
Theorem lex_tokens_in_order (buf : list ascii) :
  exists tokens,
    Lexer.lex buf = Some tokens /\ in_order 0 tokens (List.length buf).
Proof.
  destruct (lex_loop_total buf (S (List.length buf - 0)) 0 (List.length buf) [])
    as [tokens Ht]; [lia | lia |].
  exists tokens. split; [exact Ht|].
  eapply lex_loop_in_order; [| | exact Ht]; simpl; lia.
Qed.

(** X8.  Every token of [lex] is the one [munch_token] finds at its first byte,
    which is no white space and opens no comment, unless it is the [Error]
    token of a comment that is not closed. *)
Theorem lex_tokens_munched (buf : list ascii) (tokens : list Token) (t : Token) :
  Lexer.lex buf = Some tokens -> In t tokens ->
  lexed_at buf (List.length buf) t.
Proof.
  intros Hl Hin.
  assert (H : Forall (lexed_at buf (List.length buf)) tokens).
  { eapply lex_loop_lexed_at; [| | exact Hl]; [lia | constructor]. }
  rewrite Forall_forall in H. apply H. assumption.
Qed.

Lemma lex_tokens_munched_witness :
  Lexer.lex (src "a / b") = Some [Tok.mk TokenType.Id 0 1; Tok.mk TokenType.Slash 2 3;
                                  Tok.mk TokenType.Id 4 5] /\
  In (Tok.mk TokenType.Slash 2 3)
     [Tok.mk TokenType.Id 0 1; Tok.mk TokenType.Slash 2 3; Tok.mk TokenType.Id 4 5] /\
  lexed_at (src "a / b") (List.length (src "a / b")) (Tok.mk TokenType.Slash 2 3).
Proof.
  refine (conj _ (conj _ _)).
  1: vm_compute; reflexivity.
  1: right; left; reflexivity.
  apply (lex_tokens_munched (src "a / b")
           [Tok.mk TokenType.Id 0 1; Tok.mk TokenType.Slash 2 3; Tok.mk TokenType.Id 4 5]);
    [vm_compute; reflexivity | right; left; reflexivity].
Defined.

(** X10.  [starts_token], with which [error_end] finds the end of an [Error]
    token, agrees with [munch_token]: inside the range it is true exactly
    where [munch_token] finds a token that is no [Error]. *)
Theorem starts_token_iff_munch_token (buf : list ascii) (first last : nat) :
  first < last ->
  (Lexer.starts_token buf first last = true
   <-> Tok.token_type (Lexer.munch_token buf first last) <> TokenType.Error).
Proof.
  intros Hlt. pose proof (starts_token_munch buf first last Hlt) as [H1 H2].
  destruct (Lexer.starts_token buf first last).
  - split; [|reflexivity]. intros _ He. specialize (H2 He). discriminate.
  - split; [discriminate|]. intros Hne. exfalso. apply Hne. apply H1. reflexivity.
Qed.

Lemma starts_token_iff_munch_token_witness :
  1 < 4 /\
  (Lexer.starts_token (src "@ 7+") 1 4 = true
   <-> Tok.token_type (Lexer.munch_token (src "@ 7+") 1 4) <> TokenType.Error).
Proof.
  split; [lia|]. apply (starts_token_iff_munch_token (src "@ 7+") 1 4). lia.
Defined.

(** X11.  A line comment without a newline.  When, after the white space at
    the cursor, a [//] opens and no newline follows before [last], [lex]
    returns the tokens it has, followed by one [Error] token from the [//]
    to [last]. *)
Theorem lex_line_comment_without_newline
  (buf : list ascii) (fuel curr last : nat) (tokens : list Token) :
  let w := Lexer.whitespace_scan buf (last - curr) curr in
  w + 1 < last -> byte_at buf w = "/" -> byte_at buf (w + 1) = "/" ->
  (forall j, w + 2 <= j < last -> byte_at buf j <> NL) ->
  Lexer.lex_loop (S fuel) buf curr last tokens
  = Some (tokens ++ [Tok.mk TokenType.Error w last]).
Proof.
  intros w Hw H0 H1 Hno.
  pose proof (whitespace_scan_bounds buf (last - curr) curr) as Hws. fold w in Hws.
  apply lex_loop_skipper_error with (next := last); [lia|].
  unfold Lexer.skip_whitespace_and_comments.
  apply skip_loop_unterminated_line; assumption.
Qed.

Lemma lex_line_comment_without_newline_witness :
  let w := Lexer.whitespace_scan (src "x // c") (6 - 1) 1 in
  w + 1 < 6 /\ byte_at (src "x // c") w = "/" /\ byte_at (src "x // c") (w + 1) = "/" /\
  (forall j, w + 2 <= j < 6 -> byte_at (src "x // c") j <> NL) /\
  Lexer.lex_loop (S 5) (src "x // c") 1 6 [Tok.mk TokenType.Id 0 1]
  = Some ([Tok.mk TokenType.Id 0 1] ++ [Tok.mk TokenType.Error w 6]).
Proof.
  assert (Hno : forall j, 2 + 2 <= j < 6 -> byte_at (src "x // c") j <> NL).
  { intros j Hj.
    assert (Hc : j = 4 \/ j = 5) by lia.
    destruct Hc as [-> | ->]; vm_compute; discriminate. }
  refine (conj _ (conj _ (conj _ (conj _ _)))).
  1: vm_compute; lia.
  1-2: vm_compute; reflexivity.
  1: exact Hno.
  apply (lex_line_comment_without_newline (src "x // c") 5 1 6 [Tok.mk TokenType.Id 0 1]);
    [vm_compute; lia | vm_compute; reflexivity | vm_compute; reflexivity | exact Hno].
Defined.

(* ===================================================================== *)
(** * More on the earlier copy of the lexer *)
(* ===================================================================== *)

Section LexerV1Progress.
Import CType.
Variable buf : list ascii.

Lemma v1_error_scan_bounds n it :
  it <= LexerV1.error_scan buf n it <= it + n.
Proof.
  revert it; induction n as [|n IH]; intros it; simpl; [lia|].
  destruct (_ || _); [|specialize (IH (S it))]; lia.
Qed.

Lemma v1_block_scan_bounds n it r :
  LexerV1.block_scan buf n it = Some r -> it + 2 <= r <= it + n.
Proof.
  revert it; induction n as [|n IH]; intros it; simpl; [discriminate|].
  destruct n as [|n]; [discriminate|].
  destruct (negb _).
  - intros H. apply IH in H. lia.
  - intros [= <-]. lia.
Qed.

Lemma v1_munch_token_progress first last :
  first < last ->
  Tok.first (LexerV1.munch_token buf first last) = first /\
  first < Tok.last (LexerV1.munch_token buf first last) <= last.
Proof.
  intros Hlt. unfold LexerV1.munch_token.
  replace (first =? last) with false by (symmetry; apply Nat.eqb_neq; lia).
  destruct (isalpha (byte_at buf first)) eqn:Ha.
  - pose proof (identifier_end_progress buf first last Hlt Ha).
    unfold LexerV1.identifier_end.
    repeat match goal with
           | |- context [if ?c then _ else _] => destruct c
           end; simpl; lia.
  - destruct (isdigit (byte_at buf first)) eqn:Hd.
    + pose proof (numeric_end_progress buf first last Hlt Hd).
      unfold LexerV1.numeric_end. simpl; lia.
    + pose proof (v1_error_scan_bounds (last - (first + 1)) (first + 1)).
      unfold LexerV1.error_end.
      destruct (2 <=? last - first) eqn:H2; simpl.
      * apply Nat.leb_le in H2.
        repeat match goal with
               | |- context [if ?c then _ else _] => destruct c
               | |- context [match ?c with Some _ => _ | None => _ end] => destruct c
               end; simpl; lia.
      * destruct (LexerV1.single_char (byte_at buf first)); simpl; lia.
Qed.

Lemma v1_skip_loop_total fuel : forall it last,
  it <= last -> last - it < fuel ->
  exists r, LexerV1.skip_loop fuel buf it last = Some r /\ it <= fst r <= last.
Proof.
  induction fuel as [|fuel IH]; intros it last Hle Hfuel; [lia|].
  simpl.
  pose proof (whitespace_scan_bounds buf (last - it) it) as Hws.
  set (w := Lexer.whitespace_scan buf (last - it) it) in *. clearbody w.
  destruct (w + 1 <? last) eqn:Hw; simpl.
  2:{ eexists; split; [reflexivity|]. simpl; lia. }
  apply Nat.ltb_lt in Hw.
  destruct (is_char (byte_at buf w) "/") eqn:Hs; simpl.
  2:{ eexists; split; [reflexivity|]. simpl; lia. }
  destruct (is_char (byte_at buf (w + 1)) "/") eqn:Hs2; simpl.
  - pose proof (line_scan_bounds buf (last - (w + 2)) (w + 2)) as Hl.
    set (l := Lexer.line_scan buf (last - (w + 2)) (w + 2)) in *. clearbody l.
    destruct (IH l last) as [r [Hr Hb]]; [lia | lia |].
    exists r. split; [exact Hr | lia].
  - destruct (is_char (byte_at buf (w + 1)) "*") eqn:Hs3; simpl.
    + destruct (LexerV1.block_scan buf (last - (w + 2)) (w + 2)) as [b|] eqn:Eb.
      * apply v1_block_scan_bounds in Eb.
        destruct (IH b last) as [r [Hr Hb]]; [lia | lia |].
        exists r. split; [exact Hr | lia].
      * eexists; split; [reflexivity|]. simpl; lia.
    + eexists; split; [reflexivity|]. simpl; lia.
Qed.

Lemma v1_lex_loop_total fuel : forall curr last tokens,
  curr <= last -> last - curr < fuel ->
  exists result, LexerV1.lex_loop fuel buf curr last tokens = Some result.
Proof.
  induction fuel as [|fuel IH]; intros curr last tokens Hle Hfuel; [lia|].
  simpl. destruct (curr =? last) eqn:E; [eauto|].
  apply Nat.eqb_neq in E.
  destruct (v1_skip_loop_total (S (last - curr)) curr last Hle) as [[next o] [Hr Hb]]; [lia|].
  unfold LexerV1.skip_whitespace_and_comments. rewrite Hr.
  simpl in Hb. destruct o as [t|]; [eauto|].
  destruct (next =? last) eqn:E2; [eauto|].
  apply Nat.eqb_neq in E2.
  pose proof (v1_munch_token_progress next last ltac:(lia)).
  apply IH; lia.
Qed.

End LexerV1Progress.

(** X12.  The earlier copy of [lex] returns too, on every range of every
    buffer. *)
Theorem lexer_v1_terminates (buf : list ascii) (first last : nat) :
  first <= last ->
  exists tokens, LexerV1.lex_range buf first last = Some tokens.
Proof.
  intros Hle. apply v1_lex_loop_total; [assumption | lia].
Qed.

Lemma lexer_v1_terminates_witness :
  0 <= 6 /\ exists tokens, LexerV1.lex_range (src "a != b") 0 6 = Some tokens.
Proof.
  split; [lia|]. apply (lexer_v1_terminates (src "a != b") 0 6). lia.
Defined.

(** X13.  In the earlier copy, a digraph at the cursor becomes its two-byte
    token exactly when a NUL byte follows it, which in a source text
    without NUL bytes is the end of the buffer: [strcmp] compares up to the
    terminator. *)
Theorem lexer_v1_two_char_at_end_only (buf : list ascii) (first last : nat)
  (k : TokenType.t) :
  first + 2 <= last ->
  two_char_kind (byte_at buf first) (byte_at buf (first + 1)) = Some k ->
  (LexerV1.munch_token buf first last = Tok.mk k first (first + 2)
   <-> byte_at buf (first + 2) = zero).
Proof.
  intros Hlen Hk. unfold LexerV1.munch_token, LexerV1.strcmp0.
  replace (first =? last) with false by (symmetry; apply Nat.eqb_neq; lia).
  replace (2 <=? last - first) with true by (symmetry; apply Nat.leb_le; lia).
  cbn [list_ascii_of_string LexerV1.strcmp_eq andb].
  replace (S first) with (first + 1) by lia.
  replace (S (first + 1)) with (first + 2) by lia.
  revert Hk. unfold two_char_kind, LexerV1.error_end.
  pose proof (v1_error_scan_bounds buf (last - (first + 1)) (first + 1)) as He.
  set (e := LexerV1.error_scan buf (last - (first + 1)) (first + 1)) in *. clearbody e.
  set (c0 := byte_at buf first). set (c1 := byte_at buf (first + 1)).
  set (c2 := byte_at buf (first + 2)).
  unfold is_char.
  destruct (Ascii.eqb_spec c2 zero) as [Hz|Hz].
  - repeat match goal with
           | |- context [Ascii.eqb ?a ?b] =>
               destruct (Ascii.eqb_spec a b) as [->|?]
           end; simpl; try discriminate; try congruence;
      intros [= <-]; split; auto.
  - repeat match goal with
           | |- context [Ascii.eqb ?a ?b] =>
               destruct (Ascii.eqb_spec a b) as [->|?]
           end; simpl; try discriminate; try congruence;
      intros [= <-]; split; try contradiction; intros [= ?]; lia.
Qed.

Lemma lexer_v1_two_char_at_end_only_witness :
  2 + 2 <= 6 /\
  two_char_kind (byte_at (src "a != b") 2) (byte_at (src "a != b") (2 + 1))
    = Some TokenType.NotEq /\
  (LexerV1.munch_token (src "a != b") 2 6 = Tok.mk TokenType.NotEq 2 (2 + 2)
   <-> byte_at (src "a != b") (2 + 2) = zero).
Proof.
  refine (conj _ (conj _ _)).
  1: lia.
  1: vm_compute; reflexivity.
  apply (lexer_v1_two_char_at_end_only (src "a != b") 2 6 TokenType.NotEq);
    [lia | vm_compute; reflexivity].
Defined.

(** X14.  In the earlier copy, a line comment with no newline before the end of
    the range is skipped and leaves no token: when, after the white space
    at the cursor, a [//] opens and no newline follows, [lex] returns the
    tokens it has. *)
Theorem lexer_v1_unterminated_line_comment
  (buf : list ascii) (fuel curr last : nat) (tokens : list Token) :
  let w := Lexer.whitespace_scan buf (last - curr) curr in
  w + 1 < last -> byte_at buf w = "/" -> byte_at buf (w + 1) = "/" ->
  (forall j, w + 2 <= j < last -> byte_at buf j <> NL) ->
  LexerV1.lex_loop (S fuel) buf curr last tokens = Some tokens.
Proof.
  intros w Hw H0 H1 Hno.
  pose proof (whitespace_scan_bounds buf (last - curr) curr) as Hws. fold w in Hws.
  assert (Hs : LexerV1.skip_whitespace_and_comments buf curr last = Some (last, None)).
  { unfold LexerV1.skip_whitespace_and_comments.
    replace (S (last - curr)) with (S (S (last - curr - 1))) by lia.
    remember (S (last - curr - 1)) as m eqn:Em. cbn [LexerV1.skip_loop]. fold w. cbv zeta.
    replace (w + 1 <? last) with true by (symmetry; apply Nat.ltb_lt; lia).
    unfold is_char. rewrite H0, H1. simpl andb. cbv iota.
    rewrite line_scan_to_end by (intros j ?; apply Hno; lia).
    replace (w + 2 + (last - (w + 2))) with last by lia.
    subst m. cbn [LexerV1.skip_loop]. rewrite Nat.sub_diag. cbn [Lexer.whitespace_scan].
    replace (last + 1 <? last) with false by (symmetry; apply Nat.ltb_ge; lia).
    reflexivity. }
  cbn [LexerV1.lex_loop].
  replace (curr =? last) with false by (symmetry; apply Nat.eqb_neq; lia).
  rewrite Hs, Nat.eqb_refl. reflexivity.
Qed.

Lemma lexer_v1_unterminated_line_comment_witness :
  let w := Lexer.whitespace_scan (src "x // c") (6 - 1) 1 in
  w + 1 < 6 /\ byte_at (src "x // c") w = "/" /\ byte_at (src "x // c") (w + 1) = "/" /\
  (forall j, w + 2 <= j < 6 -> byte_at (src "x // c") j <> NL) /\
  LexerV1.lex_loop (S 5) (src "x // c") 1 6 [Tok.mk TokenType.Id 0 1]
  = Some [Tok.mk TokenType.Id 0 1].
Proof.
  assert (Hno : forall j, 2 + 2 <= j < 6 -> byte_at (src "x // c") j <> NL).
  { intros j Hj.
    assert (Hc : j = 4 \/ j = 5) by lia.
    destruct Hc as [-> | ->]; vm_compute; discriminate. }
  refine (conj _ (conj _ (conj _ (conj _ _)))).
  1: vm_compute; lia.
  1-2: vm_compute; reflexivity.
  1: exact Hno.
  apply (lexer_v1_unterminated_line_comment (src "x // c") 5 1 6 [Tok.mk TokenType.Id 0 1]);
    [vm_compute; lia | vm_compute; reflexivity | vm_compute; reflexivity | exact Hno].
Defined.

(* ===================================================================== *)
(** * The token line between [lex] and [parse] *)
(* ===================================================================== *)

Section Strings.

Lemma append_nil_r s : (s ++ "")%string = s.
Proof. induction s as [|c s IH]; simpl; [reflexivity | rewrite IH; reflexivity]. Qed.

Lemma append_assoc s1 s2 s3 : ((s1 ++ s2) ++ s3)%string = (s1 ++ (s2 ++ s3))%string.
Proof. induction s1 as [|c s1 IH]; simpl; [reflexivity | rewrite IH; reflexivity]. Qed.

Lemma length_append s1 s2 :
  String.length (s1 ++ s2) = String.length s1 + String.length s2.
Proof. induction s1 as [|c s1 IH]; simpl; [reflexivity | rewrite IH; reflexivity]. Qed.

Lemma find_none_cons c s d :
  ParseMain.find (String c s) d = None <-> is_char c d = false /\ ParseMain.find s d = None.
Proof.
  simpl. destruct (is_char c d); [split; [discriminate | intros [? _]; discriminate]|].
  destruct (ParseMain.find s d); simpl; split; try discriminate; try tauto.
  intros [_ ?]; discriminate.
Qed.

Lemma find_none_append s1 s2 d :
  ParseMain.find s1 d = None -> ParseMain.find s2 d = None ->
  ParseMain.find (s1 ++ s2) d = None.
Proof.
  induction s1 as [|c s1 IH]; intros H1 H2; [exact H2|].
  apply find_none_cons in H1. destruct H1 as [Hc H1].
  change (String c s1 ++ s2)%string with (String c (s1 ++ s2)).
  apply find_none_cons. auto.
Qed.

Lemma split_from_append part' : forall s delimiter part,
  ParseMain.find part' delimiter = None ->
  ParseMain.split_from (part' ++ s) delimiter part
  = ParseMain.split_from s delimiter (part ++ part').
Proof.
  induction part' as [|c p IH]; intros s delimiter part H.
  - rewrite append_nil_r. reflexivity.
  - apply find_none_cons in H. destruct H as [Hc H].
    change (String c p ++ s)%string with (String c (p ++ s)).
    cbn [ParseMain.split_from]. rewrite Hc, IH by assumption.
    rewrite append_assoc. reflexivity.
Qed.

End Strings.

Section Split.
Import ParseMain.

Lemma split_from_no_delimiter s delimiter : forall part,
  find part delimiter = None ->
  Forall (fun p => find p delimiter = None) (split_from s delimiter part).
Proof.
  induction s as [|c s IH]; intros part Hp; simpl.
  - destruct part; constructor; [assumption | constructor].
  - destruct (is_char c delimiter) eqn:E.
    + constructor; [assumption | apply IH; reflexivity].
    + apply IH. apply find_none_append; [assumption|].
      apply find_none_cons. split; [assumption | reflexivity].
Qed.

Lemma split_from_not_nil s delimiter : forall part,
  s <> EmptyString \/ part <> EmptyString -> split_from s delimiter part <> [].
Proof.
  induction s as [|c s IH]; intros part H; simpl.
  - destruct part; [destruct H; congruence | discriminate].
  - destruct (is_char c delimiter); [discriminate|].
    apply IH. right. destruct part; discriminate.
Qed.

Lemma join_cons delimiter part rest :
  rest <> [] ->
  join delimiter (part :: rest) = (part ++ String delimiter (join delimiter rest))%string.
Proof. destruct rest; [congruence | reflexivity]. Qed.

Lemma trailing_cons c s delimiter :
  s <> EmptyString -> trailing (String c s) delimiter = trailing s delimiter.
Proof. destruct s; [congruence | reflexivity]. Qed.

Lemma split_from_join s delimiter : forall part,
  (join delimiter (split_from s delimiter part) ++ trailing s delimiter)%string
  = (part ++ s)%string.
Proof.
  induction s as [|c s IH]; intros part.
  - simpl. destruct part; reflexivity.
  - cbn [split_from]. destruct (is_char c delimiter) eqn:E.
    + apply Ascii.eqb_eq in E. subst c.
      specialize (IH EmptyString). cbn [append] in IH.
      destruct (string_dec s EmptyString) as [->|Hne].
      * simpl. unfold is_char. rewrite Ascii.eqb_refl. reflexivity.
      * rewrite trailing_cons by assumption.
        rewrite join_cons by (apply split_from_not_nil; left; assumption).
        rewrite append_assoc. cbn [append]. rewrite IH. reflexivity.
    + replace (part ++ String c s)%string with ((part ++ String c EmptyString) ++ s)%string
        by (rewrite append_assoc; reflexivity).
      rewrite <- IH. f_equal.
      destruct (string_dec s EmptyString) as [->|Hne].
      * simpl. rewrite E. reflexivity.
      * apply trailing_cons. assumption.
Qed.

End Split.

(** X15.  [split] cuts the string at every delimiter: no part contains it, and
    the parts joined by it give the string back, up to one delimiter at its
    end, which [split] drops. *)
Theorem split_join (s : string) (delimiter : ascii) :
  Forall (fun part => ParseMain.find part delimiter = None) (ParseMain.split s delimiter)
  /\ (join delimiter (ParseMain.split s delimiter) ++ trailing s delimiter)%string = s.
Proof.
  split.
  - apply split_from_no_delimiter. reflexivity.
  - apply (split_from_join s delimiter EmptyString).
Qed.

Section TokenReaderOrder.
Import ParseMain.

Lemma tokenize_from_sorted string_tokens : forall i tokens,
  exists indices,
    map PTok.index (tokenize_from string_tokens i tokens)
    = map PTok.index tokens ++ indices
    /\ StronglySorted lt indices
    /\ Forall (fun j => i <= j < i + List.length string_tokens) indices.
Proof.
  induction string_tokens as [|str_tok rest IH]; intros i tokens.
  - exists []. simpl. rewrite app_nil_r. repeat split; constructor.
  - assert (Hskip : forall tokens',
              exists indices,
                map PTok.index (tokenize_from rest (S i) tokens')
                = map PTok.index tokens' ++ indices
                /\ StronglySorted lt indices
                /\ Forall (fun j => i < j < i + List.length (str_tok :: rest)) indices).
    { intros tokens'. destruct (IH (S i) tokens') as (l & H1 & H2 & H3).
      exists l. repeat split; try assumption.
      eapply Forall_impl; [|exact H3]. simpl. intros; lia. }
    assert (Hpush : forall t, PTok.index t = i ->
              exists indices,
                map PTok.index (tokenize_from rest (S i) (tokens ++ [t]))
                = map PTok.index tokens ++ indices
                /\ StronglySorted lt indices
                /\ Forall (fun j => i <= j < i + List.length (str_tok :: rest)) indices).
    { intros t Ht. destruct (Hskip (tokens ++ [t])) as (l & H1 & H2 & H3).
      exists (i :: l). rewrite H1, map_app, <- app_assoc. simpl. rewrite Ht.
      repeat split.
      - constructor; [assumption|]. eapply Forall_impl; [|exact H3]. simpl. intros; lia.
      - constructor; [simpl; lia|]. eapply Forall_impl; [|exact H3]. simpl. intros; lia. }
    cbn [tokenize_from].
    destruct str_tok as [|c str_tok].
    + destruct (Hskip tokens) as (l & H1 & H2 & H3).
      exists l. repeat split; try assumption.
      eapply Forall_impl; [|exact H3]. simpl. intros; lia.
    + destruct (find (String c str_tok) "("); apply Hpush; reflexivity.
Qed.

End TokenReaderOrder.

(** X16.  The indices [tokenize_input] gives are strictly increasing along the
    token list, and each one is below the number of fields of the line. *)
Theorem tokenize_input_index_increasing (line : string) :
  StronglySorted lt (map PTok.index (ParseMain.tokenize_input line))
  /\ Forall (fun j => j < List.length (ParseMain.split line " "))
            (map PTok.index (ParseMain.tokenize_input line)).
Proof.
  unfold ParseMain.tokenize_input.
  destruct (tokenize_from_sorted (ParseMain.split line " ") 0 []) as (l & H1 & H2 & H3).
  simpl in H1. rewrite H1. split; [assumption|].
  eapply Forall_impl; [|exact H3]. simpl. intros; lia.
Qed.

(* ===================================================================== *)
(** * From the lexer's output to the parser's input *)
(* ===================================================================== *)

Section PrintAndRead.
Import ParseMain.

Lemma take_all s : forall n, String.length s <= n -> take n s = s.
Proof.
  induction s as [|c s IH]; intros [|n] H; simpl in *; try reflexivity; [lia|].
  rewrite IH by lia. reflexivity.
Qed.

Lemma substr_take s pos count :
  substr s pos count = take (N.to_nat count) (drop pos s).
Proof.
  unfold substr. destruct (N.leb_spec (N.of_nat (String.length (drop pos s))) count).
  - symmetry. apply take_all. lia.
  - reflexivity.
Qed.

Lemma take_append s1 s2 : take (String.length s1) (s1 ++ s2) = s1.
Proof. induction s1 as [|c s1 IH]; simpl; [destruct s2 | rewrite IH]; reflexivity. Qed.

Lemma drop_append s1 s2 : drop (String.length s1) (s1 ++ s2) = s2.
Proof. induction s1 as [|c s1 IH]; simpl; [destruct s2 | rewrite IH]; reflexivity. Qed.

Lemma find_append s1 s2 c :
  find s1 c = None -> find (s1 ++ String c s2) c = Some (String.length s1).
Proof.
  induction s1 as [|d s1 IH]; intros H.
  - simpl. unfold is_char. rewrite Ascii.eqb_refl. reflexivity.
  - apply find_none_cons in H. destruct H as [Hd H].
    simpl. rewrite Hd, IH by assumption. reflexivity.
Qed.

Lemma size_sub_small a b :
  (b <= a)%N -> (b < SIZE_MOD)%N -> size_sub a b = ((a - b) mod SIZE_MOD)%N.
Proof.
  intros Hle Hb. unfold size_sub. rewrite (N.mod_small b) by assumption.
  replace (a + SIZE_MOD - b)%N with (a - b + 1 * SIZE_MOD)%N by lia.
  apply N.Div0.mod_add.
Qed.

Lemma size_sub_twice a b c :
  (b + c <= a)%N -> (b < SIZE_MOD)%N -> (c < SIZE_MOD)%N ->
  size_sub (size_sub a b) c = ((a - b - c) mod SIZE_MOD)%N.
Proof.
  intros Hle Hb Hc. rewrite (size_sub_small a b) by lia.
  unfold size_sub. rewrite (N.mod_small c) by assumption.
  rewrite <- N.add_sub_assoc by lia.
  rewrite N.Div0.add_mod_idemp_l.
  replace (a - b + (SIZE_MOD - c))%N with (a - b - c + 1 * SIZE_MOD)%N by lia.
  apply N.Div0.mod_add.
Qed.

(** A field without parenthesis is a token without value. *)
Lemma tokenize_from_plain str_tok rest i tokens :
  str_tok <> EmptyString -> find str_tok "(" = None ->
  tokenize_from (str_tok :: rest) i tokens
  = tokenize_from rest (S i) (tokens ++ [PTok.mk str_tok EmptyString i]).
Proof.
  intros Hne Hf. cbn [tokenize_from]. destruct str_tok; [congruence|].
  rewrite Hf. reflexivity.
Qed.

Lemma tokenize_from_paren str_tok rest i tokens open_paren :
  find str_tok "(" = Some open_paren ->
  tokenize_from (str_tok :: rest) i tokens
  = tokenize_from rest (S i)
      (tokens ++ [PTok.mk (substr str_tok 0 (N.of_nat open_paren))
                    (substr str_tok (open_paren + 1)
                       (size_sub (size_sub (N.of_nat (String.length str_tok))
                                    (N.of_nat open_paren)) 2)) i]).
Proof.
  intros Hf. destruct str_tok; [discriminate|].
  cbn [tokenize_from]. rewrite Hf. reflexivity.
Qed.

(** A field [kind(value)] is a token with this type and this value. *)
Lemma tokenize_from_value kind value rest i tokens :
  find kind "(" = None ->
  (N.of_nat (String.length kind) < SIZE_MOD)%N ->
  (N.of_nat (String.length value) < SIZE_MOD)%N ->
  tokenize_from ((kind ++ String "(" (value ++ ")"))%string :: rest) i tokens
  = tokenize_from rest (S i) (tokens ++ [PTok.mk kind value i]).
Proof.
  intros Hf Hk Hv.
  pose proof (find_append kind (value ++ ")")%string "(" Hf) as Hfind.
  set (str_tok := (kind ++ String "(" (value ++ ")"))%string) in *.
  assert (Hlen : String.length str_tok
                 = String.length kind + 1 + (String.length value + 1)).
  { unfold str_tok. rewrite length_append. cbn [String.length].
    rewrite length_append. simpl. lia. }
  rewrite (tokenize_from_paren _ _ _ _ _ Hfind).
  assert (Ht : substr str_tok 0 (N.of_nat (String.length kind)) = kind).
  { rewrite substr_take, Nat2N.id. cbn [drop]. apply take_append. }
  assert (Hval : substr str_tok (String.length kind + 1)
                   (size_sub (size_sub (N.of_nat (String.length str_tok))
                                (N.of_nat (String.length kind))) 2) = value).
  { rewrite substr_take, size_sub_twice;
      [| rewrite Hlen; lia | assumption | reflexivity].
    rewrite Hlen.
    replace (N.of_nat (String.length kind + 1 + (String.length value + 1))
             - N.of_nat (String.length kind) - 2)%N
      with (N.of_nat (String.length value)) by lia.
    rewrite N.mod_small, Nat2N.id by assumption.
    unfold str_tok.
    replace (kind ++ String "(" (value ++ ")"))%string
      with ((kind ++ String "(" EmptyString) ++ (value ++ ")"))%string
      by (rewrite append_assoc; reflexivity).
    replace (String.length kind + 1) with (String.length (kind ++ String "(" EmptyString))
      by (rewrite length_append; reflexivity).
    rewrite drop_append. apply take_append. }
  rewrite Ht, Hval. reflexivity.
Qed.

(** A line of fields that are not empty and hold no space splits into
    these fields. *)
Lemma split_joined parts :
  Forall (fun part => part <> EmptyString /\ find part " " = None) parts ->
  split (join " " parts) " " = parts.
Proof.
  unfold split. induction parts as [|part rest IH]; intros H; [reflexivity|].
  inversion H as [|? ? [Hne Hf] Hrest]; subst.
  destruct rest as [|part' rest].
  - cbn [join]. rewrite <- (append_nil_r part) at 1.
    rewrite split_from_append by assumption. simpl. destruct part; [congruence|reflexivity].
  - rewrite join_cons by discriminate.
    rewrite split_from_append by assumption.
    cbn [split_from append]. unfold is_char at 1. rewrite Ascii.eqb_refl.
    rewrite IH by assumption. reflexivity.
Qed.

Lemma find_joined parts c :
  is_char " " c = false ->
  Forall (fun part => find part c = None) parts ->
  find (join " " parts) c = None.
Proof.
  intros Hc. induction parts as [|part rest IH]; intros H; [reflexivity|].
  inversion H as [|? ? Hf Hrest]; subst.
  destruct rest as [|part' rest]; [exact Hf|].
  rewrite join_cons by discriminate.
  apply find_none_append; [assumption|].
  apply find_none_cons. split; [assumption | apply IH; assumption].
Qed.

Lemma getline_line line :
  find line NL = None -> getline (line ++ String NL EmptyString) = line.
Proof.
  induction line as [|c line IH]; intros H.
  - reflexivity.
  - apply find_none_cons in H. destruct H as [Hc H].
    simpl. rewrite Hc, IH by assumption. reflexivity.
Qed.

Lemma print_tokens_join buf tokens :
  LexMain.print_tokens buf tokens
  = join " " (map (LexMain.token_type_to_string buf) tokens).
Proof.
  induction tokens as [|t rest IH]; [reflexivity|].
  destruct rest as [|t' rest]; [reflexivity|].
  cbn [LexMain.print_tokens map] in *. rewrite IH. reflexivity.
Qed.

Lemma find_string_of_list (P : ascii -> bool) l c :
  P c = false -> forallb P l = true -> find (string_of_list_ascii l) c = None.
Proof.
  intros Hc. induction l as [|d l IH]; intros H; [reflexivity|].
  simpl in H. apply andb_true_iff in H. destruct H as [Hd H].
  simpl. unfold is_char. destruct (Ascii.eqb_spec d c) as [->|]; [congruence|].
  rewrite IH by assumption. reflexivity.
Qed.

Lemma length_string_of_list l :
  String.length (string_of_list_ascii l) = List.length l.
Proof. induction l as [|c l IH]; simpl; [reflexivity | rewrite IH; reflexivity]. Qed.

Lemma length_lexeme buf first last :
  List.length (lexeme buf first last) <= List.length buf.
Proof. unfold lexeme. rewrite length_firstn, length_skipn. lia. Qed.

(** What the printer writes for a token that is no [Error], whose lexeme
    holds no white space: one field, which the reader takes for the same
    token. *)
Lemma token_field buf t :
  Tok.token_type t <> TokenType.Error ->
  (N.of_nat (List.length buf) < SIZE_MOD)%N ->
  (Tok.token_type t = TokenType.Id \/ Tok.token_type t = TokenType.Num ->
   forallb (fun c => negb (CType.isspace c)) (lexeme buf (Tok.first t) (Tok.last t)) = true) ->
  let str_tok := LexMain.token_type_to_string buf t in
  (str_tok <> EmptyString /\ find str_tok " " = None) /\
  find str_tok NL = None /\
  forall rest i tokens,
    tokenize_from (str_tok :: rest) i tokens
    = tokenize_from rest (S i) (tokens ++ [read_token buf i t]).
Proof.
  intros Hne Hlen Hlex. unfold LexMain.token_type_to_string, read_token.
  pose proof (length_lexeme buf (Tok.first t) (Tok.last t)) as Hl.
  rewrite <- length_string_of_list in Hl.
  set (l := lexeme buf (Tok.first t) (Tok.last t)) in *.
  assert (Hv : Tok.token_type t = TokenType.Id \/ Tok.token_type t = TokenType.Num ->
               find (string_of_list_ascii l ++ ")")%string " " = None
               /\ find (string_of_list_ascii l ++ ")")%string NL = None).
  { intros Hk. specialize (Hlex Hk). split.
    - apply find_none_append; [|reflexivity].
      eapply find_string_of_list; [|exact Hlex]. reflexivity.
    - apply find_none_append; [|reflexivity].
      eapply find_string_of_list; [|exact Hlex]. reflexivity. }
  destruct (Tok.token_type t) eqn:Ek; try congruence;
    try (cbv zeta; repeat apply conj;
         [discriminate | reflexivity | reflexivity | intros; reflexivity]).
  - (* Num *)
    destruct (Hv (or_intror eq_refl)) as [Hs Hn].
    cbv zeta. repeat apply conj.
    + discriminate.
    + apply (find_none_append "Num("); [reflexivity | exact Hs].
    + apply (find_none_append "Num("); [reflexivity | exact Hn].
    + intros rest i tokens.
      apply (tokenize_from_value "Num"); [reflexivity | reflexivity | lia].
  - (* Id *)
    destruct (Hv (or_introl eq_refl)) as [Hs Hn].
    cbv zeta. repeat apply conj.
    + discriminate.
    + apply (find_none_append "Id("); [reflexivity | exact Hs].
    + apply (find_none_append "Id("); [reflexivity | exact Hn].
    + intros rest i tokens.
      apply (tokenize_from_value "Id"); [reflexivity | reflexivity | lia].
Qed.

Lemma tokenize_from_printed buf tokens : forall i acc,
  Forall (fun t => forall rest i tokens,
            tokenize_from (LexMain.token_type_to_string buf t :: rest) i tokens
            = tokenize_from rest (S i) (tokens ++ [read_token buf i t])) tokens ->
  tokenize_from (map (LexMain.token_type_to_string buf) tokens) i acc
  = acc ++ read_tokens buf i tokens.
Proof.
  induction tokens as [|t rest IH]; intros i acc H.
  - simpl. rewrite app_nil_r. reflexivity.
  - inversion H as [|? ? Ht Hrest]; subst.
    cbn [map read_tokens]. rewrite Ht, IH by assumption.
    rewrite <- app_assoc. reflexivity.
Qed.

End PrintAndRead.

Section LexThenRead.
Import CType.

Lemma word_byte_not_space c : is_word_byte c = true -> negb (isspace c) = true.
Proof. destruct c as [[] [] [] [] [] [] [] []]; vm_compute; congruence. Qed.

Lemma digit_not_space c : isdigit c = true -> negb (isspace c) = true.
Proof. destruct c as [[] [] [] [] [] [] [] []]; vm_compute; congruence. Qed.

Lemma length_src s : List.length (src s) = String.length s.
Proof. unfold src. induction s as [|c s IH]; simpl; [reflexivity | rewrite IH; reflexivity]. Qed.

(** The lexeme of an [Id] or [Num] token of [lex] holds no white space. *)
Lemma lexed_at_no_space buf t :
  lexed_at buf (List.length buf) t ->
  Tok.token_type t = TokenType.Id \/ Tok.token_type t = TokenType.Num ->
  forallb (fun c => negb (isspace c)) (lexeme buf (Tok.first t) (Tok.last t)) = true.
Proof.
  intros [(Hlt & Ht & _)|(He & _)] Hk; [|destruct Hk; congruence].
  destruct (munch_token_id_num buf (Tok.first t) (List.length buf) Hlt) as [Hid Hnum].
  rewrite <- Ht in Hid, Hnum.
  apply forallb_lexeme. intros j Hj. destruct Hk as [Hk|Hk].
  - apply word_byte_not_space.
    destruct (munch_token_word_spec buf (Tok.first t) (List.length buf) Hlt (Nat.le_refl _)
                (Hid Hk)) as (_ & _ & Hw & _).
    rewrite <- Ht in Hw. apply Hw. exact Hj.
  - apply digit_not_space.
    destruct (munch_token_number_spec buf (Tok.first t) (List.length buf) Hlt (Hnum Hk))
      as (_ & _ & _ & Hd & _).
    rewrite <- Ht in Hd. apply Hd. exact Hj.
Qed.

End LexThenRead.

Lemma lex_main_read (source_code : string) (tokens : list Token) :
  (N.of_nat (String.length source_code) < ParseMain.SIZE_MOD)%N ->
  Lexer.lex (src source_code) = Some tokens ->
  Forall (fun t => Tok.token_type t <> TokenType.Error) tokens ->
  exists out,
    LexMain.main source_code = Some out /\
    ParseMain.tokenize_input (ParseMain.getline out)
    = read_tokens (src source_code) 0 tokens.
Proof.
  intros Hlen Hlex Hne.
  set (buf := src source_code) in *.
  assert (Hall : Forall (fun t =>
            let str_tok := LexMain.token_type_to_string buf t in
            (str_tok <> EmptyString /\ ParseMain.find str_tok " " = None) /\
            ParseMain.find str_tok NL = None /\
            forall rest i tokens,
              ParseMain.tokenize_from (str_tok :: rest) i tokens
              = ParseMain.tokenize_from rest (S i) (tokens ++ [read_token buf i t])) tokens).
  { assert (Hlexed : Forall (lexed_at buf (List.length buf)) tokens).
    { eapply lex_loop_lexed_at; [| | exact Hlex]; [lia | constructor]. }
    rewrite Forall_forall in Hne, Hlexed |- *. intros t Hin.
    apply token_field.
    - apply Hne. assumption.
    - unfold buf. rewrite length_src. assumption.
    - apply lexed_at_no_space. apply Hlexed. assumption. }
  unfold LexMain.main. fold buf. rewrite Hlex.
  eexists. split; [reflexivity|].
  rewrite print_tokens_join.
  rewrite getline_line.
  2:{ apply find_joined; [reflexivity|]. rewrite Forall_map.
      eapply Forall_impl; [|exact Hall]. cbv beta zeta. tauto. }
  unfold ParseMain.tokenize_input. rewrite split_joined.
  2:{ rewrite Forall_map. eapply Forall_impl; [|exact Hall]. cbv beta zeta. tauto. }
  apply (tokenize_from_printed buf tokens 0 []).
  eapply Forall_impl; [|exact Hall]. cbv beta zeta. intros t (_ & _ & H). exact H.
Qed.

(** X18.  From [lex] to [parse].  When the lexer finds no [Error] token, the line
    it prints is read back by [tokenize_input] as the same tokens: the same
    kinds in the same order, the lexemes of the [Id] and [Num] tokens as
    values, and the ordinals 0, 1, 2, ... as indices. *)
Theorem lex_main_then_tokenize_input (source_code : string) (tokens : list Token) :
  (N.of_nat (String.length source_code) < ParseMain.SIZE_MOD)%N ->
  Lexer.lex (src source_code) = Some tokens ->
  Forall (fun t => Tok.token_type t <> TokenType.Error) tokens ->
  exists out,
    LexMain.main source_code = Some out /\
    ParseMain.tokenize_input (ParseMain.getline out)
    = read_tokens (src source_code) 0 tokens.
Proof. apply lex_main_read. Qed.

Lemma lex_main_then_tokenize_input_witness :
  (N.of_nat (String.length "x = f(12);") < ParseMain.SIZE_MOD)%N /\
  Lexer.lex (src "x = f(12);")
  = Some [Tok.mk TokenType.Id 0 1; Tok.mk TokenType.Gets 2 3; Tok.mk TokenType.Id 4 5;
          Tok.mk TokenType.OpenParen 5 6; Tok.mk TokenType.Num 6 8;
          Tok.mk TokenType.CloseParen 8 9; Tok.mk TokenType.Semicolon 9 10] /\
  Forall (fun t => Tok.token_type t <> TokenType.Error)
    [Tok.mk TokenType.Id 0 1; Tok.mk TokenType.Gets 2 3; Tok.mk TokenType.Id 4 5;
     Tok.mk TokenType.OpenParen 5 6; Tok.mk TokenType.Num 6 8;
     Tok.mk TokenType.CloseParen 8 9; Tok.mk TokenType.Semicolon 9 10] /\
  exists out,
    LexMain.main "x = f(12);" = Some out /\
    ParseMain.tokenize_input (ParseMain.getline out)
    = read_tokens (src "x = f(12);") 0
        [Tok.mk TokenType.Id 0 1; Tok.mk TokenType.Gets 2 3; Tok.mk TokenType.Id 4 5;
         Tok.mk TokenType.OpenParen 5 6; Tok.mk TokenType.Num 6 8;
         Tok.mk TokenType.CloseParen 8 9; Tok.mk TokenType.Semicolon 9 10].
Proof.
  assert (H : Forall (fun t => Tok.token_type t <> TokenType.Error)
    [Tok.mk TokenType.Id 0 1; Tok.mk TokenType.Gets 2 3; Tok.mk TokenType.Id 4 5;
     Tok.mk TokenType.OpenParen 5 6; Tok.mk TokenType.Num 6 8;
     Tok.mk TokenType.CloseParen 8 9; Tok.mk TokenType.Semicolon 9 10]).
  { repeat constructor; discriminate. }
  refine (conj _ (conj _ (conj H _))).
  1-2: vm_compute; reflexivity.
  apply (lex_main_then_tokenize_input "x = f(12);");
    [vm_compute; reflexivity | vm_compute; reflexivity | exact H].
Defined.

(* ===================================================================== *)
(** * The cursor of the parser, its fuel and its exceptions *)
(* ===================================================================== *)

Section ParserProgress.
Import Ast Parser.
Local Open Scope string_scope.

Variable ts : list PTok.Token.
Let len : nat := List.length ts.

Local Abbreviation adv := (advances len).
Local Abbreviation stay := (stays len).

Lemma adv_stays {A} (m : M A) : adv m -> stay m.
Proof. intros H pos v pos' E. apply H in E. lia. Qed.

Lemma stays_ret {A} (a : A) : stay (ret a).
Proof. intros pos v pos' [= <- <-]. lia. Qed.

Lemma adv_error {A} message : adv (@error A message).
Proof. intros pos v pos'. discriminate. Qed.

Lemma adv_throw {A} e : adv (@throw A e).
Proof. intros pos v pos'. discriminate. Qed.

Lemma adv_out_of_fuel {A} : adv (@out_of_fuel A).
Proof. intros pos v pos'. discriminate. Qed.

Lemma stays_bind {A B} (m : M A) (k : A -> M B) :
  stay m -> (forall a, stay (k a)) -> stay (bind m k).
Proof.
  intros Hm Hk pos v pos'. unfold bind.
  destruct (m pos) as [a p1| |] eqn:E; try discriminate.
  intros E2. apply Hm in E. apply Hk in E2. lia.
Qed.

Lemma adv_bind_l {A B} (m : M A) (k : A -> M B) :
  adv m -> (forall a, stay (k a)) -> adv (bind m k).
Proof.
  intros Hm Hk pos v pos'. unfold bind.
  destruct (m pos) as [a p1| |] eqn:E; try discriminate.
  intros E2. apply Hm in E. apply Hk in E2. lia.
Qed.

Lemma adv_bind_r {A B} (m : M A) (k : A -> M B) :
  stay m -> (forall a, adv (k a)) -> adv (bind m k).
Proof.
  intros Hm Hk pos v pos'. unfold bind.
  destruct (m pos) as [a p1| |] eqn:E; try discriminate.
  intros E2. apply Hm in E. apply Hk in E2. lia.
Qed.

Lemma adv_cond {A} c (a b : M A) : adv a -> adv b -> adv (cond c a b).
Proof. intros Ha Hb pos v pos'. unfold cond. destruct (c pos); [apply Ha | apply Hb]. Qed.

Lemma stays_cond {A} c (a b : M A) : stay a -> stay b -> stay (cond c a b).
Proof. intros Ha Hb pos v pos'. unfold cond. destruct (c pos); [apply Ha | apply Hb]. Qed.

Lemma check_any_true types pos :
  check_any ts types pos = true -> exists t, nth_error ts pos = Some t.
Proof.
  unfold check_any. destruct (is_at_end ts pos); [discriminate|].
  destruct (nth_error ts pos) as [t|]; [eauto | discriminate].
Qed.

(** [advance] on a token that is there. *)
Lemma adv_advance_at {A} (k : PTok.Token -> M A) pos v pos' :
  (exists t, nth_error ts pos = Some t) -> (forall t, stay (k t)) ->
  bind (advance ts) k pos = Ok v pos' -> pos < pos' <= len.
Proof.
  intros [t Ht] Hk. unfold bind. rewrite (advance_at ts pos t Ht).
  intros E. apply Hk in E.
  assert (pos < len) by (unfold len; apply nth_error_Some; congruence). lia.
Qed.

Lemma adv_check_advance {A} type (k : PTok.Token -> M A) (b : M A) :
  (forall t, stay (k t)) -> adv b -> adv (cond (check ts type) (bind (advance ts) k) b).
Proof.
  intros Hk Hb pos v pos'. unfold cond.
  destruct (check ts type pos) eqn:E; [|apply Hb].
  apply adv_advance_at; [|assumption].
  destruct (check_true ts pos type E) as [t [Ht _]]. eauto.
Qed.

Lemma adv_check_any_advance {A} types (k : PTok.Token -> M A) (b : M A) :
  (forall t, stay (k t)) -> adv b ->
  adv (cond (check_any ts types) (bind (advance ts) k) b).
Proof.
  intros Hk Hb pos v pos'. unfold cond.
  destruct (check_any ts types pos) eqn:E; [|apply Hb].
  apply adv_advance_at; [|assumption]. eapply check_any_true; eassumption.
Qed.

Lemma stays_check_advance {A} type (k : PTok.Token -> M A) (b : M A) :
  (forall t, stay (k t)) -> stay b -> stay (cond (check ts type) (bind (advance ts) k) b).
Proof.
  intros Hk Hb pos v pos'. unfold cond.
  destruct (check ts type pos) eqn:E; [|apply Hb].
  intros H. apply adv_advance_at in H; [lia | | assumption].
  destruct (check_true ts pos type E) as [t [Ht _]]. eauto.
Qed.

Lemma stays_check_any_advance {A} types (k : PTok.Token -> M A) (b : M A) :
  (forall t, stay (k t)) -> stay b ->
  stay (cond (check_any ts types) (bind (advance ts) k) b).
Proof.
  intros Hk Hb pos v pos'. unfold cond.
  destruct (check_any ts types pos) eqn:E; [|apply Hb].
  intros H. apply adv_advance_at in H; [lia | | assumption].
  eapply check_any_true; eassumption.
Qed.

Lemma adv_expect type : adv (expect ts type).
Proof.
  intros pos v pos' H. apply expect_ok in H. destruct H as (Hn & _ & ->).
  assert (pos < len) by (unfold len; apply nth_error_Some; congruence). lia.
Qed.

Lemma stays_peek : stay (peek ts).
Proof.
  intros pos v pos'. unfold peek, cond, error, throw, at_.
  destruct (is_at_end ts pos); [discriminate|].
  destruct (nth_error ts pos); [|discriminate]. intros [= <- <-]. lia.
Qed.

Lemma stays_unexpected_token : stay (unexpected_token ts).
Proof. apply stays_bind; [apply stays_peek | intros ?; apply stays_ret]. Qed.

(** ** The methods *)

Ltac cursor leaf :=
  lazymatch goal with
  | |- advances _ _ => cursor_adv leaf
  | |- stays _ _ => cursor_stay leaf
  end
with cursor_adv leaf :=
  solve
    [ assumption
    | leaf
    | apply adv_error
    | apply adv_throw
    | apply adv_out_of_fuel
    | apply adv_expect
    | apply adv_check_advance; [intros ?; cursor leaf | cursor leaf]
    | apply adv_check_any_advance; [intros ?; cursor leaf | cursor leaf]
    | apply adv_cond; [cursor leaf | cursor leaf]
    | apply adv_bind_l; [cursor leaf | intros ?; cursor leaf]
    | apply adv_bind_r; [cursor leaf | intros ?; cursor leaf]
    | match goal with
      | |- advances _ (if ?c then _ else _) => destruct c; cursor leaf
      | |- advances _ (match ?x with stoll_value _ => _ | _ => _ end) =>
          destruct x; cursor leaf
      | |- advances _ (match ?x with Val _ => _ | _ => _ end) => destruct x; cursor leaf
      end ]
with cursor_stay leaf :=
  solve
    [ assumption
    | leaf
    | apply stays_ret
    | apply stays_peek
    | apply stays_unexpected_token
    | apply adv_stays; cursor_adv leaf
    | apply stays_check_advance; [intros ?; cursor leaf | cursor leaf]
    | apply stays_check_any_advance; [intros ?; cursor leaf | cursor leaf]
    | apply stays_cond; [cursor leaf | cursor leaf]
    | apply stays_bind; [cursor leaf | intros ?; cursor leaf]
    | match goal with
      | |- stays _ (if ?c then _ else _) => destruct c; cursor leaf
      | |- stays _ (match ?x with stoll_value _ => _ | _ => _ end) =>
          destruct x; cursor leaf
      | |- stays _ (match ?x with Val _ => _ | _ => _ end) => destruct x; cursor leaf
      | |- stays _ (match ?x with CallExp _ => _ | _ => _ end) => destruct x; cursor leaf
      end ].

Ltac step :=
  cbn [comma_list parse_type parse_funtype select_loop exp2_loop exp3_loop exp4_loop
       postfix_loop parse_exp parse_exp1 parse_exp2 parse_exp3 parse_exp4 parse_exp5
       parse_exp6 parse_exp7 stmt_loop parse_stmt parse_if_stmt parse_block
       parse_while_stmt let_loop program_loop].

Lemma comma_list_adv {A} fuel : forall (item : M A) v,
  adv item -> adv (comma_list ts fuel item v).
Proof.
  induction fuel as [|n IH]; intros item v Hi; [apply adv_out_of_fuel|].
  step. cursor ltac:(apply adv_stays; apply IH; assumption).
Qed.

Lemma list_until_stays {A} close fuel (item : M A) :
  adv item -> stay (list_until ts close fuel item).
Proof.
  intros Hi. unfold list_until.
  cursor ltac:(apply adv_stays; apply comma_list_adv; assumption).
Qed.

Lemma parse_type_adv fuel :
  adv (parse_type ts fuel) /\ adv (parse_funtype ts fuel).
Proof.
  induction fuel as [|n [IH1 IH2]]; [split; apply adv_out_of_fuel|].
  split; step; cursor ltac:(apply list_until_stays; assumption).
Qed.

Lemma parse_decl_adv fuel : adv (parse_decl ts fuel).
Proof.
  pose proof (proj1 (parse_type_adv fuel)).
  unfold parse_decl. cursor fail.
Qed.

Lemma select_loop_stays fuel : forall (exp exp1 : M Exp) left,
  adv exp -> adv exp1 -> stay (select_loop ts fuel exp exp1 left).
Proof.
  induction fuel as [|n IH]; intros exp exp1 left H H1;
    [apply adv_stays, adv_out_of_fuel|].
  step. cursor ltac:(apply IH; assumption).
Qed.

Lemma exp2_loop_stays fuel : forall (operand : M Exp) left,
  adv operand -> stay (exp2_loop ts fuel operand left).
Proof.
  induction fuel as [|n IH]; intros operand left H; [apply adv_stays, adv_out_of_fuel|].
  step. cursor ltac:(apply IH; assumption).
Qed.

Lemma exp3_loop_stays fuel : forall (operand : M Exp) left,
  adv operand -> stay (exp3_loop ts fuel operand left).
Proof.
  induction fuel as [|n IH]; intros operand left H; [apply adv_stays, adv_out_of_fuel|].
  step. cursor ltac:(apply IH; assumption).
Qed.

Lemma exp4_loop_stays fuel : forall (operand : M Exp) left,
  adv operand -> stay (exp4_loop ts fuel operand left).
Proof.
  induction fuel as [|n IH]; intros operand left H; [apply adv_stays, adv_out_of_fuel|].
  step. cursor ltac:(apply IH; assumption).
Qed.

Lemma postfix_loop_stays fuel : forall (exp : M Exp) e,
  adv exp -> stay (postfix_loop ts fuel exp e).
Proof.
  induction fuel as [|n IH]; intros exp e H; [apply adv_stays, adv_out_of_fuel|].
  step. cursor ltac:(first [apply IH; assumption | apply list_until_stays; assumption]).
Qed.

Lemma parse_exp_adv fuel :
  adv (parse_exp ts fuel) /\ adv (parse_exp1 ts fuel)
  /\ adv (parse_exp2 ts fuel) /\ adv (parse_exp3 ts fuel)
  /\ adv (parse_exp4 ts fuel) /\ adv (parse_exp5 ts fuel)
  /\ adv (parse_exp6 ts fuel) /\ adv (parse_exp7 ts fuel).
Proof.
  induction fuel as [|n (IH & IH1 & IH2 & IH3 & IH4 & IH5 & IH6 & IH7)];
    [repeat apply conj; apply adv_out_of_fuel|].
  pose proof (proj1 (parse_type_adv n)) as Ht.
  repeat apply conj; step;
    cursor ltac:(first [ apply select_loop_stays; assumption
                       | apply exp2_loop_stays; assumption
                       | apply exp3_loop_stays; assumption
                       | apply exp4_loop_stays; assumption
                       | apply postfix_loop_stays; assumption ]).
Qed.

Lemma stmt_loop_stays fuel : forall (stmt : M Stmt) stmts,
  adv stmt -> stay (stmt_loop ts fuel stmt stmts).
Proof.
  induction fuel as [|n IH]; intros stmt stmts H; [apply adv_stays, adv_out_of_fuel|].
  step. cursor ltac:(apply IH; assumption).
Qed.

Lemma parse_return_stmt_adv fuel : adv (parse_return_stmt ts fuel).
Proof.
  pose proof (proj1 (parse_exp_adv fuel)).
  unfold parse_return_stmt. cursor fail.
Qed.

Lemma expression_statement_adv fuel : adv (expression_statement ts fuel).
Proof.
  pose proof (proj1 (parse_exp_adv fuel)).
  unfold expression_statement. cursor fail.
Qed.

Lemma parse_stmt_adv fuel :
  adv (parse_stmt ts fuel) /\ adv (parse_if_stmt ts fuel)
  /\ adv (parse_block ts fuel) /\ adv (parse_while_stmt ts fuel).
Proof.
  induction fuel as [|n (IH & IH1 & IH2 & IH3)];
    [repeat apply conj; apply adv_out_of_fuel|].
  pose proof (proj1 (parse_exp_adv n)) as He.
  pose proof (parse_return_stmt_adv n) as Hr.
  pose proof (expression_statement_adv n) as Hx.
  repeat apply conj; step; cursor ltac:(apply stmt_loop_stays; assumption).
Qed.

Lemma let_loop_stays fuel : forall (decl : M Decl) locals,
  adv decl -> stay (let_loop ts fuel decl locals).
Proof.
  induction fuel as [|n IH]; intros decl locals H; [apply adv_stays, adv_out_of_fuel|].
  step.
  cursor ltac:(first [ apply IH; assumption
                     | apply adv_stays; apply comma_list_adv; assumption ]).
Qed.

Lemma parse_function_def_adv fuel : adv (parse_function_def ts fuel).
Proof.
  pose proof (proj1 (parse_type_adv fuel)) as Ht.
  pose proof (parse_decl_adv fuel) as Hd.
  pose proof (proj1 (parse_stmt_adv fuel)) as Hs.
  unfold parse_function_def.
  cursor ltac:(first [ apply list_until_stays; assumption
                     | apply let_loop_stays; assumption
                     | apply stmt_loop_stays; assumption ]).
Qed.

Lemma parse_struct_def_adv fuel : adv (parse_struct_def ts fuel).
Proof.
  pose proof (parse_decl_adv fuel) as Hd.
  unfold parse_struct_def. cursor ltac:(apply list_until_stays; assumption).
Qed.

Lemma parse_extern_def_adv fuel : adv (parse_extern_def ts fuel).
Proof.
  pose proof (proj2 (parse_type_adv fuel)) as Ht.
  unfold parse_extern_def. cursor fail.
Qed.

Lemma program_loop_ends n : forall fuel program,
  ends_at len (program_loop ts n fuel program).
Proof.
  induction n as [|n IH]; intros fuel program pos v pos' Hp; [discriminate|].
  step. unfold cond at 1.
  destruct (is_at_end ts pos) eqn:E.
  { intros [= <- <-]. unfold is_at_end in E. apply Nat.leb_le in E. fold len in E. lia. }
  assert (Hstep : forall A (m : M A) (k : A -> M Program),
            adv m -> (forall a, ends_at len (k a)) ->
            bind m k pos = Ok v pos' -> pos' = len).
  { intros A m k Hm Hk. unfold bind.
    destruct (m pos) as [a p1| |] eqn:Em; try discriminate.
    apply Hm in Em. apply Hk. lia. }
  unfold cond.
  destruct (check ts "Struct" pos).
  { apply Hstep; [apply parse_struct_def_adv | intros; apply IH]. }
  destruct (check ts "Extern" pos).
  { apply Hstep; [apply parse_extern_def_adv | intros; apply IH]. }
  destruct (check ts "Fn" pos).
  { apply Hstep; [apply parse_function_def_adv | intros; apply IH]. }
  unfold bind, unexpected_token, bind, ret, error, throw.
  destruct (peek ts pos); discriminate.
Qed.


(** ** Fuel that suffices *)

Local Abbreviation run := (runs len).

Lemma runs_cases {A} lo (m : M A) : (lo <= len -> run lo m) -> run lo m.
Proof. intros H pos Hp. apply H; lia. Qed.

Lemma runs_weaken {A} lo lo' (m : M A) : run lo m -> lo <= lo' -> run lo' m.
Proof. intros H Hle pos Hp. apply H. lia. Qed.

Lemma runs_ret {A} lo (a : A) : run lo (ret a).
Proof. intros pos _. discriminate. Qed.

Lemma runs_error {A} lo message : run lo (@error A message).
Proof. intros pos _. discriminate. Qed.

Lemma runs_throw {A} lo e : run lo (@throw A e).
Proof. intros pos _. discriminate. Qed.

Lemma runs_bind {A B} lo (m : M A) (k : A -> M B) :
  run lo m -> stay m -> (forall a, run lo (k a)) -> run lo (bind m k).
Proof.
  intros Hm Hs Hk pos Hp. unfold bind.
  destruct (m pos) as [a p1| |] eqn:E; [|discriminate|exfalso; exact (Hm pos Hp E)].
  apply Hs in E. apply Hk. lia.
Qed.

Lemma runs_bind_adv {A B} lo (m : M A) (k : A -> M B) :
  run lo m -> adv m -> (forall a, run (S lo) (k a)) -> run lo (bind m k).
Proof.
  intros Hm Hs Hk pos Hp. unfold bind.
  destruct (m pos) as [a p1| |] eqn:E; [|discriminate|exfalso; exact (Hm pos Hp E)].
  apply Hs in E. apply Hk. lia.
Qed.

Lemma runs_cond {A} lo c (a b : M A) : run lo a -> run lo b -> run lo (cond c a b).
Proof. intros Ha Hb pos Hp. unfold cond. destruct (c pos); [apply Ha | apply Hb]; lia. Qed.

Lemma runs_advance_at {A} lo (k : PTok.Token -> M A) pos :
  (exists t, nth_error ts pos = Some t) -> (forall t, run (S lo) (k t)) ->
  lo <= pos <= len -> bind (advance ts) k pos <> OutOfFuel.
Proof.
  intros [t Ht] Hk Hp. unfold bind. rewrite (advance_at ts pos t Ht).
  assert (pos < len) by (unfold len; apply nth_error_Some; congruence).
  apply Hk. lia.
Qed.

Lemma runs_check_advance {A} lo type (k : PTok.Token -> M A) (b : M A) :
  (forall t, run (S lo) (k t)) -> run lo b ->
  run lo (cond (check ts type) (bind (advance ts) k) b).
Proof.
  intros Hk Hb pos Hp. unfold cond.
  destruct (check ts type pos) eqn:E; [|apply Hb; lia].
  apply (runs_advance_at lo); [|assumption|assumption].
  destruct (check_true ts pos type E) as [t [Ht _]]. eauto.
Qed.

Lemma runs_check_any_advance {A} lo types (k : PTok.Token -> M A) (b : M A) :
  (forall t, run (S lo) (k t)) -> run lo b ->
  run lo (cond (check_any ts types) (bind (advance ts) k) b).
Proof.
  intros Hk Hb pos Hp. unfold cond.
  destruct (check_any ts types pos) eqn:E; [|apply Hb; lia].
  apply (runs_advance_at lo); [|assumption|assumption].
  eapply check_any_true; eassumption.
Qed.

Lemma runs_peek lo : run lo (peek ts).
Proof.
  intros pos _. unfold peek, cond, error, throw, at_.
  destruct (is_at_end ts pos); [discriminate|].
  destruct (nth_error ts pos); discriminate.
Qed.

Lemma runs_unexpected_token lo : run lo (unexpected_token ts).
Proof.
  apply runs_bind; [apply runs_peek | apply stays_peek | intros; apply runs_ret].
Qed.

Lemma runs_expect lo type : run lo (expect ts type).
Proof.
  intros pos _.
  destruct (nth_error ts pos) as [t|] eqn:E.
  - destruct (String.eqb_spec (PTok.type t) type) as [Heq|Hne].
    + rewrite (expect_at ts pos t type E Heq). discriminate.
    + rewrite (expect_other ts pos t type E Hne). discriminate.
  - rewrite expect_at_end; [discriminate|].
    unfold is_at_end. apply Nat.leb_le. apply nth_error_None. assumption.
Qed.

Ltac cursor_fact :=
  solve [ cursor ltac:(first [ apply list_until_stays; assumption
                             | apply adv_stays; apply comma_list_adv; assumption
                             | apply comma_list_adv; assumption
                             | apply select_loop_stays; assumption
                             | apply exp2_loop_stays; assumption
                             | apply exp3_loop_stays; assumption
                             | apply exp4_loop_stays; assumption
                             | apply postfix_loop_stays; assumption
                             | apply stmt_loop_stays; assumption
                             | apply let_loop_stays; assumption ]) ].

Ltac runs_body leaf :=
  first
    [ assumption
    | apply runs_ret
    | apply runs_error
    | apply runs_throw
    | apply runs_expect
    | apply runs_peek
    | apply runs_unexpected_token
    | solve [leaf]
    | apply runs_check_advance; [intros ?; runs_body leaf | runs_body leaf]
    | apply runs_check_any_advance; [intros ?; runs_body leaf | runs_body leaf]
    | apply runs_cond; [runs_body leaf | runs_body leaf]
    | apply runs_bind_adv; [runs_body leaf | cursor_fact | intros ?; runs_body leaf]
    | apply runs_bind; [runs_body leaf | cursor_fact | intros ?; runs_body leaf]
    | match goal with
      | |- runs _ _ (if ?c then _ else _) => destruct c; runs_body leaf
      | |- runs _ _ (match ?x with stoll_value _ => _ | _ => _ end) =>
          destruct x; runs_body leaf
      | |- runs _ _ (match ?x with Val _ => _ | _ => _ end) => destruct x; runs_body leaf
      | |- runs _ _ (match ?x with CallExp _ => _ | _ => _ end) =>
          destruct x; runs_body leaf
      end ].

(** A hypothesis about a smaller cursor. *)
Ltac weaker := solve [ eapply runs_weaken; [eassumption | lia] ].

(** An induction hypothesis [H], or a lemma, whose fuel bound [lia] checks
    once the cursor is known to be inside the stream. *)
Ltac by_bound H := solve [ apply runs_cases; intros ?; apply H; lia ].

Lemma comma_list_runs {A} fuel : forall lo (item : M A) v,
  len - lo < fuel -> adv item -> run lo item ->
  run lo (comma_list ts fuel item v).
Proof.
  induction fuel as [|n IH]; intros lo item v Hn Ha Hr; [lia|].
  step.
  runs_body ltac:(apply runs_cases; intros ?; apply IH; [lia | assumption | weaker]).
Qed.

Lemma list_until_runs {A} close fuel lo (item : M A) :
  len - lo < fuel -> adv item -> run lo item ->
  run lo (list_until ts close fuel item).
Proof.
  intros Hn Ha Hr. unfold list_until.
  runs_body ltac:(apply comma_list_runs; assumption).
Qed.

Lemma parse_type_runs fuel :
  (forall lo, 8 * (len - lo) + 2 <= fuel -> run lo (parse_type ts fuel))
  /\ (forall lo, 8 * (len - lo) + 1 <= fuel -> run lo (parse_funtype ts fuel)).
Proof.
  induction fuel as [|n [IH1 IH2]]; [split; intros; lia|].
  pose proof (parse_type_adv n) as [Ha1 Ha2].
  split; intros lo Hn; step;
    runs_body ltac:(first [ by_bound IH1 | by_bound IH2
                          | apply runs_cases; intros ?; apply list_until_runs;
                            [lia | assumption | by_bound IH1] ]).
Qed.

Lemma parse_decl_runs fuel lo :
  8 * (len - lo) + 2 <= fuel -> run lo (parse_decl ts fuel).
Proof.
  intros Hn. pose proof (proj1 (parse_type_runs fuel)) as Ht.
  pose proof (proj1 (parse_type_adv fuel)) as At.
  unfold parse_decl. runs_body ltac:(by_bound Ht).
Qed.

Lemma select_loop_runs fuel : forall lo (exp exp1 : M Exp) left,
  len - lo < fuel -> adv exp -> adv exp1 -> run (S lo) exp -> run (S lo) exp1 ->
  run lo (select_loop ts fuel exp exp1 left).
Proof.
  induction fuel as [|n IH]; intros lo exp exp1 left Hn Ha Ha1 Hr Hr1; [lia|].
  step.
  runs_body ltac:(first [ weaker
                        | apply runs_cases; intros ?; apply IH;
                          [lia | assumption | assumption | weaker | weaker] ]).
Qed.

Lemma exp2_loop_runs fuel : forall lo (operand : M Exp) left,
  len - lo < fuel -> adv operand -> run (S lo) operand ->
  run lo (exp2_loop ts fuel operand left).
Proof.
  induction fuel as [|n IH]; intros lo operand left Hn Ha Hr; [lia|].
  step.
  runs_body ltac:(first [ weaker
                        | apply runs_cases; intros ?; apply IH;
                          [lia | assumption | weaker] ]).
Qed.

Lemma exp3_loop_runs fuel : forall lo (operand : M Exp) left,
  len - lo < fuel -> adv operand -> run (S lo) operand ->
  run lo (exp3_loop ts fuel operand left).
Proof.
  induction fuel as [|n IH]; intros lo operand left Hn Ha Hr; [lia|].
  step.
  runs_body ltac:(first [ weaker
                        | apply runs_cases; intros ?; apply IH;
                          [lia | assumption | weaker] ]).
Qed.

Lemma exp4_loop_runs fuel : forall lo (operand : M Exp) left,
  len - lo < fuel -> adv operand -> run (S lo) operand ->
  run lo (exp4_loop ts fuel operand left).
Proof.
  induction fuel as [|n IH]; intros lo operand left Hn Ha Hr; [lia|].
  step.
  runs_body ltac:(first [ weaker
                        | apply runs_cases; intros ?; apply IH;
                          [lia | assumption | weaker] ]).
Qed.

Lemma postfix_loop_runs fuel : forall lo (exp : M Exp) e,
  len - lo < fuel -> adv exp -> run (S lo) exp ->
  run lo (postfix_loop ts fuel exp e).
Proof.
  induction fuel as [|n IH]; intros lo exp e Hn Ha Hr; [lia|].
  step.
  runs_body ltac:(first [ weaker
                        | apply runs_cases; intros ?; apply IH;
                          [lia | assumption | weaker]
                        | apply runs_cases; intros ?; apply list_until_runs;
                          [lia | assumption | weaker] ]).
Qed.

Lemma parse_exp_runs fuel :
  (forall lo, 8 * (len - lo) + 8 <= fuel -> run lo (parse_exp ts fuel))
  /\ (forall lo, 8 * (len - lo) + 7 <= fuel -> run lo (parse_exp1 ts fuel))
  /\ (forall lo, 8 * (len - lo) + 6 <= fuel -> run lo (parse_exp2 ts fuel))
  /\ (forall lo, 8 * (len - lo) + 5 <= fuel -> run lo (parse_exp3 ts fuel))
  /\ (forall lo, 8 * (len - lo) + 4 <= fuel -> run lo (parse_exp4 ts fuel))
  /\ (forall lo, 8 * (len - lo) + 3 <= fuel -> run lo (parse_exp5 ts fuel))
  /\ (forall lo, 8 * (len - lo) + 2 <= fuel -> run lo (parse_exp6 ts fuel))
  /\ (forall lo, 8 * (len - lo) + 1 <= fuel -> run lo (parse_exp7 ts fuel)).
Proof.
  induction fuel as [|n (IH & IH1 & IH2 & IH3 & IH4 & IH5 & IH6 & IH7)];
    [repeat apply conj; intros; lia|].
  pose proof (parse_exp_adv n) as (A & A1 & A2 & A3 & A4 & A5 & A6 & A7).
  pose proof (proj1 (parse_type_adv n)) as At.
  pose proof (proj1 (parse_type_runs n)) as Rt.
  repeat apply conj; intros lo Hn; step;
    runs_body ltac:(first
      [ by_bound IH | by_bound IH1 | by_bound IH2 | by_bound IH3 | by_bound IH4
      | by_bound IH5 | by_bound IH6 | by_bound IH7 | by_bound Rt
      | apply runs_cases; intros ?; apply select_loop_runs;
        [lia | assumption | assumption | by_bound IH | by_bound IH1]
      | apply runs_cases; intros ?; apply exp2_loop_runs;
        [lia | assumption | by_bound IH3]
      | apply runs_cases; intros ?; apply exp3_loop_runs;
        [lia | assumption | by_bound IH4]
      | apply runs_cases; intros ?; apply exp4_loop_runs;
        [lia | assumption | by_bound IH5]
      | apply runs_cases; intros ?; apply postfix_loop_runs;
        [lia | assumption | by_bound IH] ]).
Qed.

Lemma stmt_loop_runs fuel : forall lo (stmt : M Stmt) stmts,
  len - lo < fuel -> adv stmt -> run lo stmt ->
  run lo (stmt_loop ts fuel stmt stmts).
Proof.
  induction fuel as [|n IH]; intros lo stmt stmts Hn Ha Hr; [lia|].
  step.
  runs_body ltac:(apply runs_cases; intros ?; apply IH; [lia | assumption | weaker]).
Qed.

Lemma parse_return_stmt_runs fuel lo :
  8 * (len - lo) + 1 <= fuel -> run lo (parse_return_stmt ts fuel).
Proof.
  intros Hn. pose proof (proj1 (parse_exp_runs fuel)) as He.
  pose proof (proj1 (parse_exp_adv fuel)) as Ae.
  unfold parse_return_stmt. runs_body ltac:(by_bound He).
Qed.

Lemma expression_statement_runs fuel lo :
  8 * (len - lo) + 8 <= fuel -> run lo (expression_statement ts fuel).
Proof.
  intros Hn. pose proof (proj1 (parse_exp_runs fuel)) as He.
  pose proof (proj1 (parse_exp_adv fuel)) as Ae.
  unfold expression_statement. runs_body ltac:(by_bound He).
Qed.

Lemma parse_stmt_runs fuel :
  (forall lo, 8 * (len - lo) + 9 <= fuel -> run lo (parse_stmt ts fuel))
  /\ (forall lo, 8 * (len - lo) + 8 <= fuel -> run lo (parse_if_stmt ts fuel))
  /\ (forall lo, 8 * (len - lo) + 8 <= fuel -> run lo (parse_block ts fuel))
  /\ (forall lo, 8 * (len - lo) + 8 <= fuel -> run lo (parse_while_stmt ts fuel)).
Proof.
  induction fuel as [|n (IH & IH1 & IH2 & IH3)]; [repeat apply conj; intros; lia|].
  pose proof (parse_stmt_adv n) as (A & A1 & A2 & A3).
  pose proof (proj1 (parse_exp_adv n)) as Ae.
  pose proof (proj1 (parse_exp_runs n)) as Re.
  pose proof (parse_return_stmt_runs n) as Rr.
  pose proof (expression_statement_runs n) as Rx.
  repeat apply conj; intros lo Hn; step;
    runs_body ltac:(first
      [ by_bound IH | by_bound IH1 | by_bound IH2 | by_bound IH3
      | by_bound Re | by_bound Rr | by_bound Rx
      | apply runs_cases; intros ?; apply stmt_loop_runs;
        [lia | assumption | by_bound IH] ]).
Qed.

Lemma let_loop_runs fuel : forall lo (decl : M Decl) locals,
  len - lo < fuel -> adv decl -> run (S lo) decl ->
  run lo (let_loop ts fuel decl locals).
Proof.
  induction fuel as [|n IH]; intros lo decl locals Hn Ha Hr; [lia|].
  step.
  runs_body ltac:(first [ apply runs_cases; intros ?; apply IH;
                          [lia | assumption | weaker]
                        | apply runs_cases; intros ?; apply comma_list_runs;
                          [lia | assumption | weaker] ]).
Qed.

Lemma parse_function_def_runs fuel lo :
  8 * (len - lo) + 9 <= fuel -> run lo (parse_function_def ts fuel).
Proof.
  intros Hn.
  pose proof (proj1 (parse_type_adv fuel)) as At.
  pose proof (parse_decl_adv fuel) as Ad.
  pose proof (proj1 (parse_stmt_adv fuel)) as As.
  pose proof (proj1 (parse_type_runs fuel)) as Rt.
  pose proof (parse_decl_runs fuel) as Rd.
  pose proof (proj1 (parse_stmt_runs fuel)) as Rs.
  unfold parse_function_def.
  runs_body ltac:(first
    [ by_bound Rt
    | apply runs_cases; intros ?; apply list_until_runs; [lia | assumption | by_bound Rd]
    | apply runs_cases; intros ?; apply let_loop_runs; [lia | assumption | by_bound Rd]
    | apply runs_cases; intros ?; apply stmt_loop_runs; [lia | assumption | by_bound Rs] ]).
Qed.

Lemma parse_struct_def_runs fuel lo :
  8 * (len - lo) + 9 <= fuel -> run lo (parse_struct_def ts fuel).
Proof.
  intros Hn.
  pose proof (parse_decl_adv fuel) as Ad.
  pose proof (parse_decl_runs fuel) as Rd.
  unfold parse_struct_def.
  runs_body ltac:(apply runs_cases; intros ?; apply list_until_runs;
                  [lia | assumption | by_bound Rd]).
Qed.

Lemma parse_extern_def_runs fuel lo :
  8 * (len - lo) + 9 <= fuel -> run lo (parse_extern_def ts fuel).
Proof.
  intros Hn.
  pose proof (proj2 (parse_type_adv fuel)) as At.
  pose proof (proj2 (parse_type_runs fuel)) as Rt.
  unfold parse_extern_def. runs_body ltac:(by_bound Rt).
Qed.

Lemma program_loop_runs n : forall fuel lo program,
  len - lo < n -> 8 * (len - lo) + 9 <= fuel ->
  run lo (program_loop ts n fuel program).
Proof.
  induction n as [|n IH]; intros fuel lo program Hn Hf; [lia|].
  pose proof (parse_struct_def_adv fuel) as As.
  pose proof (parse_extern_def_adv fuel) as Ax.
  pose proof (parse_function_def_adv fuel) as Af.
  pose proof (parse_struct_def_runs fuel) as Rs.
  pose proof (parse_extern_def_runs fuel) as Rx.
  pose proof (parse_function_def_runs fuel) as Rf.
  step.
  runs_body ltac:(first
    [ by_bound Rs | by_bound Rx | by_bound Rf
    | apply runs_cases; intros ?; apply IH; lia ]).
Qed.

End ParserProgress.

(** X19.  An expression takes at least one token, and the parser does not read
    past the end of the stream: when [parse_exp] returns, the cursor has
    moved forward and is at most the number of tokens. *)
Theorem parse_exp_consumes (ts : list PTok.Token) (fuel pos : nat)
  (e : Ast.Exp) (pos' : nat) :
  Parser.parse_exp ts fuel pos = Parser.Ok e pos' -> pos < pos' <= List.length ts.
Proof. apply (proj1 (parse_exp_adv ts fuel)). Qed.

Lemma parse_exp_consumes_witness :
  Parser.parse_exp (ParseMain.tokenize_input "Id(a) Plus Num(1) Semicolon") 12 0
  = Parser.Ok (Ast.BinOp BinaryOp.Add (Ast.Val (Ast.Id "a")) (Ast.Num 1)) 3
  /\ 0 < 3 <= List.length (ParseMain.tokenize_input "Id(a) Plus Num(1) Semicolon").
Proof.
  split; [vm_compute; reflexivity|].
  apply (parse_exp_consumes (ParseMain.tokenize_input "Id(a) Plus Num(1) Semicolon") 12 0
           (Ast.BinOp BinaryOp.Add (Ast.Val (Ast.Id "a")) (Ast.Num 1)) 3).
  vm_compute; reflexivity.
Defined.

(** X20.  A statement, a block, a type and a declaration take at least one
    token each, and none reads past the end of the stream. *)
Theorem parse_stmt_consumes (ts : list PTok.Token) (fuel : nat) :
  advances (List.length ts) (Parser.parse_stmt ts fuel)
  /\ advances (List.length ts) (Parser.parse_block ts fuel)
  /\ advances (List.length ts) (Parser.parse_type ts fuel)
  /\ advances (List.length ts) (Parser.parse_decl ts fuel).
Proof.
  pose proof (parse_stmt_adv ts fuel) as (H1 & _ & H2 & _).
  pose proof (proj1 (parse_type_adv ts fuel)) as H3.
  pose proof (parse_decl_adv ts fuel) as H4.
  auto.
Qed.

(** X21.  [parse] accepts whole streams only: when it returns a program, the
    cursor is at the end of the token stream. *)
Theorem parse_reads_all (ts : list PTok.Token) (fuel : nat)
  (program : Ast.Program) (pos : nat) :
  Parser.parse ts fuel = Parser.Ok program pos -> pos = List.length ts.
Proof.
  unfold Parser.parse, Parser.parse_program, Parser.cond.
  destruct (Parser.is_at_end ts 0); [discriminate|].
  apply program_loop_ends. lia.
Qed.

Lemma parse_reads_all_witness :
  Parser.parse (ParseMain.tokenize_input "Struct Id(s) OpenBrace CloseBrace") 12
  = Parser.Ok (Ast.mkProgram [Ast.mkStructDef "s" []] [] []) 4
  /\ 4 = List.length (ParseMain.tokenize_input "Struct Id(s) OpenBrace CloseBrace").
Proof.
  split; [vm_compute; reflexivity|].
  apply (parse_reads_all (ParseMain.tokenize_input "Struct Id(s) OpenBrace CloseBrace") 12
           (Ast.mkProgram [Ast.mkStructDef "s" []] [] []) 4).
  vm_compute; reflexivity.
Defined.

(** X22.  The parser terminates: a fuel of eight per token and nine more is
    enough for [parse] on any token stream, and with more fuel it returns
    or throws the same. *)
Theorem parse_terminates (ts : list PTok.Token) (k : nat) :
  let fuel := 8 * List.length ts + 9 in
  Parser.parse ts fuel <> Parser.OutOfFuel
  /\ Parser.parse ts (fuel + k) = Parser.parse ts fuel.
Proof.
  intros fuel.
  assert (H : Parser.parse ts fuel <> Parser.OutOfFuel).
  { unfold Parser.parse, Parser.parse_program, Parser.cond.
    destruct (Parser.is_at_end ts 0); [discriminate|].
    apply (program_loop_runs ts fuel fuel 0); unfold fuel; lia. }
  split; [exact H|]. apply parse_fuel; [reflexivity | exact H].
Qed.

Section ParserExceptions.
Import Ast Parser.
Local Open Scope string_scope.

Variable ts : list PTok.Token.

Local Abbreviation thr := (throws_parse_errors ts).

Lemma thr_ret {A} (a : A) : thr (ret a).
Proof. intros pos e. discriminate. Qed.

Lemma thr_out_of_fuel {A} : thr (@out_of_fuel A).
Proof. intros pos e. discriminate. Qed.

Lemma thr_error {A} message : parse_error_message message -> thr (@error A message).
Proof. intros H pos e [= <-]. left. exists message. auto. Qed.

Lemma thr_invalid_argument {A} : has_bad_num ts -> thr (@throw A invalid_argument).
Proof. intros H pos e [= <-]. right. auto. Qed.

Lemma thr_bind {A B} (m : M A) (k : A -> M B) :
  thr m -> (forall a, thr (k a)) -> thr (bind m k).
Proof.
  intros Hm Hk pos e. unfold bind.
  destruct (m pos) as [a p1|e'|] eqn:E; [apply Hk | | discriminate].
  intros [= <-]. exact (Hm pos e' E).
Qed.

Lemma thr_cond {A} c (a b : M A) : thr a -> thr b -> thr (cond c a b).
Proof. intros Ha Hb pos e. unfold cond. destruct (c pos); [apply Ha | apply Hb]. Qed.

Lemma thr_check_advance {A} type (k : PTok.Token -> M A) (b : M A) :
  (forall t, In t ts -> PTok.type t = type -> thr (k t)) -> thr b ->
  thr (cond (check ts type) (bind (advance ts) k) b).
Proof.
  intros Hk Hb pos e. unfold cond.
  destruct (check ts type pos) eqn:E; [|apply Hb].
  destruct (check_true ts pos type E) as [t [Ht Hty]].
  unfold bind. rewrite (advance_at ts pos t Ht).
  apply Hk; [eapply nth_error_In; eassumption | assumption].
Qed.

Lemma thr_check_any_advance {A} types (k : PTok.Token -> M A) (b : M A) :
  (forall t, In t ts -> thr (k t)) -> thr b ->
  thr (cond (check_any ts types) (bind (advance ts) k) b).
Proof.
  intros Hk Hb pos e. unfold cond.
  destruct (check_any ts types pos) eqn:E; [|apply Hb].
  destruct (check_any_true ts types pos E) as [t Ht].
  unfold bind. rewrite (advance_at ts pos t Ht).
  apply Hk. eapply nth_error_In; eassumption.
Qed.

Lemma thr_peek : thr (peek ts).
Proof.
  intros pos e. unfold peek, cond, at_.
  destruct (is_at_end ts pos) eqn:E.
  - apply thr_error. constructor.
  - unfold is_at_end in E. apply Nat.leb_gt in E.
    destruct (nth_error ts pos) eqn:En; [discriminate|].
    apply nth_error_None in En. lia.
Qed.

Lemma thr_unexpected_token {A} (k : string -> M A) :
  (forall i, thr (k ("unexpected token at token " ++ to_string i))) ->
  thr (bind (unexpected_token ts) k).
Proof.
  intros Hk. unfold unexpected_token.
  intros pos e. unfold bind at 1 2.
  destruct (peek ts pos) as [t p1|e'|] eqn:E; [apply Hk | | discriminate].
  intros [= <-]. exact (thr_peek pos e' E).
Qed.

Lemma thr_expect type : thr (expect ts type).
Proof.
  intros pos e.
  destruct (nth_error ts pos) as [t|] eqn:E.
  - destruct (String.eqb_spec (PTok.type t) type) as [Heq|Hne].
    + rewrite (expect_at ts pos t type E Heq). discriminate.
    + rewrite (expect_other ts pos t type E Hne). intros [= <-].
      left. eexists. split; [reflexivity | constructor].
  - rewrite expect_at_end.
    + intros [= <-]. left. eexists. split; [reflexivity | constructor].
    + unfold is_at_end. apply Nat.leb_le. apply nth_error_None. assumption.
Qed.

Ltac thr_body leaf :=
  first
    [ assumption
    | apply thr_ret
    | apply thr_out_of_fuel
    | apply thr_expect
    | apply thr_peek
    | apply thr_error; solve [constructor]
    | solve [leaf]
    | apply thr_unexpected_token; intros ?; thr_body leaf
    | apply thr_check_advance; [intros ? ? ?; thr_body leaf | thr_body leaf]
    | apply thr_check_any_advance; [intros ? ?; thr_body leaf | thr_body leaf]
    | apply thr_cond; [thr_body leaf | thr_body leaf]
    | apply thr_bind; [thr_body leaf | intros ?; thr_body leaf]
    | match goal with
      | |- throws_parse_errors _ (if ?c then _ else _) => destruct c; thr_body leaf
      | Hin : In ?t ts, Hty : PTok.type ?t = "Num"
        |- throws_parse_errors _ (match stoll (PTok.value ?t) with
                                  | stoll_value _ => _ | _ => _ end) =>
          let E := fresh "E" in
          destruct (stoll (PTok.value t)) eqn:E;
          [ thr_body leaf
          | apply thr_invalid_argument; exists t; auto
          | thr_body leaf ]
      | |- throws_parse_errors _ (match ?x with Val _ => _ | _ => _ end) =>
          destruct x; thr_body leaf
      | |- throws_parse_errors _ (match ?x with CallExp _ => _ | _ => _ end) =>
          destruct x; thr_body leaf
      end ].

Ltac step :=
  cbn [comma_list parse_type parse_funtype select_loop exp2_loop exp3_loop exp4_loop
       postfix_loop parse_exp parse_exp1 parse_exp2 parse_exp3 parse_exp4 parse_exp5
       parse_exp6 parse_exp7 stmt_loop parse_stmt parse_if_stmt parse_block
       parse_while_stmt let_loop program_loop].

Lemma comma_list_thr {A} fuel : forall (item : M A) v,
  thr item -> thr (comma_list ts fuel item v).
Proof.
  induction fuel as [|n IH]; intros item v Hi; [apply thr_out_of_fuel|].
  step. thr_body ltac:(apply IH; assumption).
Qed.

Lemma list_until_thr {A} close fuel (item : M A) :
  thr item -> thr (list_until ts close fuel item).
Proof.
  intros Hi. unfold list_until. thr_body ltac:(apply comma_list_thr; assumption).
Qed.

Lemma parse_type_thr fuel :
  thr (parse_type ts fuel) /\ thr (parse_funtype ts fuel).
Proof.
  induction fuel as [|n [IH1 IH2]]; [split; apply thr_out_of_fuel|].
  split; step; thr_body ltac:(apply list_until_thr; assumption).
Qed.

Lemma parse_decl_thr fuel : thr (parse_decl ts fuel).
Proof.
  pose proof (proj1 (parse_type_thr fuel)).
  unfold parse_decl. thr_body fail.
Qed.

Lemma select_loop_thr fuel : forall (exp exp1 : M Exp) left,
  thr exp -> thr exp1 -> thr (select_loop ts fuel exp exp1 left).
Proof.
  induction fuel as [|n IH]; intros exp exp1 left H H1; [apply thr_out_of_fuel|].
  step. thr_body ltac:(apply IH; assumption).
Qed.

Lemma exp2_loop_thr fuel : forall (operand : M Exp) left,
  thr operand -> thr (exp2_loop ts fuel operand left).
Proof.
  induction fuel as [|n IH]; intros operand left H; [apply thr_out_of_fuel|].
  step. thr_body ltac:(apply IH; assumption).
Qed.

Lemma exp3_loop_thr fuel : forall (operand : M Exp) left,
  thr operand -> thr (exp3_loop ts fuel operand left).
Proof.
  induction fuel as [|n IH]; intros operand left H; [apply thr_out_of_fuel|].
  step. thr_body ltac:(apply IH; assumption).
Qed.

Lemma exp4_loop_thr fuel : forall (operand : M Exp) left,
  thr operand -> thr (exp4_loop ts fuel operand left).
Proof.
  induction fuel as [|n IH]; intros operand left H; [apply thr_out_of_fuel|].
  step. thr_body ltac:(apply IH; assumption).
Qed.

Lemma postfix_loop_thr fuel : forall (exp : M Exp) e,
  thr exp -> thr (postfix_loop ts fuel exp e).
Proof.
  induction fuel as [|n IH]; intros exp e H; [apply thr_out_of_fuel|].
  step. thr_body ltac:(first [apply IH; assumption | apply list_until_thr; assumption]).
Qed.

Lemma parse_exp_thr fuel :
  thr (parse_exp ts fuel) /\ thr (parse_exp1 ts fuel)
  /\ thr (parse_exp2 ts fuel) /\ thr (parse_exp3 ts fuel)
  /\ thr (parse_exp4 ts fuel) /\ thr (parse_exp5 ts fuel)
  /\ thr (parse_exp6 ts fuel) /\ thr (parse_exp7 ts fuel).
Proof.
  induction fuel as [|n (IH & IH1 & IH2 & IH3 & IH4 & IH5 & IH6 & IH7)];
    [repeat apply conj; apply thr_out_of_fuel|].
  pose proof (proj1 (parse_type_thr n)) as Ht.
  repeat apply conj; step;
    thr_body ltac:(first [ apply select_loop_thr; assumption
                         | apply exp2_loop_thr; assumption
                         | apply exp3_loop_thr; assumption
                         | apply exp4_loop_thr; assumption
                         | apply postfix_loop_thr; assumption ]).
Qed.

Lemma stmt_loop_thr fuel : forall (stmt : M Stmt) stmts,
  thr stmt -> thr (stmt_loop ts fuel stmt stmts).
Proof.
  induction fuel as [|n IH]; intros stmt stmts H; [apply thr_out_of_fuel|].
  step. thr_body ltac:(apply IH; assumption).
Qed.

Lemma parse_return_stmt_thr fuel : thr (parse_return_stmt ts fuel).
Proof.
  pose proof (proj1 (parse_exp_thr fuel)).
  unfold parse_return_stmt. thr_body fail.
Qed.

Lemma expression_statement_thr fuel : thr (expression_statement ts fuel).
Proof.
  pose proof (proj1 (parse_exp_thr fuel)).
  unfold expression_statement. thr_body fail.
Qed.

Lemma parse_stmt_thr fuel :
  thr (parse_stmt ts fuel) /\ thr (parse_if_stmt ts fuel)
  /\ thr (parse_block ts fuel) /\ thr (parse_while_stmt ts fuel).
Proof.
  induction fuel as [|n (IH & IH1 & IH2 & IH3)];
    [repeat apply conj; apply thr_out_of_fuel|].
  pose proof (proj1 (parse_exp_thr n)) as He.
  pose proof (parse_return_stmt_thr n) as Hr.
  pose proof (expression_statement_thr n) as Hx.
  repeat apply conj; step; thr_body ltac:(apply stmt_loop_thr; assumption).
Qed.

Lemma let_loop_thr fuel : forall (decl : M Decl) locals,
  thr decl -> thr (let_loop ts fuel decl locals).
Proof.
  induction fuel as [|n IH]; intros decl locals H; [apply thr_out_of_fuel|].
  step.
  thr_body ltac:(first [apply IH; assumption | apply comma_list_thr; assumption]).
Qed.

Lemma parse_function_def_thr fuel : thr (parse_function_def ts fuel).
Proof.
  pose proof (proj1 (parse_type_thr fuel)) as Ht.
  pose proof (parse_decl_thr fuel) as Hd.
  pose proof (proj1 (parse_stmt_thr fuel)) as Hs.
  unfold parse_function_def.
  thr_body ltac:(first [ apply list_until_thr; assumption
                       | apply let_loop_thr; assumption
                       | apply stmt_loop_thr; assumption ]).
Qed.

Lemma parse_struct_def_thr fuel : thr (parse_struct_def ts fuel).
Proof.
  pose proof (parse_decl_thr fuel) as Hd.
  unfold parse_struct_def. thr_body ltac:(apply list_until_thr; assumption).
Qed.

Lemma parse_extern_def_thr fuel : thr (parse_extern_def ts fuel).
Proof.
  pose proof (proj2 (parse_type_thr fuel)) as Ht.
  unfold parse_extern_def. thr_body fail.
Qed.

Lemma program_loop_thr n : forall fuel program,
  thr (program_loop ts n fuel program).
Proof.
  induction n as [|n IH]; intros fuel program; [apply thr_out_of_fuel|].
  pose proof (parse_struct_def_thr fuel).
  pose proof (parse_extern_def_thr fuel).
  pose proof (parse_function_def_thr fuel).
  step. thr_body ltac:(apply IH).
Qed.

Lemma parse_program_thr fuel : thr (parse_program ts fuel).
Proof.
  unfold parse_program.
  apply thr_cond; [apply thr_error; constructor | apply program_loop_thr].
Qed.

End ParserExceptions.

(** X23.  What [parse] throws.  It is a [std::runtime_error] whose message is
    ["parse error: "] followed by one of five messages; or it is the
    [std::invalid_argument] of [std::stoll], and then the stream holds a
    [Num] token whose value has no digits.  A [vector::at] out of range
    does not happen. *)
Theorem parse_throws (ts : list PTok.Token) (fuel : nat) (e : Parser.exn) :
  Parser.parse ts fuel = Parser.Throw e ->
  parse_error e \/ (e = Parser.invalid_argument /\ has_bad_num ts).
Proof.
  apply (parse_program_thr ts fuel 0 e).
Qed.

Lemma parse_throws_witness :
  Parser.parse (ParseMain.tokenize_input "Fn Id(f) OpenParen Num(1)") 40
  = Parser.Throw (Parser.runtime_error "parse error: unexpected token at token 3")
  /\ (parse_error (Parser.runtime_error "parse error: unexpected token at token 3")
      \/ (Parser.runtime_error "parse error: unexpected token at token 3"
          = Parser.invalid_argument
          /\ has_bad_num (ParseMain.tokenize_input "Fn Id(f) OpenParen Num(1)"))).
Proof.
  split; [vm_compute; reflexivity|].
  apply (parse_throws (ParseMain.tokenize_input "Fn Id(f) OpenParen Num(1)") 40).
  vm_compute; reflexivity.
Defined.

Section ParserTopLevel.
Import Ast Parser.
Local Open Scope string_scope.
Variable ts : list PTok.Token.

(** X24.  The top level.  On an empty stream [parse] throws [unexpected end of
    token stream]; on a stream whose first token is none of [Struct],
    [Extern] and [Fn] it throws [unexpected token] with the index of that
    token. *)
Theorem parse_first_token fuel :
  (ts = [] ->
   parse ts fuel = Throw (runtime_error "parse error: unexpected end of token stream"))
  /\ (forall t rest, ts = t :: rest ->
      ~ In (PTok.type t) ["Struct"; "Extern"; "Fn"] ->
      parse ts (S fuel)
      = Throw (runtime_error ("parse error: unexpected token at token "
                              ++ to_string (PTok.index t)))).
Proof.
  split.
  - intros ->. reflexivity.
  - intros t rest -> Hne.
    assert (Hc : forall type, In type ["Struct"; "Extern"; "Fn"] ->
                   check (t :: rest) type 0 = false).
    { intros type Hin. rewrite (check_at (t :: rest) 0 t type eq_refl).
      apply String.eqb_neq. intros Heq. apply Hne. rewrite Heq. assumption. }
    unfold parse, parse_program, cond. cbn [is_at_end List.length Nat.leb].
    cbn [program_loop]. unfold cond. cbn [is_at_end List.length Nat.leb].
    rewrite !Hc by (simpl; tauto).
    unfold bind, unexpected_token, bind, ret.
    rewrite (peek_at (t :: rest) 0 t eq_refl). reflexivity.
Qed.

End ParserTopLevel.

(* ===================================================================== *)
(** * The grammar of types *)
(* ===================================================================== *)

Section TypeGrammar.
Import Ast Parser.
Local Open Scope string_scope.
Variable ts : list PTok.Token.

Lemma bind_ok {A B} (m : M A) (k : A -> M B) pos v pos' :
  bind m k pos = Ok v pos' ->
  exists a pos1, m pos = Ok a pos1 /\ k a pos1 = Ok v pos'.
Proof.
  unfold bind. destruct (m pos) as [a p1| |]; try discriminate. eauto.
Qed.

Lemma check_advance pos type :
  check ts type pos = true ->
  exists t, nth_error ts pos = Some t /\ PTok.type t = type
            /\ advance ts pos = Ok t (S pos).
Proof.
  intros H. destruct (check_true ts pos type H) as [t [Ht Hty]].
  exists t. repeat split; try assumption. apply advance_at. assumption.
Qed.

Lemma expect_check pos type t pos' :
  expect ts type pos = Ok t pos' -> check ts type pos = true /\ pos' = S pos.
Proof.
  intros H. apply expect_ok in H. destruct H as (Hn & Hty & ->).
  split; [|reflexivity]. rewrite (check_at ts pos t type Hn). apply String.eqb_eq. assumption.
Qed.

Lemma check_expect pos type :
  check ts type pos = true -> exists t, expect ts type pos = Ok t (S pos).
Proof.
  intros H. destruct (check_true ts pos type H) as [t [Ht Hty]].
  exists t. apply expect_at; assumption.
Qed.

(** ** What [parse_type] returns is spelled by the tokens it has read *)

Lemma comma_list_spells fuel : forall (item : M Type_) v pos l pos',
  (forall p T p', item p = Ok T p' -> spells ts p T p') ->
  comma_list ts fuel item v pos = Ok l pos' ->
  exists T Ts, l = (v ++ T :: Ts)%list /\ spells_list ts pos (T :: Ts) pos'.
Proof.
  induction fuel as [|n IH]; intros item v pos l pos' Hi; [discriminate|].
  cbn [comma_list]. intros H.
  apply bind_ok in H. destruct H as (x & p1 & Hx & H).
  apply Hi in Hx. revert H. unfold cond.
  destruct (check ts "Comma" p1) eqn:E.
  - destruct (check_advance p1 "Comma" E) as (t & _ & _ & Ha).
    unfold bind at 1. rewrite Ha. intros H.
    destruct (IH item _ _ _ _ Hi H) as (T' & Ts & -> & Hl).
    exists x, (T' :: Ts). rewrite <- app_assoc. split; [reflexivity|].
    eapply spells_more; eassumption.
  - intros [= <- <-]. exists x, []. split; [reflexivity|].
    apply spells_last; assumption.
Qed.

Lemma parse_type_spells fuel :
  (forall pos T pos', parse_type ts fuel pos = Ok T pos' -> spells ts pos T pos')
  /\ (forall pos T pos', parse_funtype ts fuel pos = Ok T pos' -> spells ts pos T pos').
Proof.
  induction fuel as [|n [IH1 IH2]]; [split; discriminate|].
  split; intros pos T pos'.
  - cbn [parse_type]. unfold cond.
    destruct (check ts "Int" pos) eqn:E1.
    { destruct (check_advance pos "Int" E1) as (t & _ & _ & Ha).
      unfold bind. rewrite Ha. intros [= <- <-]. apply spells_int. assumption. }
    destruct (check ts "Id" pos) eqn:E2.
    { destruct (check_advance pos "Id" E2) as (t & Ht & _ & Ha).
      unfold bind. rewrite Ha. intros [= <- <-]. apply spells_struct; assumption. }
    destruct (check ts "Ampersand" pos) eqn:E3.
    { destruct (check_advance pos "Ampersand" E3) as (t & _ & _ & Ha).
      unfold bind at 1. rewrite Ha. intros H.
      apply bind_ok in H. destruct H as (inner & p1 & Hin & [= <- <-]).
      apply spells_ptr; [assumption | apply IH1; assumption]. }
    destruct (check ts "OpenBracket" pos) eqn:E4.
    { destruct (check_advance pos "OpenBracket" E4) as (t & _ & _ & Ha).
      unfold bind at 1. rewrite Ha. intros H.
      apply bind_ok in H. destruct H as (inner & p1 & Hin & H).
      apply bind_ok in H. destruct H as (c & p2 & Hc & [= <- <-]).
      apply expect_check in Hc. destruct Hc as [Hc ->].
      apply spells_array; [assumption | apply IH1; assumption | assumption]. }
    apply IH2.
  - cbn [parse_funtype]. intros H.
    apply bind_ok in H. destruct H as (o & p1 & Ho & H).
    apply expect_check in Ho. destruct Ho as [Ho ->].
    apply bind_ok in H. destruct H as (param_types & p2 & Hl & H).
    apply bind_ok in H. destruct H as (c & p3 & Hc & H).
    apply expect_check in Hc. destruct Hc as [Hc ->].
    apply bind_ok in H. destruct H as (a & p4 & Har & H).
    apply expect_check in Har. destruct Har as [Har ->].
    apply bind_ok in H. destruct H as (return_type & p5 & Hr & [= <- <-]).
    apply (spells_fn ts pos param_types p2); try assumption; [|apply IH1; assumption].
    revert Hl. unfold list_until, cond.
    destruct (check ts "CloseParen" (S pos)).
    + intros [= <- <-]. apply spells_none.
    + intros Hl. apply comma_list_spells in Hl; [|exact IH1].
      destruct Hl as (T0 & Ts & -> & Hl). exact Hl.
Qed.

(** ** The parser reads every spelling *)

(** A spelling starts with a token that opens a type. *)
Lemma spells_start pos T pos' type :
  spells ts pos T pos' ->
  ~ In type ["Int"; "Id"; "Ampersand"; "OpenBracket"; "OpenParen"] ->
  check ts type pos = false.
Proof.
  intros H Hne.
  assert (Hc : exists type', check ts type' pos = true
                 /\ In type' ["Int"; "Id"; "Ampersand"; "OpenBracket"; "OpenParen"]).
  { destruct H; eexists; (split; [eassumption|]); simpl; tauto. }
  destruct Hc as (type' & Hc & Hin).
  apply (check_other ts pos type' type Hc). intros ->. contradiction.
Qed.

Lemma parse_type_reads :
  (forall pos T pos', spells ts pos T pos' ->
     exists n, forall fuel, n <= fuel -> parse_type ts fuel pos = Ok T pos')
  /\ (forall pos Ts pos', spells_list ts pos Ts pos' ->
      Ts <> [] ->
      exists n, forall fuel fuel' v, n <= fuel -> n <= fuel' ->
        comma_list ts fuel (parse_type ts fuel') v pos = Ok (v ++ Ts)%list pos').
Proof.
  apply spells_mutual.
  - (* Int *)
    intros pos E. exists 1. intros [|fuel] Hf; [lia|].
    cbn [parse_type]. unfold cond. rewrite E.
    destruct (check_advance pos "Int" E) as (t & _ & _ & Ha).
    unfold bind. rewrite Ha. reflexivity.
  - (* Id *)
    intros pos t E Ht. exists 1. intros [|fuel] Hf; [lia|].
    cbn [parse_type]. unfold cond.
    rewrite (check_other ts pos "Id" "Int" E) by discriminate. rewrite E.
    unfold bind. rewrite (advance_at ts pos t Ht). reflexivity.
  - (* & *)
    intros pos T pos' E _ [n IH]. exists (S n). intros [|fuel] Hf; [lia|].
    cbn [parse_type]. unfold cond.
    rewrite (check_other ts pos "Ampersand" "Int" E) by discriminate.
    rewrite (check_other ts pos "Ampersand" "Id" E) by discriminate. rewrite E.
    destruct (check_advance pos "Ampersand" E) as (t & _ & _ & Ha).
    unfold bind. rewrite Ha, IH by lia. reflexivity.
  - (* [ ] *)
    intros pos T pos' E _ [n IH] Ec. exists (S n). intros [|fuel] Hf; [lia|].
    cbn [parse_type]. unfold cond.
    rewrite (check_other ts pos "OpenBracket" "Int" E) by discriminate.
    rewrite (check_other ts pos "OpenBracket" "Id" E) by discriminate.
    rewrite (check_other ts pos "OpenBracket" "Ampersand" E) by discriminate.
    rewrite E.
    destruct (check_advance pos "OpenBracket" E) as (t & _ & _ & Ha).
    destruct (check_expect pos' "CloseBracket" Ec) as (c & Hc).
    unfold bind. rewrite Ha, IH by lia. rewrite Hc. reflexivity.
  - (* ( ) -> *)
    intros pos Ts pos1 R pos2 E Hl IHl Ec Ea _ [nr IHr].
    assert (Hparams : exists n, forall fuel, n <= fuel ->
              list_until ts "CloseParen" fuel (parse_type ts fuel) (S pos)
              = Ok Ts pos1).
    { destruct Ts as [|T0 Ts].
      - inversion Hl; subst. exists 0. intros fuel _.
        unfold list_until, cond. rewrite Ec. reflexivity.
      - destruct (IHl ltac:(discriminate)) as [n IH].
        exists n. intros fuel Hf. unfold list_until, cond.
        assert (Hs : check ts "CloseParen" (S pos) = false).
        { inversion Hl; subst; eapply spells_start; try eassumption;
            simpl; intros H; repeat (destruct H as [H|H]; [discriminate H|]); exact H. }
        rewrite Hs. apply (IH fuel fuel []); assumption. }
    destruct Hparams as [nl Hparams].
    exists (S (S (Nat.max nl nr))). intros [|[|fuel]] Hf; try lia.
    cbn [parse_type]. unfold cond.
    rewrite (check_other ts pos "OpenParen" "Int" E) by discriminate.
    rewrite (check_other ts pos "OpenParen" "Id" E) by discriminate.
    rewrite (check_other ts pos "OpenParen" "Ampersand" E) by discriminate.
    rewrite (check_other ts pos "OpenParen" "OpenBracket" E) by discriminate.
    cbn [parse_funtype].
    destruct (check_expect pos "OpenParen" E) as (o & Ho).
    destruct (check_expect pos1 "CloseParen" Ec) as (c & Hc).
    destruct (check_expect (S pos1) "Arrow" Ea) as (a & Har).
    unfold bind. rewrite Ho, Hparams by lia. rewrite Hc, Har, IHr by lia. reflexivity.
  - (* no type *)
    intros pos Hne. congruence.
  - (* the last type *)
    intros pos T pos' _ [n IH] Ec _. exists (S n).
    intros [|fuel] fuel' v Hf Hf'; [lia|].
    cbn [comma_list]. unfold bind, cond. rewrite IH by lia. rewrite Ec. reflexivity.
  - (* a type and a comma *)
    intros pos T pos1 T' Ts pos2 _ [n IH] Ec _ IHl _.
    destruct (IHl ltac:(discriminate)) as [nl IHl'].
    exists (S (Nat.max n nl)). intros [|fuel] fuel' v Hf Hf'; [lia|].
    cbn [comma_list]. unfold bind, cond. rewrite IH by lia. rewrite Ec.
    destruct (check_advance pos1 "Comma" Ec) as (t & _ & _ & Ha).
    rewrite Ha, IHl' by lia. rewrite <- app_assoc. reflexivity.
Qed.

End TypeGrammar.

(** X25.  [parse_type] implements the grammar of types: it returns [T] and
    leaves the cursor at [pos'] exactly when the tokens from the cursor up
    to [pos'] spell [T].  In particular it never returns the type of
    [nil], which has no spelling. *)
Theorem parse_type_grammar (ts : list PTok.Token) (pos : nat) (T : Ast.Type_) (pos' : nat) :
  (exists fuel, Parser.parse_type ts fuel pos = Parser.Ok T pos')
  <-> spells ts pos T pos'.
Proof.
  split.
  - intros [fuel H]. exact (proj1 (parse_type_spells ts fuel) pos T pos' H).
  - intros H. destruct (proj1 (parse_type_reads ts) pos T pos' H) as [n Hn].
    exists n. apply Hn. lia.
Qed.

Example parse_type_function_type :
  Parser.parse_type
    (ParseMain.tokenize_input
       "OpenParen Int Comma Ampersand Id(s) CloseParen Arrow OpenBracket Int CloseBracket")
    6 0
  = Parser.Ok (Ast.FnType [Ast.IntType; Ast.PtrType (Ast.StructType "s")]
                 (Ast.ArrayType Ast.IntType)) 10.
Proof. vm_compute. reflexivity. Qed.

(* ===================================================================== *)
(** * Binary operators *)
(* ===================================================================== *)

Section ParserAssociativity.
Import Ast Parser.
Local Open Scope string_scope.
Variable ts : list PTok.Token.

Lemma exp3_loop_run pairs : forall fuel (operand : M Exp) left pos final,
  operator_run ts ["Plus"; "Dash"] operand pos pairs final ->
  List.length pairs < fuel ->
  exp3_loop ts fuel operand left pos = Ok (fold_left additive pairs left) final.
Proof.
  induction pairs as [|[op_token rhs] rest IH]; intros fuel operand left pos final H Hf;
    (destruct fuel as [|fuel]; [simpl in Hf; lia|]); cbn [exp3_loop]; unfold cond.
  - destruct H as [-> <-]. reflexivity.
  - destruct H as (-> & Hop & pos' & Hr & Hrest).
    unfold bind. rewrite (advance_at ts pos op_token Hop), Hr.
    apply IH; [assumption | simpl in Hf; lia].
Qed.

Lemma exp2_loop_run pairs : forall fuel (operand : M Exp) left pos final,
  operator_run ts ["Equal"; "NotEq"; "Lt"; "Lte"; "Gt"; "Gte"] operand pos pairs final ->
  List.length pairs < fuel ->
  exp2_loop ts fuel operand left pos = Ok (fold_left comparison pairs left) final.
Proof.
  induction pairs as [|[op_token rhs] rest IH]; intros fuel operand left pos final H Hf;
    (destruct fuel as [|fuel]; [simpl in Hf; lia|]); cbn [exp2_loop]; unfold cond.
  - destruct H as [-> <-]. reflexivity.
  - destruct H as (Hc & Hop & pos' & Hr & Hrest). rewrite Hc.
    unfold bind at 1. rewrite (advance_at ts pos op_token Hop).
    unfold bind at 1. rewrite Hr.
    assert (Hty : existsb (fun type => PTok.type op_token =? type)
                    ["Equal"; "NotEq"; "Lt"; "Lte"; "Gt"; "Gte"] = true).
    { revert Hc. unfold check_any. rewrite (is_at_end_false ts pos op_token Hop), Hop.
      auto. }
    cbn [existsb] in Hty.
    assert (Hop2 : (if PTok.type op_token =? "Equal" then ret BinaryOp.Eq
                    else if PTok.type op_token =? "NotEq" then ret BinaryOp.NotEq
                    else if PTok.type op_token =? "Lt" then ret BinaryOp.Lt
                    else if PTok.type op_token =? "Lte" then ret BinaryOp.Lte
                    else if PTok.type op_token =? "Gt" then ret BinaryOp.Gt
                    else if PTok.type op_token =? "Gte" then ret BinaryOp.Gte
                    else error ("unexpected token at token "
                                ++ to_string (PTok.index op_token)))
                   = ret (comparison_op (PTok.type op_token))).
    { unfold comparison_op.
      destruct (PTok.type op_token =? "Equal"); [reflexivity|].
      destruct (PTok.type op_token =? "NotEq"); [reflexivity|].
      destruct (PTok.type op_token =? "Lt"); [reflexivity|].
      destruct (PTok.type op_token =? "Lte"); [reflexivity|].
      destruct (PTok.type op_token =? "Gt"); [reflexivity|].
      destruct (PTok.type op_token =? "Gte"); [reflexivity | discriminate]. }
    rewrite Hop2. unfold bind, ret.
    apply IH; [assumption | simpl in Hf; lia].
Qed.

Lemma parse_exp2_more_fuel fuel k pos e pos' :
  parse_exp2 ts fuel pos = Ok e pos' -> parse_exp2 ts (fuel + k) pos = Ok e pos'.
Proof.
  intros H.
  destruct (fuel_le_add (parse_exp2 ts)
              (fun n => proj1 (proj2 (proj2 (parse_exp_fuel ts n)))) fuel k pos) as [E|E];
    congruence.
Qed.

Lemma parse_exp1_run pairs : forall fuel left pos pos0 final,
  parse_exp2 ts fuel pos = Ok left pos0 ->
  operator_run ts ["And"; "Or"] (parse_exp2 ts fuel) pos0 pairs final ->
  parse_exp1 ts (S (fuel + List.length pairs)) pos = Ok (logical left pairs) final.
Proof.
  induction pairs as [|[op_token rhs] rest IH]; intros fuel left pos pos0 final Hl H;
    cbn [parse_exp1]; unfold bind at 1;
    rewrite (parse_exp2_more_fuel _ _ _ _ _ Hl); unfold cond.
  - destruct H as [-> <-]. reflexivity.
  - destruct H as (-> & Hop & pos' & Hr & Hrest).
    unfold bind at 1. rewrite (advance_at ts pos0 op_token Hop).
    cbn [List.length]. rewrite Nat.add_succ_r.
    unfold bind. rewrite (IH fuel rhs (S pos0) pos' final Hr Hrest). reflexivity.
Qed.

End ParserAssociativity.

(** X26.  [+] and [-] associate to the left: when [parse_exp4] reads [left] and
    then a run of operators and operands follows, [parse_exp3] returns the
    operations nested to the left, [((left op1 e1) op2 e2) ...]. *)
Theorem parse_exp3_left_assoc (ts : list PTok.Token) (fuel pos pos0 final : nat)
  (left : Ast.Exp) (pairs : list (PTok.Token * Ast.Exp)) :
  Parser.parse_exp4 ts fuel pos = Parser.Ok left pos0 ->
  operator_run ts ["Plus"; "Dash"]%string (Parser.parse_exp4 ts fuel) pos0 pairs final ->
  List.length pairs < fuel ->
  Parser.parse_exp3 ts (S fuel) pos = Parser.Ok (fold_left additive pairs left) final.
Proof.
  intros Hl Hrun Hf. cbn [Parser.parse_exp3]. unfold Parser.bind. rewrite Hl.
  apply exp3_loop_run; assumption.
Qed.

(** X27.  The comparisons associate to the left too, and the loop of
    [parse_exp2] never reaches its [unexpected token] branch. *)
Theorem parse_exp2_left_assoc (ts : list PTok.Token) (fuel pos pos0 final : nat)
  (left : Ast.Exp) (pairs : list (PTok.Token * Ast.Exp)) :
  Parser.parse_exp3 ts fuel pos = Parser.Ok left pos0 ->
  operator_run ts ["Equal"; "NotEq"; "Lt"; "Lte"; "Gt"; "Gte"]%string
    (Parser.parse_exp3 ts fuel) pos0 pairs final ->
  List.length pairs < fuel ->
  Parser.parse_exp2 ts (S fuel) pos = Parser.Ok (fold_left comparison pairs left) final.
Proof.
  intros Hl Hrun Hf. cbn [Parser.parse_exp2]. unfold Parser.bind. rewrite Hl.
  apply exp2_loop_run; assumption.
Qed.

(** X28.  [and] and [or] associate to the right: when [parse_exp2] reads [left]
    and then a run of operators and operands follows, [parse_exp1] returns
    the operations nested to the right, [left op1 (e1 op2 (e2 ...))]. *)
Theorem parse_exp1_right_assoc (ts : list PTok.Token) (fuel pos pos0 final : nat)
  (left : Ast.Exp) (pairs : list (PTok.Token * Ast.Exp)) :
  Parser.parse_exp2 ts fuel pos = Parser.Ok left pos0 ->
  operator_run ts ["And"; "Or"]%string (Parser.parse_exp2 ts fuel) pos0 pairs final ->
  Parser.parse_exp1 ts (S (fuel + List.length pairs)) pos
  = Parser.Ok (logical left pairs) final.
Proof. apply parse_exp1_run. Qed.

Lemma parse_exp1_right_assoc_witness :
  let ts := ParseMain.tokenize_input "Id(a) And Id(b) Or Id(c)" in
  let pairs := [(PTok.mk "And" "" 1, Ast.Val (Ast.Id "b"));
                (PTok.mk "Or" "" 3, Ast.Val (Ast.Id "c"))] in
  Parser.parse_exp2 ts 10 0 = Parser.Ok (Ast.Val (Ast.Id "a")) 1 /\
  operator_run ts ["And"; "Or"]%string (Parser.parse_exp2 ts 10) 1 pairs 5 /\
  Parser.parse_exp1 ts (S (10 + 2)) 0
  = Parser.Ok (Ast.BinOp BinaryOp.And (Ast.Val (Ast.Id "a"))
                 (Ast.BinOp BinaryOp.Or (Ast.Val (Ast.Id "b")) (Ast.Val (Ast.Id "c")))) 5.
Proof.
  intros ts pairs.
  assert (Hrun : operator_run ts ["And"; "Or"]%string (Parser.parse_exp2 ts 10) 1 pairs 5).
  { repeat split. exists 3. split; [vm_compute; reflexivity|].
    repeat split. exists 5. split; [vm_compute; reflexivity|].
    split; reflexivity. }
  refine (conj _ (conj Hrun _)).
  1: vm_compute; reflexivity.
  apply (parse_exp1_right_assoc ts 10 0 1 5 (Ast.Val (Ast.Id "a")) pairs);
    [vm_compute; reflexivity | exact Hrun].
Defined.

Lemma parse_exp3_left_assoc_witness :
  let ts := ParseMain.tokenize_input "Id(a) Dash Id(b) Plus Id(c)" in
  let pairs := [(PTok.mk "Dash" "" 1, Ast.Val (Ast.Id "b"));
                (PTok.mk "Plus" "" 3, Ast.Val (Ast.Id "c"))] in
  Parser.parse_exp4 ts 10 0 = Parser.Ok (Ast.Val (Ast.Id "a")) 1 /\
  operator_run ts ["Plus"; "Dash"]%string (Parser.parse_exp4 ts 10) 1 pairs 5 /\
  List.length pairs < 10 /\
  Parser.parse_exp3 ts 11 0
  = Parser.Ok (Ast.BinOp BinaryOp.Add
                 (Ast.BinOp BinaryOp.Sub (Ast.Val (Ast.Id "a")) (Ast.Val (Ast.Id "b")))
                 (Ast.Val (Ast.Id "c"))) 5.
Proof.
  intros ts pairs.
  assert (Hrun : operator_run ts ["Plus"; "Dash"]%string (Parser.parse_exp4 ts 10) 1 pairs 5).
  { repeat split. exists 3. split; [vm_compute; reflexivity|].
    repeat split. exists 5. split; [vm_compute; reflexivity|].
    split; reflexivity. }
  refine (conj _ (conj Hrun (conj _ _))).
  1: vm_compute; reflexivity.
  1: simpl; lia.
  apply (parse_exp3_left_assoc ts 10 0 1 5 (Ast.Val (Ast.Id "a")) pairs);
    [vm_compute; reflexivity | exact Hrun | simpl; lia].
Defined.

Lemma parse_exp2_left_assoc_witness :
  let ts := ParseMain.tokenize_input "Id(a) Lt Id(b) Equal Id(c)" in
  let pairs := [(PTok.mk "Lt" "" 1, Ast.Val (Ast.Id "b"));
                (PTok.mk "Equal" "" 3, Ast.Val (Ast.Id "c"))] in
  Parser.parse_exp3 ts 10 0 = Parser.Ok (Ast.Val (Ast.Id "a")) 1 /\
  operator_run ts ["Equal"; "NotEq"; "Lt"; "Lte"; "Gt"; "Gte"]%string
    (Parser.parse_exp3 ts 10) 1 pairs 5 /\
  List.length pairs < 10 /\
  Parser.parse_exp2 ts 11 0
  = Parser.Ok (Ast.BinOp BinaryOp.Eq
                 (Ast.BinOp BinaryOp.Lt (Ast.Val (Ast.Id "a")) (Ast.Val (Ast.Id "b")))
                 (Ast.Val (Ast.Id "c"))) 5.
Proof.
  intros ts pairs.
  assert (Hrun : operator_run ts ["Equal"; "NotEq"; "Lt"; "Lte"; "Gt"; "Gte"]%string
                   (Parser.parse_exp3 ts 10) 1 pairs 5).
  { repeat split. exists 3. split; [vm_compute; reflexivity|].
    repeat split. exists 5. split; [vm_compute; reflexivity|].
    split; reflexivity. }
  refine (conj _ (conj Hrun (conj _ _))).
  1: vm_compute; reflexivity.
  1: simpl; lia.
  apply (parse_exp2_left_assoc ts 10 0 1 5 (Ast.Val (Ast.Id "a")) pairs);
    [vm_compute; reflexivity | exact Hrun | simpl; lia].
Defined.

(* ===================================================================== *)
(** * The lexer and the parser composed *)
(* ===================================================================== *)

Section LexThenParse.
Local Open Scope string_scope.

Lemma in_read_tokens buf tokens : forall i t,
  In t (read_tokens buf i tokens) ->
  exists token j, In token tokens /\ t = read_token buf j token.
Proof.
  induction tokens as [|token rest IH]; intros i t H; [destruct H|].
  destruct H as [<-|H].
  - exists token, i. split; [left; reflexivity | reflexivity].
  - destruct (IH _ _ H) as (token' & j & Hin & ->).
    exists token', j. split; [right; assumption | reflexivity].
Qed.

Lemma kind_name_num k : LexMain.kind_name k = "Num" -> k = TokenType.Num.
Proof. destruct k; simpl; intros H; try discriminate H; reflexivity. Qed.

(** The [Num] tokens [lex] finds are read back with values [std::stoll]
    accepts. *)
Lemma read_tokens_no_bad_num buf tokens :
  Forall (lexed_at buf (List.length buf)) tokens ->
  ~ has_bad_num (read_tokens buf 0 tokens).
Proof.
  intros Hall (t & Hin & Hty & Hs).
  destruct (in_read_tokens _ _ _ _ Hin) as (token & j & Hin' & ->).
  simpl in Hty. apply kind_name_num in Hty.
  rewrite Forall_forall in Hall.
  destruct (Hall token Hin') as [(Hlt & Ht & _)|(He & _)]; [|congruence].
  revert Hs. unfold read_token. rewrite Hty. cbn [PTok.value].
  rewrite Ht in Hty.
  pose proof (munch_token_num_digits buf (Tok.first token) (List.length buf) Hlt
                (Nat.le_refl _) Hty) as Hd.
  rewrite <- Ht in Hd.
  rewrite (stoll_digits _ Hd).
  destruct (_ <=? _)%Z; discriminate.
Qed.

End LexThenParse.

(** X29.  [lex] and [parse] composed.  When the lexer finds no [Error] token and
    [parse] reads the line that [lex] has printed, whatever [parse] throws
    is a parse error with one of its five messages: [std::stoll] accepts
    every [Num] lexeme of the lexer. *)
Theorem lex_then_parse_throws (source_code : string) (tokens : list Token)
  (out : string) (fuel : nat) (e : Parser.exn) :
  (N.of_nat (String.length source_code) < ParseMain.SIZE_MOD)%N ->
  Lexer.lex (src source_code) = Some tokens ->
  Forall (fun t => Tok.token_type t <> TokenType.Error) tokens ->
  LexMain.main source_code = Some out ->
  Parser.parse (ParseMain.tokenize_input (ParseMain.getline out)) fuel = Parser.Throw e ->
  parse_error e.
Proof.
  intros Hlen Hlex Hne Hmain Hparse.
  destruct (lex_main_read source_code tokens Hlen Hlex Hne) as (out' & Hm & Hr).
  assert (out' = out) by congruence. subst out'.
  rewrite Hr in Hparse.
  destruct (parse_program_thr _ fuel 0 e Hparse) as [H|[_ Hbad]]; [exact H|].
  exfalso. revert Hbad. apply read_tokens_no_bad_num.
  eapply lex_loop_lexed_at; [| | exact Hlex]; [lia | constructor].
Qed.

Lemma lex_then_parse_throws_witness :
  (N.of_nat (String.length "fn f( 1") < ParseMain.SIZE_MOD)%N /\
  Lexer.lex (src "fn f( 1")
  = Some [Tok.mk TokenType.Fn 0 2; Tok.mk TokenType.Id 3 4;
          Tok.mk TokenType.OpenParen 4 5; Tok.mk TokenType.Num 6 7] /\
  Forall (fun t => Tok.token_type t <> TokenType.Error)
    [Tok.mk TokenType.Fn 0 2; Tok.mk TokenType.Id 3 4;
     Tok.mk TokenType.OpenParen 4 5; Tok.mk TokenType.Num 6 7] /\
  LexMain.main "fn f( 1" = Some ("Fn Id(f) OpenParen Num(1)" ++ String NL "")%string /\
  Parser.parse
    (ParseMain.tokenize_input
       (ParseMain.getline ("Fn Id(f) OpenParen Num(1)" ++ String NL "")%string)) 40
  = Parser.Throw (Parser.runtime_error "parse error: unexpected token at token 3") /\
  parse_error (Parser.runtime_error "parse error: unexpected token at token 3").
Proof.
  assert (H : Forall (fun t => Tok.token_type t <> TokenType.Error)
    [Tok.mk TokenType.Fn 0 2; Tok.mk TokenType.Id 3 4;
     Tok.mk TokenType.OpenParen 4 5; Tok.mk TokenType.Num 6 7]).
  { repeat constructor; discriminate. }
  refine (conj _ (conj _ (conj H (conj _ (conj _ _))))).
  1-4: vm_compute; reflexivity.
  apply (lex_then_parse_throws "fn f( 1"
           [Tok.mk TokenType.Fn 0 2; Tok.mk TokenType.Id 3 4;
            Tok.mk TokenType.OpenParen 4 5; Tok.mk TokenType.Num 6 7]
           ("Fn Id(f) OpenParen Num(1)" ++ String NL "")%string 40);
    [vm_compute; reflexivity | vm_compute; reflexivity | exact H
     | vm_compute; reflexivity | vm_compute; reflexivity].
Defined.
